(** * segan/transforms.py: stochastic audio transforms

    A shallow embedding of the control logic of [PCompose], [Additive]
    (SNR-controlled noise injection with the P.56 bisection helper) and
    [Chopper] (VAD-driven regional muting).

    Conventions.
    - Python floats are idealised as exact rationals [Q]; the one place
      that needs a square root and a real power, the scale factor of
      [addnoise_asl], is also given over [R].
    - Where the rounding of float32 decides what the code returns (the
      two scalers of [Chopper], the cast that ends [Additive.__call__])
      the operation is a parameter, and a theorem assumes of it only
      what every float32 operation of that kind satisfies
      ([float32_division], [float32_rounding]). The loop of
      [Additive.__call__] is also given on buffers that hold inf or nan.
    - int16 sample buffers are [list Z].
    - The two random generators the file uses ([random] and [np.random])
      are tapes of outcomes carried in the [world]; every primitive
      consumes the next outcome of its tape.
    - numpy arrays that the code aliases or mutates live in a heap of
      buffers addressed by position.
    - Python exceptions are the [Raise] side of [result]. *)

From Stdlib Require Import ZArith QArith Qround Qabs Qminmax Qpower List Bool Lia Lqa.
From Stdlib Require Import Reals Lra.
Import ListNotations.

Local Open Scope Z_scope.

(** ** Exceptions and results *)

Inductive pyerr : Type :=
| ValueError_SampleRate      (* 'Sample rate must be 16kHz' *)
| ValueError_NoiseLength     (* 'Noise length has to be greater than speech length!' *)
| ValueError_NoNoises        (* '[!] No noises found in ...' *)
| ValueError_EmptyChoice     (* np.random.choice / random.choice on an empty population *)
| ValueError_SampleLarger    (* np.random.choice(..., replace=False) with too large a sample *)
| ValueError_Broadcast       (* operands could not be broadcast together *)
| ValueError_EmptyReduction  (* np.max / np.min of a zero-size array *)
| ValueError_Unpack          (* x, report = x on something that is not a pair *)
| NotImplementedError_IRS    (* 'Under construction!' *)
| TypeError_Len              (* len() of a 0-d tensor *)
| IndexError
| OutOfFuel.                 (* the modelled loop did not finish within the fuel given *)

Inductive result (A : Type) : Type :=
| Ok (a : A)
| Raise (e : pyerr).

Arguments Ok {A} a.
Arguments Raise {A} e.

(** ** Numeric helpers *)

Definition len {A : Type} (l : list A) : Z := Z.of_nat (length l).

Definition Qlt_bool (a b : Q) : bool := negb (Qle_bool b a).

(** [int(x)] on a float: truncation toward zero. *)
Definition py_int (q : Q) : Z :=
  if Qle_bool 0 q then Qfloor q else Qceiling q.

(** [np.round]: to the nearest integer, ties to the even one. *)
Definition np_round (q : Q) : Z :=
  let f := Qfloor q in
  let d := (q - inject_Z f)%Q in
  if Qlt_bool d (1 # 2) then f
  else if Qlt_bool (1 # 2) d then f + 1
  else if Z.even f then f else f + 1.

(** [astype(np.int16)] on a float: truncation, then the 16-bit two's
    complement wrap for values out of range. *)
Definition wrap16 (z : Z) : Z := (z + 32768) mod 65536 - 32768.

(** [astype(np.int16)] on a float: truncation toward zero, of which the
    low 16 bits are kept; the conversion goes through a 32-bit integer,
    and a value beyond its range gives 0. *)
Definition astype_int16 (q : Q) : Z :=
  let z := py_int q in
  if (-2147483648 <=? z) && (z <=? 2147483647) then wrap16 z else 0.

(** [range(start, stop, step)] for a positive step. *)
Definition py_range (start stop step : Z) : list Z :=
  map (fun k => start + step * Z.of_nat k)
      (seq 0 (Z.to_nat ((stop - start + step - 1) / step))).

(** Slice bounds as Python normalises them: a negative index counts from
    the end, and both ends are clamped to the buffer. *)
Definition norm_index (n i : Z) : Z :=
  if i <? 0 then Z.max (i + n) 0 else Z.min i n.

Definition py_slice {A : Type} (l : list A) (b e : Z) : list A :=
  let b' := norm_index (len l) b in
  let e' := norm_index (len l) e in
  firstn (Z.to_nat (e' - b')) (skipn (Z.to_nat b') l).

(** [l[b:e] = v] on a numpy array. *)
Definition py_slice_assign {A : Type} (l : list A) (b e : Z) (v : A) : list A :=
  let b' := norm_index (len l) b in
  let e' := norm_index (len l) e in
  firstn (Z.to_nat b') l ++ repeat v (Z.to_nat (e' - b'))
         ++ skipn (Z.to_nat (Z.max b' e')) l.

Fixpoint remove_nth {A : Type} (n : nat) (l : list A) : list A :=
  match l, n with
  | [], _ => []
  | _ :: t, O => t
  | h :: t, S n' => h :: remove_nth n' t
  end.

Fixpoint map2 {A B C : Type} (f : A -> B -> C) (a : list A) (b : list B) : list C :=
  match a, b with
  | x :: a', y :: b' => f x y :: map2 f a' b'
  | _, _ => []
  end.

Definition dot (a b : list Q) : Q := fold_left Qplus (map2 Qmult a b) 0%Q.

(** ** The world: heap of int16 buffers and the two random tapes *)

Definition addr := nat.

Record world : Type := mkWorld {
  heap : list (list Z);     (* numpy int16 arrays, by address *)
  py_tape : nat -> Q;       (* outcomes of random.random(), each in [0,1) *)
  py_pos : nat;
  np_uniform : nat -> Q;    (* outcomes of np.random's uniform draws, each in [0,1) *)
  np_upos : nat;
  np_normal : nat -> Q;     (* outcomes of np.random.randn *)
  np_npos : nat
}.

Definition valid_tapes (w : world) : Prop :=
  (forall n, 0 <= py_tape w n /\ py_tape w n < 1)%Q /\
  (forall n, 0 <= np_uniform w n /\ np_uniform w n < 1)%Q.

(** State-and-exception monad over the world. *)
Definition M (A : Type) : Type := world -> result (A * world).

Definition ret {A : Type} (a : A) : M A := fun w => Ok (a, w).

Definition bind {A B : Type} (m : M A) (k : A -> M B) : M B :=
  fun w => match m w with
           | Ok (a, w') => k a w'
           | Raise e => Raise e
           end.

Definition raise {A : Type} (e : pyerr) : M A := fun _ => Raise e.

Definition lift {A : Type} (r : result A) : M A :=
  fun w => match r with Ok a => Ok (a, w) | Raise e => Raise e end.

Declare Scope monad_scope.
Delimit Scope monad_scope with monad.
Notation "x <- m ;; k" := (bind m (fun x => k))
  (at level 61, m at next level, right associativity) : monad_scope.
Notation "' p <- m ;; k" := (bind m (fun x => let p := x in k))
  (at level 61, p pattern, m at next level, right associativity) : monad_scope.
Local Open Scope monad_scope.

(** [random.random()] *)
Definition random_random : M Q :=
  fun w => Ok (py_tape w (py_pos w),
               mkWorld (heap w) (py_tape w) (S (py_pos w))
                       (np_uniform w) (np_upos w) (np_normal w) (np_npos w)).

(** [np.random.rand(1)] *)
Definition np_random_rand : M Q :=
  fun w => Ok (np_uniform w (np_upos w),
               mkWorld (heap w) (py_tape w) (py_pos w)
                       (np_uniform w) (S (np_upos w)) (np_normal w) (np_npos w)).

(** [np.random.randn(1)] *)
Definition np_random_randn : M Q :=
  fun w => Ok (np_normal w (np_npos w),
               mkWorld (heap w) (py_tape w) (py_pos w)
                       (np_uniform w) (np_upos w) (np_normal w) (S (np_npos w))).

(** Index picked in a population of [n] by a uniform outcome [u]. *)
Definition pick_index (n : nat) (u : Q) : nat :=
  Nat.min (Z.to_nat (Qfloor (u * inject_Z (Z.of_nat n)))) (n - 1).

(** [np.random.choice(pool, 1)] *)
Definition np_random_choice {A : Type} (pool : list A) : M A :=
  match pool with
  | [] => raise ValueError_EmptyChoice
  | d :: _ => u <- np_random_rand ;; ret (nth (pick_index (length pool) u) pool d)
  end.

(** [np.random.choice(pool, k, replace=False)]: [k] picks, each removed
    from the population before the next one. *)
Fixpoint np_random_choice_noreplace {A : Type} (pool : list A) (k : nat) : M (list A) :=
  match k with
  | O => ret []
  | S k' =>
      match pool with
      | [] => raise ValueError_SampleLarger
      | d :: _ =>
          u <- np_random_rand ;;
          let i := pick_index (length pool) u in
          rest <- np_random_choice_noreplace (remove_nth i pool) k' ;;
          ret (nth i pool d :: rest)
      end
  end.

(** Heap primitives. *)
Definition heap_read (a : addr) : M (list Z) :=
  fun w => match nth_error (heap w) a with
           | Some b => Ok (b, w)
           | None => Raise IndexError
           end.

Definition heap_alloc (b : list Z) : M addr :=
  fun w => Ok (length (heap w),
               mkWorld (heap w ++ [b]) (py_tape w) (py_pos w)
                       (np_uniform w) (np_upos w) (np_normal w) (np_npos w)).

Fixpoint list_set {A : Type} (l : list A) (n : nat) (v : A) : list A :=
  match l, n with
  | [], _ => []
  | _ :: t, O => v :: t
  | h :: t, S n' => h :: list_set t n' v
  end.

Definition heap_write (a : addr) (b : list Z) : M unit :=
  fun w => match nth_error (heap w) a with
           | Some _ => Ok (tt, mkWorld (list_set (heap w) a b) (py_tape w) (py_pos w)
                                       (np_uniform w) (np_upos w) (np_normal w) (np_npos w))
           | None => Raise IndexError
           end.

(** ** PCompose *)

(** The values a transform exchanges with the pipeline: a 1-d tensor, a
    0-d tensor (one element of a tensor), or a tuple such as
    [(x, report)]. *)
#[warnings="-register-all"]
Inductive pyval : Type :=
| Tensor (xs : list Q)
| Item (x : Q)
| Tuple (vs : list pyval).

Definition py_len (v : pyval) : result Z :=
  match v with
  | Tensor xs => Ok (len xs)
  | Item _ => Raise TypeError_Len
  | Tuple vs => Ok (len vs)
  end.

(** [x, report = x] *)
Definition py_unpack2 (v : pyval) : result (pyval * pyval) :=
  match v with
  | Tensor [a; b] => Ok (Item a, Item b)
  | Tuple [a; b] => Ok (a, b)
  | _ => Raise ValueError_Unpack
  end.

Definition transform : Type := pyval -> M pyval.

Record PCompose : Type := mkPCompose {
  pc_transforms : list transform;
  pc_probs : Q;
  pc_report : bool
}.

(** The body of the [for transf in self.transforms] loop. *)
Fixpoint PCompose_loop (ts : list transform) (probs : Q)
         (x : pyval) (reports : list pyval) : M (pyval * list pyval) :=
  match ts with
  | [] => ret (x, reports)
  | transf :: ts' =>
      u <- random_random ;;
      if Qle_bool u probs then
        x1 <- transf x ;;
        n <- lift (py_len x1) ;;
        if n =? 2 then
          ' (x2, report) <- lift (py_unpack2 x1) ;;
          PCompose_loop ts' probs x2 (reports ++ [report])
        else PCompose_loop ts' probs x1 reports
      else PCompose_loop ts' probs x reports
  end.

Definition PCompose_call (self : PCompose) (tensor : pyval) : M pyval :=
  ' (x, reports) <- PCompose_loop (pc_transforms self) (pc_probs self) tensor [] ;;
  if pc_report self then ret (Tuple [x; Tuple reports]) else ret x.

(** ** Additive: the ASL interpolation routine *)

(** The variables the [while True] loop of [bin_interp] carries. *)
Record bin_state : Type := mkBin {
  midcount : Q;
  midthr : Q;
  iterno : Z;
  tol : Q
}.

(** One pass through the body of the loop: [inr] is the [break] with the
    values returned, [inl] the state at the end of the body. *)
Definition bin_iter (upcount lwcount upthr lwthr Margin : Q) (s : bin_state)
  : bin_state + (Q * Q) :=
  let diff := (midcount s - midthr s - Margin)%Q in
  if Qle_bool (Qabs diff) (tol s) then inr (midcount s, midthr s)
  else
    let iterno' := iterno s + 1 in
    let tol' := if 20 <? iterno' then (tol s * (11 # 10))%Q else tol s in
    if Qlt_bool tol' diff then
      inl (mkBin ((upcount + midcount s) / 2)%Q ((upthr + midthr s) / 2)%Q iterno' tol')
    else if Qlt_bool diff (- tol')%Q then
      inl (mkBin ((midcount s - lwcount) / 2)%Q ((midthr s + lwthr) / 2)%Q iterno' tol')
    else inl (mkBin (midcount s) (midthr s) iterno' tol').

Fixpoint bin_loop (fuel : nat) (upcount lwcount upthr lwthr Margin : Q)
         (s : bin_state) : result (Q * Q) :=
  match fuel with
  | O => Raise OutOfFuel
  | S fuel' =>
      match bin_iter upcount lwcount upthr lwthr Margin s with
      | inr r => Ok r
      | inl s' => bin_loop fuel' upcount lwcount upthr lwthr Margin s'
      end
  end.

Definition bin_interp (fuel : nat) (upcount lwcount upthr lwthr Margin tol : Q)
  : result (Q * Q) :=
  let tol := if Qlt_bool tol 0 then (- tol)%Q else tol in
  let iterno := 1 in
  if Qlt_bool (Qabs (upcount - upthr - Margin)) tol then Ok (lwcount, lwthr)
  else if Qlt_bool (Qabs (lwcount - lwthr - Margin)) tol then Ok (lwcount, lwthr)
  else
    let midcount := ((upcount + lwcount) / 2)%Q in
    let midthr := ((upthr + lwthr) / 2)%Q in
    bin_loop fuel upcount lwcount upthr lwthr Margin (mkBin midcount midthr iterno tol).

(** ** Additive: noise injection *)

Record Additive : Type := mkAdditive {
  noises : list (list Q);      (* the 'data' of every loaded noise *)
  snr_levels : list Z;
  do_IRS : bool
}.

(** [Additive.__init__], once the directory has been read. *)
Definition Additive_init (found : list (list Q)) (snr_levels : list Z) (do_IRS : bool)
  : result Additive :=
  match found with
  | [] => Raise ValueError_NoNoises
  | _ => Ok (mkAdditive found snr_levels do_IRS)
  end.

(** [apply_IRS] raises on its first line. *)
Definition apply_IRS (data : list Q) (srate nbits : Z) : result (list Q) :=
  Raise NotImplementedError_IRS.

(** [a + b] on two 1-d arrays, with numpy's broadcasting of a length-1
    operand. *)
Definition np_add (a b : list Q) : result (list Q) :=
  if (length a =? length b)%nat then Ok (map2 Qplus a b)
  else match a, b with
       | _, [y] => Ok (map (fun v => v + y)%Q a)
       | [x], _ => Ok (map (fun v => x + v)%Q b)
       | _, _ => Raise ValueError_Broadcast
       end.

Definition np_max (a : list Q) : result Q :=
  match a with
  | [] => Raise ValueError_EmptyReduction
  | x :: t => Ok (fold_left Qmax t x)
  end.

Definition np_min (a : list Q) : result Q :=
  match a with
  | [] => Raise ValueError_EmptyReduction
  | x :: t => Ok (fold_left Qmin t x)
  end.

(** [np.max(noisy) >= 1 or np.min(noisy) < -1] *)
Definition clips (noisy : list Q) : result bool :=
  match np_max noisy with
  | Raise e => Raise e
  | Ok mx =>
      if Qle_bool 1 mx then Ok true
      else match np_min noisy with
           | Raise e => Raise e
           | Ok mn => Ok (Qlt_bool mn (-1))
           end
  end.

(** The [while] loop that normalises to avoid clipping; it returns the
    buffer and the value of [small] when it stops. *)
Fixpoint declip_loop (fuel : nat) (noisy : list Q) (small : Q) : result (list Q * Q) :=
  match fuel with
  | O => Raise OutOfFuel
  | S fuel' =>
      match clips noisy with
      | Raise e => Raise e
      | Ok false => Ok (noisy, small)
      | Ok true =>
          declip_loop fuel' (map (fun v => v / (1 + small))%Q noisy) (small + (1 # 10))%Q
      end
  end.

Definition declip (fuel : nat) (noisy : list Q) : result (list Q) :=
  match clips noisy with
  | Raise e => Raise e
  | Ok false => Ok noisy
  | Ok true =>
      let small := (1 # 10)%Q in
      match declip_loop fuel noisy small with
      | Ok (noisy', _) => Ok noisy'
      | Raise e => Raise e
      end
  end.

Section AdditiveCapabilities.

(** The ASL estimator [asl_P56], the square root and [10 ** e]: the
    numeric capabilities [addnoise_asl] builds on. [asl_P56] stands
    for the triple (Px, asl, c0) the estimator returns where it returns;
    the estimator itself, which raises for srate = 0 and for
    nbits <= 1, is [Additive_asl_P56] below, and [asl_P56_returns]
    ties the two. *)
Variable asl_P56 : list Q -> Z -> Z -> Q * Q * option Q.
Variable np_sqrt : Q -> Q.
Variable pow10 : Q -> Q.

Definition rand_start_of (noise_len x_len : Z) (u : Q) : Z :=
  let rand_start_limit := noise_len - x_len + 1 in
  np_round (inject_Z (rand_start_limit - 1) * u + 1)%Q.

Definition addnoise_asl (clean noise : list Q) (srate nbits snr : Z) (do_IRS : bool)
  : M (list Q * (Z * Z)) :=
  clean <- lift (if do_IRS then apply_IRS clean srate nbits else Ok clean) ;;
  let '(Px, asl, c0) := asl_P56 clean srate nbits in
  let x := clean in
  let x_len := len x in
  let noise_len := len noise in
  if noise_len <=? x_len then raise ValueError_NoiseLength
  else
    u <- np_random_rand ;;
    let rand_start := rand_start_of noise_len x_len u in
    let noise_segment := py_slice noise rand_start (rand_start + x_len) in
    let noise_bounds := (rand_start, rand_start + x_len) in
    noise_segment <- lift (if do_IRS then apply_IRS noise_segment srate nbits
                           else Ok noise_segment) ;;
    let Pn := (dot noise_segment noise_segment / inject_Z x_len)%Q in
    let sf := np_sqrt (Px / Pn / pow10 (inject_Z snr / 10))%Q in
    let noise_segment := map (fun v => v * sf)%Q noise_segment in
    noisy <- lift (np_add x noise_segment) ;;
    ret (noisy, noise_bounds).

(** [noisy.astype(np.float32)], on one sample: the float64 value
    rounded to float32. *)
Variable astype_float32 : Q -> Q.

Definition Additive_call (fuel : nat) (self : Additive) (wav : list Q) (srate nbits : Z)
  : M (list Q) :=
  noise_idx <- np_random_choice (seq 0 (length (noises self))) ;;
  let noise := nth noise_idx (noises self) [] in
  snr <- np_random_choice (snr_levels self) ;;
  ' (noisy, noise_bound) <- addnoise_asl wav noise srate nbits snr (do_IRS self) ;;
  noisy <- lift (declip fuel noisy) ;;
  ret (map astype_float32 noisy).

End AdditiveCapabilities.

(** ** The scale factor over the reals *)

Definition Rdot (a b : list R) : R := fold_left Rplus (map2 Rmult a b) 0%R.

(** [Pn = np.dot(noise_segment.T, noise_segment) / x_len] *)
Definition noise_power (noise_segment : list R) (x_len : Z) : R :=
  (Rdot noise_segment noise_segment / IZR x_len)%R.

(** [sf = np.sqrt(Px / Pn / (10 ** (snr / 10)))] *)
Definition scale_factor (Px Pn : R) (snr : Z) : R :=
  sqrt (Px / Pn / Rpower 10 (IZR snr / 10))%R.

(** [noise_segment = noise_segment * sf] *)
Definition scale_noise (noise_segment : list R) (sf : R) : list R :=
  map (fun v => v * sf)%R noise_segment.

(** ** Floating point *)

(** A bound on the relative error of a float32 division of a sample by a
    scalar (2^-22: the scalar is itself rounded to float32 before the
    division, which rounds once more, each by at most 2^-24), and on the
    absolute error of a result that underflows (2^-64, above the 2^-150
    of float32). *)
Definition float32_eps : Q := 1 # 4194304.
Definition float32_tiny : Q := 1 # 18446744073709551616.

(** What is assumed of [tensor_div a b], the float32 entry of
    [tensor / b] for the entry [a]: where the quotient is at most 2^16
    in magnitude it is the exact quotient up to the two errors above,
    and zero divided is zero. *)
Definition float32_division (tensor_div : Q -> Q -> Q) : Prop :=
  forall a b : Q,
    ~ (b == 0)%Q -> (Qabs (a / b) <= 65536)%Q ->
    (Qabs (tensor_div a b - a / b) <= float32_eps * Qabs (a / b) + float32_tiny)%Q /\
    ((a == 0)%Q -> (tensor_div a b == 0)%Q).

(** What is assumed of the rounding [fl] of a float64 to float32: it
    keeps the order, and -1 and 1 are float32 numbers. *)
Definition float32_rounding (fl : Q -> Q) : Prop :=
  (forall a b : Q, (a <= b)%Q -> (fl a <= fl b)%Q) /\
  (fl 1 == 1)%Q /\ (fl (- (1)) == - (1))%Q.

(** ** Scale *)

(** [Scale(factor).__call__]: [tensor / self.factor], in the float type
    of the tensor; [tensor_div] is that division on one entry. *)
Definition Scale_call (tensor_div : Q -> Q -> Q) (factor : Q) (tensor : list Q)
  : list Q :=
  map (fun v => tensor_div v factor) tensor.

(** ** Chopper *)

(** A speech region, as the tuple [(beg, center, duration)] that
    [vad_wav] appends and [chop_wav] decomposes. *)
Record region : Type := mkRegion {
  reg_beg : Z;
  reg_center : Q;
  reg_dur : Z
}.

Record Chopper : Type := mkChopper {
  chop_factors : list (Q * Q);   (* (mean, std) in seconds *)
  max_chops : Z;
  ch_report : bool
}.

Definition denormalizer_factor : Q := (1 / inject_Z (2 ^ 15 - 1))%Q.
Definition normalizer_factor : Q := inject_Z (2 ^ 15 - 1).

Definition window_size : Z := 160.

(** The variables the scan of [vad_wav] carries from window to window. *)
Record vad_state : Type := mkVad {
  regions : list region;
  curr_region_counter : Z;
  init : option Z
}.

(** The two branches of the loop body of [vad_wav], given what the test
    on the frame at [beg_i] said. *)
Definition vad_update (st : vad_state) (beg_i : Z) (speech : bool) : vad_state :=
  if speech then
    mkVad (regions st) (curr_region_counter st + 1)
          (match init st with None => Some beg_i | Some i => Some i end)
  else
    mkVad (match init st with
           | Some i =>
               let end_sample := i + curr_region_counter st * window_size in
               let center_sample := (inject_Z i + inject_Z (end_sample - i) / 2)%Q in
               regions st ++ [mkRegion i center_sample (curr_region_counter st * window_size)]
           | None => regions st
           end) 0 None.

Section VadCapability.

(** [self.vad.is_speech(frame, srate)], the frame classifier. *)
Variable is_speech : list Z -> Z -> bool.

(** The test of the loop body: a full frame that the classifier calls
    speech. *)
Definition frame_is_speech (wav : list Z) (srate : Z) (beg_i : Z) : bool :=
  let frame := py_slice wav beg_i (beg_i + window_size) in
  (window_size <=? len frame) && is_speech frame srate.

(** The body of [for beg_i in range(0, wav.shape[0], window_size)]. *)
Definition vad_step (wav : list Z) (srate : Z) (st : vad_state) (beg_i : Z) : vad_state :=
  vad_update st beg_i (frame_is_speech wav srate beg_i).

(** What the scan sees, window by window. *)
Definition window_labels (wav : list Z) (srate : Z) : list bool :=
  map (frame_is_speech wav srate) (py_range 0 (len wav) window_size).

Definition vad_wav (wav : list Z) (srate : Z) : result (list region) :=
  if negb (srate =? 16000) then Raise ValueError_SampleRate
  else
    Ok (regions (fold_left (vad_step wav srate)
                           (py_range 0 (len wav) window_size)
                           (mkVad [] 0 None))).

(** The window a chop zeroes, from the region, the chop factor and the
    normal draw. *)
Definition chop_bounds (srate : Z) (r : region) (mean std randn : Q) : Z * Z :=
  let chop_dur := (mean + randn * std)%Q in
  let chop_s_dur := py_int (chop_dur * inject_Z srate)%Q in
  let chop_beg := Z.max (py_int (reg_center r - inject_Z chop_s_dur / 2)%Q) (reg_beg r) in
  let chop_end := Z.min (py_int (reg_center r + inject_Z chop_s_dur / 2)%Q)
                        (reg_beg r + reg_dur r) in
  (chop_beg, chop_end).

(** The body of [for chop_i in chop_idxs]. *)
Definition chop_region (self : Chopper) (chopped_wav : addr) (srate : Z)
           (speech_regions : list region) (chop_i : Z) : M unit :=
  match nth_error speech_regions (Z.to_nat chop_i) with
  | None => raise IndexError
  | Some r =>
      chop_factor_idx <- np_random_choice (seq 0 (length (chop_factors self))) ;;
      match nth_error (chop_factors self) chop_factor_idx with
      | None => raise IndexError
      | Some (mean, std) =>
          randn <- np_random_randn ;;
          let '(chop_beg, chop_end) := chop_bounds srate r mean std randn in
          buf <- heap_read chopped_wav ;;
          heap_write chopped_wav (py_slice_assign buf chop_beg chop_end 0)
      end
  end.

Fixpoint for_each {A : Type} (l : list A) (body : A -> M unit) : M unit :=
  match l with
  | [] => ret tt
  | a :: l' => _ <- body a ;; for_each l' body
  end.

(** The indexes of the regions to chop. *)
Definition chop_idxs_of (chops : Z) : M (list Z) :=
  if chops =? 1 then ret [0]
  else np_random_choice_noreplace (py_range 0 chops 1) (Z.to_nat chops).

(** [chop_wav] takes and returns references to arrays. *)
Definition chop_wav (self : Chopper) (wav : addr) (srate : Z)
           (speech_regions : list region) : M addr :=
  if len speech_regions =? 0 then ret wav
  else
    let num_chops := py_range 1 (max_chops self + 1) 1 in
    chops <- np_random_choice num_chops ;;
    let chops := Z.min chops (len speech_regions) in
    chop_idxs <- chop_idxs_of chops ;;
    src <- heap_read wav ;;
    chopped_wav <- heap_alloc src ;;
    _ <- for_each chop_idxs (chop_region self chopped_wav srate speech_regions) ;;
    ret chopped_wav.

(** The division of a float32 tensor by a scalar, on one entry: what the
    two scalers apply. *)
Variable tensor_div : Q -> Q -> Q.

Definition Chopper_call (self : Chopper) (wav : list Q) (srate : Z)
  : M (list Q * option (list region)) :=
  let wav := Scale_call tensor_div denormalizer_factor wav in
  wav <- heap_alloc (map astype_int16 wav) ;;
  samples <- heap_read wav ;;
  speech_regions <- lift (vad_wav samples srate) ;;
  out <- chop_wav self wav srate speech_regions ;;
  chopped <- heap_read out ;;
  let chopped := map inject_Z chopped in
  let chopped := Scale_call tensor_div normalizer_factor chopped in
  if ch_report self then ret (chopped, Some speech_regions)
  else ret (chopped, None).

End VadCapability.

(** ** Concrete worlds, classifiers and transforms used in the examples *)

(** A world with the given heap whose tapes are constant. *)
Definition constant_world (h : list (list Z)) (u randn : Q) : world :=
  mkWorld h (fun _ => u) 0 (fun _ => u) 0 (fun _ => randn) 0.

(** A transform that silences its input. *)
Definition mute : transform :=
  fun x => ret (match x with
                | Tensor xs => Tensor (map (fun _ => 0%Q) xs)
                | v => v
                end).

(** A classifier that calls a frame speech when its first sample is not 0. *)
Definition first_sample_vad : list Z -> Z -> bool :=
  fun frame _ => negb (hd 0 frame =? 0).

Definition always_speech : list Z -> Z -> bool := fun _ _ => true.

(** What [asl_P56] returns on an all-zero signal: the zero triple. *)
Definition silent_asl : list Q -> Z -> Z -> Q * Q * option Q :=
  fun _ _ _ => (0%Q, 0%Q, None).

(** Numeric capabilities for runs that never reach the scale factor. *)
Definition unreached : Q -> Q := fun x => x.

(** The pipeline of [PCompose] with the coin removed: every transform is
    applied, in list order (one outcome of the tape is still consumed
    before each). *)
Fixpoint apply_in_order (ts : list transform) (x : pyval) (reports : list pyval)
  : M (pyval * list pyval) :=
  match ts with
  | [] => ret (x, reports)
  | transf :: ts' =>
      _ <- random_random ;;
      x1 <- transf x ;;
      n <- lift (py_len x1) ;;
      if n =? 2 then
        ' (x2, report) <- lift (py_unpack2 x1) ;;
        apply_in_order ts' x2 (reports ++ [report])
      else apply_in_order ts' x1 reports
  end.

(** The world after [n] calls of [random.random()]. *)
Definition skip_random (n : nat) (w : world) : world :=
  mkWorld (heap w) (py_tape w) (n + py_pos w)
          (np_uniform w) (np_upos w) (np_normal w) (np_npos w).

(** What the two scalers and the int16 conversion of [Chopper.__call__]
    do to one sample. *)
Definition quantize (tensor_div : Q -> Q -> Q) (x : Q) : Q :=
  tensor_div (inject_Z (astype_int16 (tensor_div x denormalizer_factor)))
             normalizer_factor.

(** The maximal runs of speech windows in a sequence of labels, after
    the spec's words: (index of the first window, number of windows,
    whether a window that is not speech follows the run). [k] is the
    index of the first label. *)
Fixpoint speech_runs (labels : list bool) (k : nat) : list (nat * nat * bool) :=
  match labels with
  | [] => []
  | false :: t => speech_runs t (S k)
  | true :: t =>
      match t with
      | [] => [(k, 1%nat, false)]
      | false :: _ => (k, 1%nat, true) :: speech_runs t (S k)
      | true :: _ =>
          match speech_runs t (S k) with
          | (_, n, closed) :: rs => (k, S n, closed) :: rs
          | [] => []
          end
      end
  end.

(** The SpeechRegion of a run: begin = run start offset, duration =
    windowCount * windowSize, center = begin + duration / 2. *)
Definition region_of_run (r : nat * nat * bool) : region :=
  let '(k, n, _) := r in
  let i := 0 + window_size * Z.of_nat k in
  let c := Z.of_nat n in
  mkRegion i (inject_Z i + inject_Z (i + c * window_size - i) / 2)%Q (c * window_size).

Definition closed_runs (labels : list bool) : list (nat * nat * bool) :=
  filter (fun r => snd r) (speech_runs labels 0).

(** The start offsets of [n] windows from window [k] on, and the loop of
    [vad_wav] run on given labels. *)
Definition offsets (k n : nat) : list Z :=
  map (fun i => 0 + window_size * Z.of_nat i) (seq k n).

Definition scan (labels : list bool) (k : nat) (st : vad_state) : vad_state :=
  fold_left (fun s p => vad_update s (fst p) (snd p))
            (combine (offsets k (length labels)) labels) st.

(** ** SwitchCompose *)

(** [random.choice(pool)]: one outcome of the tape of [random] picks the
    index; an empty population raises IndexError. *)
Definition random_choice {A : Type} (pool : list A) : M A :=
  match pool with
  | [] => raise IndexError
  | d :: _ => u <- random_random ;; ret (nth (pick_index (length pool) u) pool d)
  end.

Record SwitchCompose : Type := mkSwitchCompose {
  sc_transforms : list transform;
  sc_report : bool
}.

(** What [__call__] does with the value the chosen transform returned:
    a value of length 2 is taken for a pair (x, report). *)
Definition SwitchCompose_result (self : SwitchCompose) (x : pyval) : M pyval :=
  let reports := [] in
  n <- lift (py_len x) ;;
  ' (x, reports) <- (if n =? 2 then
                       ' (x2, report) <- lift (py_unpack2 x) ;;
                       ret (x2, reports ++ [report])
                     else ret (x, reports)) ;;
  if sc_report self then ret (Tuple [x; Tuple reports]) else ret x.

Definition SwitchCompose_call (self : SwitchCompose) (tensor : pyval) : M pyval :=
  let x := tensor in
  let idxs := seq 0 (length (sc_transforms self)) in
  idx <- random_choice idxs ;;
  match nth_error (sc_transforms self) idx with
  | None => raise IndexError
  | Some transf =>
      x <- transf x ;;
      SwitchCompose_result self x
  end.

(** Runs listed in order, each of at least one window, within windows
    [lo, hi), separated by at least one window; a closed run ends before
    the last window. *)
Fixpoint runs_within (lo hi : nat) (rs : list (nat * nat * bool)) : Prop :=
  match rs with
  | [] => True
  | (i, n, closed) :: rs' =>
      (lo <= i)%nat /\ (1 <= n)%nat /\ (i + n <= hi)%nat /\
      (closed = true -> (i + n < hi)%nat) /\
      runs_within (i + n + 1) hi rs'
  end.

(** Regions listed in time order, not overlapping, each of positive
    duration, within samples [lo, hi). *)
Fixpoint regions_within (lo hi : Z) (rs : list region) : Prop :=
  match rs with
  | [] => True
  | r :: rs' =>
      lo <= reg_beg r /\ 0 < reg_dur r /\ reg_beg r + reg_dur r <= hi /\
      regions_within (reg_beg r + reg_dur r) hi rs'
  end.

(** ** Clipping *)

Record Clipping : Type := mkClipping {
  clip_factors : list Q;
  cl_report : bool
}.

Definition Clipping_call (self : Clipping) (wav : list Q) : M (list Q * option Q) :=
  cf <- np_random_choice (clip_factors self) ;;
  mn <- lift (np_min wav) ;;
  let clip := map (fun v => Qmax v (cf * mn)) wav in
  mx <- lift (np_max wav) ;;
  let clip := map (fun v => Qmin v (cf * mx)) clip in
  if cl_report self then ret (clip, Some cf) else ret (clip, None).

(** ** SingleChunkWav *)

Record SingleChunkWav : Type := mkSingleChunkWav {
  chunk_size : Z;
  scw_report : bool
}.

(** The three shapes of what [SingleChunkWav.__call__] returns: the one
    chunk, the list of chunks, or the list of chunks followed by the
    report {'beg_i', 'end_i'}. *)
Inductive chunk_result : Type :=
| OneChunk (chk : list Q)
| Chunks (rets : list (list Q))
| ChunksReport (rets : list (list Q)) (beg_i end_i : Z).

(** The body of the loop once [idx] is known: pad a short signal with
    zeros up to [chksz], then cut [w_[idx:idx + chksz]]. *)
Definition chunk_of (chksz idx : Z) (w_ : list Q) : list Q :=
  let w_ := if len w_ <? chksz
            then w_ ++ repeat 0%Q (Z.to_nat (chksz - len w_))
            else w_ in
  py_slice w_ idx (idx + chksz).

(** [__call__(self, *raw)] on at least one signal: [idx] is drawn for
    the first signal and used for all of them. *)
Definition SingleChunkWav_call (self : SingleChunkWav) (first : list Q)
           (others : list (list Q)) : M chunk_result :=
  let chksz := chunk_size self in
  let idxs := py_range 0 (len first - chksz) 1 in
  let idxs := if len idxs =? 0 then [0] else idxs in
  idx <- random_choice idxs ;;
  let rets := map (chunk_of chksz idx) (first :: others) in
  if (len rets =? 1) && negb (scw_report self) then ret (OneChunk (hd [] rets))
  else if (1 <? len rets) && negb (scw_report self) then ret (Chunks rets)
  else ret (ChunksReport rets idx (idx + chksz)).

Definition chunks_of (r : chunk_result) : list (list Q) :=
  match r with
  | OneChunk chk => [chk]
  | Chunks rets => rets
  | ChunksReport rets _ _ => rets
  end.

(** ** Reverb *)

Record Reverb : Type := mkReverb {
  IR : list Q;      (* the impulse response, as [load_IR] leaves it *)
  p_max : Z         (* the index of its peak *)
}.

(** [np.empty_like(xs)]: an array of the shape of [xs]; [shift] assigns
    every position of it. *)
Definition np_empty_like (xs : list Q) : list Q := map (fun _ => 0%Q) xs.

(** [l[b:e] = src] for an array [src]: the shapes must agree, or [src]
    hold one element, which is then broadcast. *)
Definition py_slice_assign_array {A : Type} (l : list A) (b e : Z) (src : list A)
  : result (list A) :=
  let b' := norm_index (len l) b in
  let e' := norm_index (len l) e in
  let n := Z.to_nat (e' - b') in
  if (length src =? n)%nat then
    Ok (firstn (Z.to_nat b') l ++ src ++ skipn (Z.to_nat (Z.max b' e')) l)
  else match src with
       | [v] => Ok (firstn (Z.to_nat b') l ++ repeat v n
                           ++ skipn (Z.to_nat (Z.max b' e')) l)
       | _ => Raise ValueError_Broadcast
       end.

(** [Reverb.shift(xs, n)] *)
Definition Reverb_shift (xs : list Q) (n : Z) : result (list Q) :=
  let e := np_empty_like xs in
  if 0 <=? n then
    let e := py_slice_assign e 0 n 0%Q in                       (* e[:n] = 0.0 *)
    py_slice_assign_array e n (len e) (py_slice xs 0 (- n))     (* e[n:] = xs[:-n] *)
  else
    let e := py_slice_assign e n (len e) 0%Q in                 (* e[n:] = 0.0 *)
    py_slice_assign_array e 0 n (py_slice xs (- n) (len xs)).   (* e[:n] = xs[-n:] *)

(** Sum of two sequences of coefficients, the shorter one padded. *)
Fixpoint seq_add (a b : list Q) : list Q :=
  match a, b with
  | [], _ => b
  | _, [] => a
  | x :: a', y :: b' => (x + y)%Q :: seq_add a' b'
  end.

(** Full linear convolution, which is what [fftconvolve(..., mode='full')]
    computes; an empty operand gives an empty result. *)
Fixpoint convolve (a b : list Q) : list Q :=
  match a with
  | [] => []
  | x :: a' =>
      match a' with
      | [] => map (Qmult x) b
      | _ => seq_add (map (Qmult x) b) (0%Q :: convolve a' b)
      end
  end.

Definition fftconvolve_full (a b : list Q) : list Q :=
  match b with
  | [] => []
  | _ => convolve a b
  end.

(** [Reverb.__call__]. A peak of zero makes numpy divide by zero (it
    warns and goes on with nan); here the quotient is 0. *)
Definition Reverb_call (self : Reverb) (wav : list Q) : result (list Q) :=
  match np_max (map Qabs wav) with
  | Raise e => Raise e
  | Ok peak =>
      let wav := map (fun v => v / peak)%Q wav in
      let rev := fftconvolve_full wav (IR self) in
      match np_max (map Qabs rev) with
      | Raise e => Raise e
      | Ok rpeak =>
          let rev := map (fun v => v / rpeak)%Q rev in
          match Reverb_shift rev (- p_max self) with
          | Raise e => Raise e
          | Ok rev => Ok (py_slice rev 0 (len wav))
          end
      end
  end.

(** ** Additive.asl_P56: the active speech level, ITU P.56 method B *)

(** What [asl_P56] does: it returns the triple (asl_ms, asl, c0), or
    raises. *)
Inductive asl_result : Type :=
| AslOk (asl_ms asl : Q) (c0 : option Q)
| AslZeroDivisionError                  (* -1 / (srate * T) with srate = 0 *)
| AslRaise (e : pyerr).

Definition asl_T : Q := 3 # 100.        (* time constant of smoothing, seconds *)
Definition asl_H : Q := 1 # 5.          (* hangover time, seconds *)
Definition asl_M : Q := 159 # 10.       (* margin, dB *)
Definition Additive_eps : Q := 1 # 10000000000000000000000.   (* self.eps = 1e-22 *)

(** [lfilter(np.ones(1) - g, np.array([1, -g]), x)]: the one-pole filter
    y[n] = (1 - g) x[n] + g y[n-1], started at rest. [prev] is y[n-1]. *)
Fixpoint lfilter_pole (g prev : Q) (x : list Q) : list Q :=
  match x with
  | [] => []
  | v :: t => let y := ((1 - g) * v + g * prev)%Q in y :: lfilter_pole g y t
  end.

(** The loop over the thresholds for one sample [qk] of the envelope:
    [c], [a] and [hang] are walked together from j = 0; [break] leaves
    the counters above j as they are. *)
Fixpoint asl_thresholds (qk I : Q) (c a hang : list Q) : list Q * list Q :=
  match c, a, hang with
  | cj :: c', aj :: a', hj :: hang' =>
      if Qle_bool cj qk then
        let '(a'', hang'') := asl_thresholds qk I c' a' hang' in
        ((aj + 1)%Q :: a'', 0%Q :: hang'')
      else if Qlt_bool hj I then
        let '(a'', hang'') := asl_thresholds qk I c' a' hang' in
        ((aj + 1)%Q :: a'', (hj + 1)%Q :: hang'')
      else (a, hang)
  | _, _, _ => (a, hang)
  end.

(** The loop over the samples [q[k]]: the activity and hangover counters
    after the last one. *)
Definition asl_activity (q : list Q) (I : Q) (c a hang : list Q) : list Q * list Q :=
  fold_left (fun s qk => asl_thresholds qk I c (fst s) (snd s)) q (a, hang).

(** An array of counters that never go up with the threshold index. *)
Fixpoint nonincreasing (l : list Q) : Prop :=
  match l with
  | [] => True
  | x :: t => match t with
              | [] => True
              | y :: _ => (y <= x)%Q
              end /\ nonincreasing t
  end.

Section LevelCapabilities.

(** [np.exp], [np.log10] and [10 ** e]. [fuel] bounds the passes of
    [bin_interp]. *)
Variable np_exp : Q -> Q.
Variable np_log10 : Q -> Q.
Variable pow10 : Q -> Q.
Variable fuel : nat.

(** The loop over j = 1, 2, ... that looks for the first threshold whose
    margin is at most M and interpolates there. [a], [AdB] and [CdB]
    start at index j; [AdB_prev] and [CdB_prev] are the entries j - 1. *)
Fixpoint asl_interpolate (sq : Q) (x_len : Z) (a AdB CdB : list Q)
         (AdB_prev CdB_prev : Q) : asl_result :=
  match a, AdB, CdB with
  | aj :: a', AdBj :: AdB', CdBj :: CdB' =>
      if negb (Qeq_bool aj 0) && Qle_bool (AdBj - CdBj) asl_M then
        match bin_interp fuel AdBj AdB_prev CdBj CdB_prev asl_M (1 # 2) with
        | Raise e => AslRaise e
        | Ok (asl_ms_log, cl0) =>
            let asl_ms := pow10 (asl_ms_log / 10) in
            let asl := (sq / inject_Z x_len / asl_ms)%Q in
            AslOk asl_ms asl (Some (pow10 (cl0 / 20)))
        end
      else asl_interpolate sq x_len a' AdB' CdB' AdBj CdBj
  | _, _, _ => AslOk 0 0 None
  end.

Definition Additive_asl_P56 (x : list Q) (srate nbits : Z) : asl_result :=
  let thres_no := nbits - 1 in
  let I := inject_Z (Qceiling (inject_Z srate * asl_H)) in
  if srate =? 0 then AslZeroDivisionError
  else
    let g := np_exp (- (1) / (inject_Z srate * asl_T))%Q in
    let c := map (fun j => Qpower 2 j) (py_range (-15) ((thres_no + 1) - 16) 1) in
    let a := map (fun _ => 0%Q) c in
    let hang := map (fun _ => (1 * I)%Q) c in
    let sq := dot x x in
    let x_len := len x in
    let x_abs := map Qabs x in
    let p := lfilter_pole g 0 x_abs in
    let q := lfilter_pole g 0 p in
    let '(a, hang) := asl_activity q I c a hang in
    match a, c with
    | a0 :: a', c0 :: c' =>
        if Qeq_bool a0 0 then AslOk 0 0 None
        else
          let AdB1 := (10 * np_log10 (sq / a0 + Additive_eps))%Q in
          let CdB1 := (20 * np_log10 (c0 + Additive_eps))%Q in
          if Qlt_bool (AdB1 - CdB1) asl_M then AslOk 0 0 None
          else
            let AdB := map (fun aj => 10 * np_log10 (sq / (aj + Additive_eps)
                                                     + Additive_eps))%Q a' in
            let CdB := map (fun cj => 20 * np_log10 (cj + Additive_eps))%Q c' in
            asl_interpolate sq x_len a' AdB CdB AdB1 CdB1
    | _, _ => AslRaise IndexError                 (* a[0] on an empty array *)
    end.

End LevelCapabilities.

(** [asl_P56] returns on [x]: the estimator, as modelled above, gives a
    triple, and that triple is what the capability [asl_P56] of
    [addnoise_asl] stands for. (It raises for [srate = 0] and for
    [nbits <= 1].) *)
Definition asl_P56_returns (np_exp np_log10 pow10 : Q -> Q) (fuel : nat)
           (asl_P56 : list Q -> Z -> Z -> Q * Q * option Q)
           (x : list Q) (srate nbits : Z) : Prop :=
  exists asl_ms asl c0,
    Additive_asl_P56 np_exp np_log10 pow10 fuel x srate nbits = AslOk asl_ms asl c0 /\
    asl_P56 x srate nbits = (asl_ms, asl, c0).

(** ** Additive.__call__: the loop against clipping, with inf and nan *)

(** A float64 sample: a finite value, an infinity, or nan. *)
Inductive float64 : Type :=
| Finite (q : Q)
| PosInf
| NegInf
| NaN.

(** The maximum and the minimum of two samples, as [np.max] and [np.min]
    combine them: nan wins. *)
Definition float_max (a b : float64) : float64 :=
  match a, b with
  | NaN, _ | _, NaN => NaN
  | PosInf, _ | _, PosInf => PosInf
  | NegInf, v | v, NegInf => v
  | Finite p, Finite q => Finite (Qmax p q)
  end.

Definition float_min (a b : float64) : float64 :=
  match a, b with
  | NaN, _ | _, NaN => NaN
  | NegInf, _ | _, NegInf => NegInf
  | PosInf, v | v, PosInf => v
  | Finite p, Finite q => Finite (Qmin p q)
  end.

Definition np_max_float (a : list float64) : result float64 :=
  match a with
  | [] => Raise ValueError_EmptyReduction
  | x :: t => Ok (fold_left float_max t x)
  end.

Definition np_min_float (a : list float64) : result float64 :=
  match a with
  | [] => Raise ValueError_EmptyReduction
  | x :: t => Ok (fold_left float_min t x)
  end.

(** [v >= 1] and [v < -1]: every comparison with nan is false. *)
Definition float_ge_1 (v : float64) : bool :=
  match v with
  | Finite q => Qle_bool 1 q
  | PosInf => true
  | NegInf | NaN => false
  end.

Definition float_lt_m1 (v : float64) : bool :=
  match v with
  | Finite q => Qlt_bool q (- (1))
  | NegInf => true
  | PosInf | NaN => false
  end.

(** [v / d] for a finite [d > 0]: the special values stay. *)
Definition float_div (d : Q) (v : float64) : float64 :=
  match v with
  | Finite q => Finite (q / d)
  | PosInf => PosInf
  | NegInf => NegInf
  | NaN => NaN
  end.

(** [np.max(noisy) >= 1 or np.min(noisy) < -1] *)
Definition clips_float (noisy : list float64) : result bool :=
  match np_max_float noisy with
  | Raise e => Raise e
  | Ok mx =>
      if float_ge_1 mx then Ok true
      else match np_min_float noisy with
           | Raise e => Raise e
           | Ok mn => Ok (float_lt_m1 mn)
           end
  end.

Fixpoint declip_loop_float (fuel : nat) (noisy : list float64) (small : Q)
  : result (list float64 * Q) :=
  match fuel with
  | O => Raise OutOfFuel
  | S fuel' =>
      match clips_float noisy with
      | Raise e => Raise e
      | Ok false => Ok (noisy, small)
      | Ok true =>
          declip_loop_float fuel' (map (float_div (1 + small)) noisy) (small + (1 # 10))%Q
      end
  end.

Definition declip_float (fuel : nat) (noisy : list float64) : result (list float64) :=
  match clips_float noisy with
  | Raise e => Raise e
  | Ok false => Ok noisy
  | Ok true =>
      let small := (1 # 10)%Q in
      match declip_loop_float fuel noisy small with
      | Ok (noisy', _) => Ok noisy'
      | Raise e => Raise e
      end
  end.

(** * Properties *)

(** ** PCompose *)

Lemma Qle_bool_false (a b : Q) : Qle_bool a b = false <-> (b < a)%Q.
Proof.
  split; intros H.
  - apply Qnot_le_lt. intros Hle. apply Qle_bool_iff in Hle. congruence.
  - destruct (Qle_bool a b) eqn:E; [|reflexivity].
    apply Qle_bool_iff in E. exfalso. apply (Qlt_not_le _ _ H E).
Qed.

Lemma Qlt_bool_iff (a b : Q) : Qlt_bool a b = true <-> (a < b)%Q.
Proof.
  unfold Qlt_bool. rewrite negb_true_iff. apply Qle_bool_false.
Qed.

Lemma Qlt_bool_false (a b : Q) : Qlt_bool a b = false <-> (b <= a)%Q.
Proof.
  unfold Qlt_bool. rewrite negb_false_iff. apply Qle_bool_iff.
Qed.

Lemma bind_Ok {A B : Type} (m : M A) (k : A -> M B) (w w' : world) (a : A) :
  m w = Ok (a, w') -> bind m k w = k a w'.
Proof. intros H. unfold bind. now rewrite H. Qed.

Lemma bind_Raise {A B : Type} (m : M A) (k : A -> M B) (w : world) (e : pyerr) :
  m w = Raise e -> bind m k w = Raise e.
Proof. intros H. unfold bind. now rewrite H. Qed.

Lemma lift_Ok {A : Type} (r : result A) (a : A) (w : world) :
  r = Ok a -> lift r w = Ok (a, w).
Proof. intros ->. reflexivity. Qed.

Lemma lift_Raise {A : Type} (r : result A) (e : pyerr) (w : world) :
  r = Raise e -> lift r w = Raise e.
Proof. intros ->. reflexivity. Qed.

(** With [probs = 1] every outcome of [random.random()] passes the test,
    so the loop is the pipeline that applies every transform in list
    order: for transforms that leave the tape of [random] alone. *)
Lemma PCompose_p1_applies_all (ts : list transform) :
  (forall t x w r w', In t ts -> t x w = Ok (r, w') ->
                      py_tape w' = py_tape w) ->
  forall x reports w,
    (forall n, py_tape w n < 1)%Q ->
    PCompose_loop ts 1 x reports w = apply_in_order ts x reports w.
Proof.
  induction ts as [|t ts IH]; intros Hkeep x reports w Hw; [reflexivity|].
  assert (Hkeep' : forall t' x' w' r' w'', In t' ts -> t' x' w' = Ok (r', w'') ->
                                           py_tape w'' = py_tape w').
  { intros t' x' w' r' w'' Hin. apply Hkeep. now right. }
  assert (Hu : Qle_bool (py_tape w (py_pos w)) 1 = true).
  { apply Qle_bool_iff. apply Qlt_le_weak. apply Hw. }
  simpl PCompose_loop. simpl apply_in_order.
  rewrite !(bind_Ok random_random _ w _ _ eq_refl). cbv beta. rewrite Hu.
  destruct (t x (skip_random 1 w)) as [[x1 w1]|e] eqn:Et; unfold skip_random in Et;
    simpl in Et.
  2:{ now rewrite !(bind_Raise _ _ _ _ Et). }
  rewrite !(bind_Ok _ _ _ _ _ Et). cbv beta.
  assert (Hw1 : forall n, (py_tape w1 n < 1)%Q).
  { intros n. rewrite (Hkeep _ _ _ _ _ (or_introl eq_refl) Et). simpl. apply Hw. }
  destruct (py_len x1) as [n|e]; cbv [bind lift]; [|reflexivity].
  destruct (n =? 2); [|now apply IH].
  destruct (py_unpack2 x1) as [[x2 rep]|e]; [now apply IH|reflexivity].
Qed.

(** With [probs = 0] and every outcome strictly positive no transform
    runs: the input comes back, with no report. *)
Lemma PCompose_p0_positive_draws (ts : list transform) :
  forall x reports w,
    (forall n, 0 < py_tape w n)%Q ->
    PCompose_loop ts 0 x reports w = Ok ((x, reports), skip_random (length ts) w).
Proof.
  induction ts as [|t ts IH]; intros x reports w Hw.
  - destruct w; reflexivity.
  - assert (Hu : Qle_bool (py_tape w (py_pos w)) 0 = false).
    { apply Qle_bool_false. apply Hw. }
    simpl PCompose_loop. rewrite (bind_Ok random_random _ w _ _ eq_refl).
    cbv beta. rewrite Hu. rewrite IH by (simpl; apply Hw).
    unfold skip_random. simpl. now rewrite Nat.add_succ_r.
Qed.

(** C6. [random.random()] ranges over [0,1) and the test is
    [random.random() <= self.probs]: with [probs = 0] and an outcome of
    exactly 0.0 the transform is applied, and the input is not returned
    unchanged. *)
Theorem PCompose_p0_zero_draw_applies :
  exists w',
    PCompose_call (mkPCompose [mute] 0 false) (Tensor [1%Q]) (constant_world [] 0 0)
    = Ok (Tensor [0%Q], w')
    /\ Tensor [0%Q] <> Tensor [1%Q]
    /\ valid_tapes (constant_world [] 0 0).
Proof.
  eexists. split; [reflexivity|]. split; [discriminate|].
  split; intros n; simpl; split; reflexivity || discriminate.
Qed.

(** ** Additive.bin_interp *)

(** A pass that has not converged and finds [diff > tol] moves the count
    midpoint to the average of the upper count and the midpoint, and the
    threshold midpoint likewise. *)
Lemma bin_iter_upper_branch (upcount lwcount upthr lwthr Margin : Q) (s : bin_state) :
  let diff := (midcount s - midthr s - Margin)%Q in
  let iterno' := iterno s + 1 in
  let tol' := if 20 <? iterno' then (tol s * (11 # 10))%Q else tol s in
  (tol s < Qabs diff)%Q -> (tol' < diff)%Q ->
  bin_iter upcount lwcount upthr lwthr Margin s
  = inl (mkBin ((upcount + midcount s) / 2)%Q ((upthr + midthr s) / 2)%Q iterno' tol').
Proof.
  intros diff iterno' tol' Hn Hd. unfold bin_iter. fold diff iterno' tol'.
  apply Qle_bool_false in Hn. rewrite Hn.
  apply Qlt_bool_iff in Hd. now rewrite Hd.
Qed.

(** A pass that has not converged and finds [diff < -tol] moves the count
    midpoint to half the difference of the midpoint and the lower count;
    the threshold midpoint goes to the average. *)
Lemma bin_iter_lower_branch (upcount lwcount upthr lwthr Margin : Q) (s : bin_state) :
  let diff := (midcount s - midthr s - Margin)%Q in
  let iterno' := iterno s + 1 in
  let tol' := if 20 <? iterno' then (tol s * (11 # 10))%Q else tol s in
  (tol s < Qabs diff)%Q -> (diff <= tol')%Q -> (diff < - tol')%Q ->
  bin_iter upcount lwcount upthr lwthr Margin s
  = inl (mkBin ((midcount s - lwcount) / 2)%Q ((midthr s + lwthr) / 2)%Q iterno' tol').
Proof.
  intros diff iterno' tol' Hn Hu Hd. unfold bin_iter. fold diff iterno' tol'.
  apply Qle_bool_false in Hn. rewrite Hn.
  apply Qlt_bool_false in Hu. rewrite Hu.
  apply Qlt_bool_iff in Hd. now rewrite Hd.
Qed.

(** C4. Bracket (lwcount, upcount) = (-21, -20), (lwthr, upthr) =
    (-36, -30), margin 15.9, tolerance 0.5. The first pass has
    diff = -3.4 < -tol and sets the count midpoint to
    (midcount - lwcount) / 2 = 0.25, not to the average -20.75 of the
    midpoint and the lower count, while the threshold midpoint does go
    to the average; the value returned, -14.9375, is outside the
    bracket. *)
Theorem bin_interp_lower_branch_not_average :
  let s := mkBin (- (41 # 2)) (- (33 # 1)) 1 (1 # 2) in
  (midcount s - midthr s - (159 # 10) < - tol s)%Q /\
  (exists s',
      bin_iter (- (20 # 1)) (- (21 # 1)) (- (30 # 1)) (- (36 # 1)) (159 # 10) s = inl s' /\
      (midcount s' == 1 # 4)%Q /\
      (midcount s' == (midcount s - - (21 # 1)) / 2)%Q /\
      ~ (midcount s' == (midcount s + - (21 # 1)) / 2)%Q /\
      (midthr s' == (midthr s + - (36 # 1)) / 2)%Q) /\
  (exists r,
      bin_interp 100 (- (20 # 1)) (- (21 # 1)) (- (30 # 1)) (- (36 # 1)) (159 # 10) (1 # 2)
      = Ok r /\
      (fst r == - (239 # 16))%Q /\ ~ (fst r <= - (20 # 1))%Q).
Proof.
  split; [reflexivity|]. split.
  - eexists. split; [reflexivity|].
    repeat split; try reflexivity.
    intros H. vm_compute in H. discriminate.
  - eexists. split; [vm_compute; reflexivity|].
    split; [reflexivity|]. intros H. vm_compute in H. now apply H.
Qed.

(** ** Additive.addnoise_asl: the noise segment *)

Lemma Qfloor_bounds (q : Q) : (inject_Z (Qfloor q) <= q /\ q < inject_Z (Qfloor q) + 1)%Q.
Proof.
  split; [apply Qfloor_le|].
  pose proof (Qlt_floor q) as H. rewrite inject_Z_plus in H. exact H.
Qed.

(** [np.round] moves its argument by at most one half. *)
Lemma np_round_bounds (q : Q) :
  (inject_Z (np_round q) - (1 # 2) <= q /\ q <= inject_Z (np_round q) + (1 # 2))%Q.
Proof.
  unfold np_round; cbv zeta. destruct (Qfloor_bounds q) as [Hlo Hhi].
  destruct (Qlt_bool (q - inject_Z (Qfloor q)) (1 # 2)) eqn:E1.
  - apply Qlt_bool_iff in E1. split; Lqa.lra.
  - apply Qlt_bool_false in E1.
    assert (Hup : (inject_Z (Qfloor q + 1) == inject_Z (Qfloor q) + 1)%Q)
      by (rewrite inject_Z_plus; reflexivity).
    destruct (Qlt_bool (1 # 2) (q - inject_Z (Qfloor q))) eqn:E2.
    + rewrite Hup. split; Lqa.lra.
    + apply Qlt_bool_false in E2. destruct (Z.even (Qfloor q)).
      * split; Lqa.lra.
      * rewrite Hup. split; Lqa.lra.
Qed.

(** The start of the noise segment lies in 1 .. noise_len - x_len + 1:
    index 0 is never drawn and the last value leaves fewer than [x_len]
    samples. *)
Lemma rand_start_range (noise_len x_len : Z) (u : Q) :
  x_len < noise_len -> (0 <= u)%Q -> (u < 1)%Q ->
  1 <= rand_start_of noise_len x_len u <= noise_len - x_len + 1.
Proof.
  intros Hlen Hu0 Hu1. unfold rand_start_of.
  set (n := noise_len - x_len + 1 - 1).
  set (q := (inject_Z n * u + 1)%Q).
  destruct (np_round_bounds q) as [Hlo Hhi].
  assert (Hn : (0 < inject_Z n)%Q).
  { change 0%Q with (inject_Z 0). rewrite <- Zlt_Qlt. unfold n. lia. }
  assert (Hq1 : (1 <= q)%Q).
  { unfold q. assert (0 <= inject_Z n * u)%Q by (apply Qmult_le_0_compat; Lqa.lra). Lqa.lra. }
  assert (Hq2 : (q < inject_Z n + 1)%Q).
  { unfold q. assert (inject_Z n * u < inject_Z n * 1)%Q
      by (apply Qmult_lt_l; assumption). Lqa.lra. }
  split.
  - assert (H : (inject_Z 0 < inject_Z (np_round q))%Q)
      by (change (inject_Z 0) with 0%Q; Lqa.lra).
    rewrite <- Zlt_Qlt in H. lia.
  - assert (H : (inject_Z (np_round q) < inject_Z (n + 2))%Q).
    { rewrite inject_Z_plus. change (inject_Z 2) with 2%Q. Lqa.lra. }
    rewrite <- Zlt_Qlt in H. unfold n in H. lia.
Qed.

(** C5. Clean buffer of 3 samples, noise of 4, uniform outcome 0.9: the
    start is round(1 * 0.9 + 1) = 2, the slice noise[2:5] holds 2
    samples, not 3, and the sum with the clean buffer cannot be
    broadcast. With a clean buffer of 1 sample and a noise of 2 the
    slice is empty and so is the buffer returned. *)
Theorem addnoise_asl_segment_too_short :
  forall (asl_P56 : list Q -> Z -> Z -> Q * Q * option Q) (np_sqrt pow10 : Q -> Q),
    let w := constant_world [] (9 # 10) 0 in
    valid_tapes w /\
    rand_start_of 4 3 (9 # 10) = 2 /\
    length (py_slice [1; 2; 3; 4]%Q 2 (2 + 3)) = 2%nat /\
    addnoise_asl asl_P56 np_sqrt pow10 [0; 0; 0]%Q [1; 2; 3; 4]%Q 16000 16 0 false w
    = Raise ValueError_Broadcast /\
    exists w',
      addnoise_asl asl_P56 np_sqrt pow10 [0]%Q [1; 2]%Q 16000 16 0 false w
      = Ok (([], (2, 3)), w').
Proof.
  intros asl_P56 np_sqrt pow10 w.
  split.
  { split; intros n; simpl; split; reflexivity || discriminate. }
  split; [reflexivity|]. split; [reflexivity|]. split.
  - unfold addnoise_asl. cbv [bind lift].
    destruct (asl_P56 _ _ _) as [[Px asl] c0]. reflexivity.
  - unfold addnoise_asl. cbv [bind lift].
    destruct (asl_P56 _ _ _) as [[Px asl] c0]. eexists. reflexivity.
Qed.

(** ** Additive.__call__: the loop that avoids clipping *)

Lemma fold_left_Qmax_upper (t : list Q) (x : Q) :
  (x <= fold_left Qmax t x)%Q /\ Forall (fun v => v <= fold_left Qmax t x)%Q t.
Proof.
  revert x. induction t as [|y t IH]; intros x; simpl.
  - split; [Lqa.lra|constructor].
  - destruct (IH (Qmax x y)) as [H1 H2].
    pose proof (Q.le_max_l x y). pose proof (Q.le_max_r x y).
    split; [|constructor; [|exact H2]]; Lqa.lra.
Qed.

Lemma fold_left_Qmax_lt (t : list Q) (x b : Q) :
  (x < b)%Q -> Forall (fun v => v < b)%Q t -> (fold_left Qmax t x < b)%Q.
Proof.
  revert x. induction t as [|y t IH]; intros x Hx Ht; simpl; [exact Hx|].
  inversion Ht; subst. apply IH; [|assumption].
  destruct (Q.max_spec x y) as [[_ E]|[_ E]]; rewrite E; assumption.
Qed.

Lemma fold_left_Qmin_ge (t : list Q) (x b : Q) :
  (b <= x)%Q -> Forall (fun v => b <= v)%Q t -> (b <= fold_left Qmin t x)%Q.
Proof.
  revert x. induction t as [|y t IH]; intros x Hx Ht; simpl; [exact Hx|].
  inversion Ht; subst. apply IH; [|assumption].
  destruct (Q.min_spec x y) as [[_ E]|[_ E]]; rewrite E; assumption.
Qed.

Lemma fold_left_Qmin_lower (t : list Q) (x : Q) :
  (fold_left Qmin t x <= x)%Q /\ Forall (fun v => fold_left Qmin t x <= v)%Q t.
Proof.
  revert x. induction t as [|y t IH]; intros x; simpl.
  - split; [Lqa.lra|constructor].
  - destruct (IH (Qmin x y)) as [H1 H2].
    pose proof (Q.le_min_l x y). pose proof (Q.le_min_r x y).
    split; [|constructor; [|exact H2]]; Lqa.lra.
Qed.

Lemma np_max_upper (l : list Q) (m : Q) :
  np_max l = Ok m -> Forall (fun v => v <= m)%Q l.
Proof.
  destruct l as [|x t]; [discriminate|]. simpl. intros [= <-].
  destruct (fold_left_Qmax_upper t x). now constructor.
Qed.

Lemma np_min_lower (l : list Q) (m : Q) :
  np_min l = Ok m -> Forall (fun v => m <= v)%Q l.
Proof.
  destruct l as [|x t]; [discriminate|]. simpl. intros [= <-].
  destruct (fold_left_Qmin_lower t x). now constructor.
Qed.

(** The loop test is false exactly on a non-empty buffer within [-1, 1). *)
Lemma clips_false_iff (noisy : list Q) :
  clips noisy = Ok false <->
  noisy <> [] /\ Forall (fun v => - (1 # 1) <= v /\ v < 1)%Q noisy.
Proof.
  unfold clips. destruct noisy as [|x t].
  - simpl. split; [discriminate|]. intros [H _]. now contradiction H.
  - remember (x :: t) as l eqn:El.
    assert (Hmax : np_max l = Ok (fold_left Qmax t x)) by (subst; reflexivity).
    assert (Hmin : np_min l = Ok (fold_left Qmin t x)) by (subst; reflexivity).
    rewrite Hmax, Hmin.
    pose proof (np_max_upper _ _ Hmax) as Hu.
    pose proof (np_min_lower _ _ Hmin) as Hl.
    destruct (Qle_bool 1 (fold_left Qmax t x)) eqn:E1.
    + split; [discriminate|]. intros [_ HF]. exfalso.
      apply Qle_bool_iff in E1.
      assert (fold_left Qmax t x < 1)%Q.
      { subst l. inversion HF; subst.
        apply fold_left_Qmax_lt; [tauto|].
        eapply Forall_impl; [|eassumption]. simpl. tauto. }
      Lqa.lra.
    + apply Qle_bool_false in E1. split.
      * intros [= E2]. apply Qlt_bool_false in E2.
        split; [subst; discriminate|].
        rewrite Forall_forall in *. intros v Hv.
        specialize (Hu v Hv). specialize (Hl v Hv). simpl in *. split; Lqa.lra.
      * intros [_ HF]. f_equal. apply Qlt_bool_false.
        subst l. inversion HF; subst.
        apply fold_left_Qmin_ge; [tauto|].
        eapply Forall_impl; [|eassumption]. simpl. tauto.
Qed.

(** Whatever the loop returns is within [-1, 1). *)
Lemma declip_loop_in_range (fuel : nat) :
  forall noisy small out small',
    declip_loop fuel noisy small = Ok (out, small') ->
    Forall (fun v => - (1 # 1) <= v /\ v < 1)%Q out.
Proof.
  induction fuel as [|fuel IH]; intros noisy small out small'; simpl; [discriminate|].
  destruct (clips noisy) as [[|]|e] eqn:E; [apply IH| |discriminate].
  intros [= <- _]. now apply clips_false_iff in E.
Qed.

(** The loop never raises the noise-length error. *)
Lemma declip_loop_raises (fuel : nat) :
  forall noisy small e,
    declip_loop fuel noisy small = Raise e ->
    e = ValueError_EmptyReduction \/ e = OutOfFuel.
Proof.
  induction fuel as [|fuel IH]; intros noisy small e; simpl.
  - intros [= <-]. now right.
  - destruct (clips noisy) as [[|]|e'] eqn:E; [apply IH|discriminate|].
    intros [= <-]. left. unfold clips in E.
    destruct noisy as [|x t]; [simpl in E; congruence|].
    simpl in E. destruct (Qle_bool 1 _); discriminate.
Qed.

Lemma declip_raises (fuel : nat) (noisy : list Q) (e : pyerr) :
  declip fuel noisy = Raise e -> e = ValueError_EmptyReduction \/ e = OutOfFuel.
Proof.
  unfold declip. destruct (clips noisy) as [[|]|e'] eqn:E.
  - destruct (declip_loop fuel noisy (1 # 10)) as [[out s]|e'] eqn:El; [discriminate|].
    intros [= <-]. eapply declip_loop_raises; eassumption.
  - discriminate.
  - intros [= <-]. left. unfold clips in E.
    destruct noisy as [|x t]; [simpl in E; congruence|].
    simpl in E. destruct (Qle_bool 1 _); discriminate.
Qed.

(** C7, as amended. A buffer whose maximum is 1.05 and whose samples are
    all at least -1.1 is divided once, by 1 + 0.1: the loop stops with
    [small] at 0.1 + 0.1 and every sample within [-1, 1). *)
Theorem declip_one_pass (noisy : list Q) (mx : Q) (fuel : nat) :
  np_max noisy = Ok mx -> (mx == 105 # 100)%Q ->
  Forall (fun v => - (11 # 10) <= v)%Q noisy ->
  (2 <= fuel)%nat ->
  let out := map (fun v => v / (1 + (1 # 10)))%Q noisy in
  declip_loop fuel noisy (1 # 10) = Ok (out, (1 # 10) + (1 # 10))%Q /\
  declip fuel noisy = Ok out /\
  Forall (fun v => - (1 # 1) <= v /\ v < 1)%Q out.
Proof.
  intros Hmax Hmx Hlow Hfuel out.
  assert (Hclip : clips noisy = Ok true).
  { unfold clips. rewrite Hmax.
    assert (E : Qle_bool 1 mx = true) by (apply Qle_bool_iff; Lqa.lra).
    now rewrite E. }
  assert (Hne : noisy <> []) by (intros ->; discriminate).
  assert (Hout : Forall (fun v => - (1 # 1) <= v /\ v < 1)%Q out).
  { unfold out. apply Forall_map. pose proof (np_max_upper _ _ Hmax) as Hu.
    rewrite Forall_forall in *. intros v Hv.
    specialize (Hu v Hv). specialize (Hlow v Hv). simpl in *.
    assert (Hc : (0 < 1 + (1 # 10))%Q) by reflexivity.
    split.
    - apply Qle_shift_div_l; [exact Hc|]. Lqa.lra.
    - apply Qlt_shift_div_r; [exact Hc|]. Lqa.lra. }
  assert (Hstop : clips out = Ok false).
  { apply clips_false_iff. split; [|exact Hout].
    unfold out. destruct noisy; [now contradiction Hne|discriminate]. }
  assert (Hloop : declip_loop fuel noisy (1 # 10) = Ok (out, (1 # 10) + (1 # 10))%Q).
  { destruct fuel as [|[|fuel]]; try lia.
    cbn [declip_loop]. rewrite Hclip. fold out. now rewrite Hstop. }
  split; [exact Hloop|]. split; [|exact Hout].
  unfold declip. now rewrite Hclip, Hloop.
Qed.

Lemma declip_one_pass_witness :
  let noisy := [105 # 100; - (1 # 2)]%Q in
  np_max noisy = Ok (105 # 100) /\
  (let out := map (fun v => v / (1 + (1 # 10)))%Q noisy in
   declip_loop 2 noisy (1 # 10) = Ok (out, (1 # 10) + (1 # 10))%Q /\
   declip 2 noisy = Ok out /\
   Forall (fun v => - (1 # 1) <= v /\ v < 1)%Q out).
Proof.
  split; [reflexivity|].
  apply (declip_one_pass [105 # 100; - (1 # 2)]%Q (105 # 100) 2).
  - reflexivity.
  - reflexivity.
  - repeat constructor; discriminate.
  - lia.
Defined.

(** C7, as stated, fails: the maximum of [1.05, -3] is exactly 1.05, the
    buffer still clips after the first division, and the loop stops
    after five passes, with [small] at 0.6. *)
Lemma declip_max_105_takes_five_passes :
  let noisy := [105 # 100; - (3 # 1)]%Q in
  np_max noisy = Ok (105 # 100) /\
  clips (map (fun v => v / (1 + (1 # 10)))%Q noisy) = Ok true /\
  exists out small,
    declip_loop 10 noisy (1 # 10) = Ok (out, small) /\
    (small == 6 # 10)%Q /\ ~ (small == (1 # 10) + (1 # 10))%Q.
Proof.
  split; [reflexivity|]. split; [reflexivity|].
  eexists. eexists. split; [vm_compute; reflexivity|].
  split; [reflexivity|]. intros H. vm_compute in H. discriminate.
Qed.

(** ** The loop that avoids clipping always stops *)

Lemma Qabs_div_pos (v c : Q) : (0 < c)%Q -> (Qabs (v / c) == Qabs v / c)%Q.
Proof.
  intros Hc. unfold Qdiv. rewrite Qabs_Qmult.
  rewrite (Qabs_pos (/ c)); [reflexivity|].
  apply Qlt_le_weak. now apply Qinv_lt_0_compat.
Qed.

(** A buffer bounded by (11/10)^n is back within range after at most [n]
    passes. *)
Lemma declip_loop_bounded (n : nat) :
  forall (noisy : list Q) (small : Q) (fuel : nat),
    noisy <> [] -> (1 # 10 <= small)%Q ->
    Forall (fun v => Qabs v < (11 # 10) ^ Z.of_nat n)%Q noisy ->
    (n < fuel)%nat ->
    exists out small',
      declip_loop fuel noisy small = Ok (out, small') /\
      Forall (fun v => - (1 # 1) <= v /\ v < 1)%Q out.
Proof.
  induction n as [|n IH]; intros noisy small fuel Hne Hs Hb Hfuel;
    (destruct fuel as [|fuel]; [lia|]); cbn [declip_loop].
  - assert (Hc : clips noisy = Ok false).
    { apply clips_false_iff. split; [exact Hne|].
      eapply Forall_impl; [|exact Hb]. intros v Hv. simpl in Hv.
      change ((11 # 10) ^ 0)%Q with 1%Q in Hv.
      apply Qabs_Qlt_condition in Hv. split; [apply Qlt_le_weak|]; tauto. }
    rewrite Hc. exists noisy, small. split; [reflexivity|].
    now apply clips_false_iff in Hc.
  - destruct (clips noisy) as [[|]|e] eqn:Hc.
    + apply IH; [destruct noisy; [congruence|discriminate]|Lqa.lra| |lia].
      apply Forall_map. eapply Forall_impl; [|exact Hb]. intros v Hv. simpl in Hv.
      assert (Hd : (0 < 1 + small)%Q) by Lqa.lra.
      rewrite (Qabs_div_pos _ _ Hd).
      apply Qlt_shift_div_r; [exact Hd|].
      assert (Hp : (0 < (11 # 10) ^ Z.of_nat n)%Q).
      { apply Qpower_0_lt. reflexivity. }
      assert (Hstep : ((11 # 10) ^ Z.of_nat (S n) == (11 # 10) ^ Z.of_nat n * (11 # 10))%Q).
      { rewrite Nat2Z.inj_succ. unfold Z.succ.
        rewrite Qpower_plus by discriminate. reflexivity. }
      rewrite Hstep in Hv.
      assert (((11 # 10) ^ Z.of_nat n * (11 # 10) <= (11 # 10) ^ Z.of_nat n * (1 + small))%Q).
      { apply Qmult_le_l; [exact Hp|]. Lqa.lra. }
      clear Hstep Hb IH. revert Hp Hv H. generalize ((11 # 10) ^ Z.of_nat n)%Q.
      intros P Hp Hv H. Lqa.lra.
    + exists noisy, small. split; [reflexivity|]. now apply clips_false_iff in Hc.
    + exfalso. unfold clips in Hc. destruct noisy as [|x t]; [congruence|].
      simpl in Hc. destruct (Qle_bool 1 _); discriminate.
Qed.

(** (11/10)^n outgrows every rational. *)
Lemma eleven_tenths_unbounded (b : Q) : exists n : nat, (b < (11 # 10) ^ Z.of_nat n)%Q.
Proof.
  assert (Hbern : forall n : nat, (1 + inject_Z (Z.of_nat n) * (1 # 10) <= (11 # 10) ^ Z.of_nat n)%Q).
  { induction n as [|n IH]; [discriminate|].
    assert (Hstep : ((11 # 10) ^ Z.of_nat (S n) == (11 # 10) ^ Z.of_nat n * (11 # 10))%Q).
    { rewrite Nat2Z.inj_succ. unfold Z.succ.
      rewrite Qpower_plus by discriminate. reflexivity. }
    rewrite Hstep. rewrite Nat2Z.inj_succ. unfold Z.succ. rewrite inject_Z_plus.
    change (inject_Z 1) with 1%Q.
    assert (H0 : (0 <= inject_Z (Z.of_nat n))%Q).
    { change 0%Q with (inject_Z 0). rewrite <- Zle_Qle. lia. }
    assert (H1 : ((1 + inject_Z (Z.of_nat n) * (1 # 10)) * (11 # 10)
                  <= (11 # 10) ^ Z.of_nat n * (11 # 10))%Q).
    { apply Qmult_le_compat_r; [exact IH|discriminate]. }
    clear IH Hstep. revert H0 H1.
    generalize ((11 # 10) ^ Z.of_nat n)%Q, (inject_Z (Z.of_nat n)).
    intros P a H0 H1. Lqa.lra. }
  exists (Z.to_nat (10 * (Qfloor b + 1))).
  eapply Qlt_le_trans; [|apply Hbern]. clear Hbern.
  destruct (Qfloor_bounds b) as [_ Hhi].
  destruct (Z_le_gt_dec 0 (10 * (Qfloor b + 1))) as [Hpos|Hneg].
  - rewrite Z2Nat.id by exact Hpos. rewrite inject_Z_mult, inject_Z_plus.
    change (inject_Z 10) with 10%Q. change (inject_Z 1) with 1%Q. Lqa.lra.
  - assert (Hz : Z.to_nat (10 * (Qfloor b + 1)) = 0%nat) by lia. rewrite Hz.
    change (inject_Z (Z.of_nat 0)) with 0%Q.
    assert (Hb : (inject_Z (Qfloor b) + 1 <= 0)%Q).
    { change 1%Q with (inject_Z 1). rewrite <- inject_Z_plus.
      change 0%Q with (inject_Z 0). rewrite <- Zle_Qle. lia. }
    Lqa.lra.
Qed.

Lemma Forall_Qabs_bound (l : list Q) : exists b : Q, Forall (fun v => Qabs v < b)%Q l.
Proof.
  induction l as [|x l [b Hb]]; [exists 0%Q; constructor|].
  exists (Qmax b (Qabs x + 1)). constructor.
  - pose proof (Q.le_max_r b (Qabs x + 1)). Lqa.lra.
  - eapply Forall_impl; [|exact Hb]. intros v Hv. simpl in Hv.
    pose proof (Q.le_max_l b (Qabs x + 1)). Lqa.lra.
Qed.

(** Enough fuel exists for every non-empty buffer: the loop stops, with
    the buffer within [-1, 1). *)
Lemma declip_loop_terminates (noisy : list Q) :
  noisy <> [] ->
  exists fuel out small',
    declip_loop fuel noisy (1 # 10) = Ok (out, small') /\
    Forall (fun v => - (1 # 1) <= v /\ v < 1)%Q out.
Proof.
  intros Hne. destruct (Forall_Qabs_bound noisy) as [b Hb].
  destruct (eleven_tenths_unbounded b) as [n Hn].
  exists (S n). apply (declip_loop_bounded n); [exact Hne|discriminate| |lia].
  eapply Forall_impl; [|exact Hb]. intros v Hv. simpl in Hv.
  eapply Qlt_trans; eassumption.
Qed.

(** ** Additive: the noise-length error *)

Lemma np_add_raises (a b : list Q) (e : pyerr) :
  np_add a b = Raise e -> e = ValueError_Broadcast.
Proof.
  unfold np_add. destruct (length a =? length b)%nat; [discriminate|].
  destruct a as [|x [|x' a]]; destruct b as [|y [|y' b]];
    try discriminate; now intros [= <-].
Qed.

Lemma pick_index_lt (n : nat) (u : Q) : (0 < n)%nat -> (pick_index n u < n)%nat.
Proof. unfold pick_index. lia. Qed.

(** [np.random.choice(pool, 1)] on a non-empty population. *)
Lemma np_random_choice_Ok {A : Type} (pool : list A) (d : A) (w : world) :
  pool <> [] ->
  np_random_choice pool w
  = Ok (nth (pick_index (length pool) (np_uniform w (np_upos w))) pool d,
        mkWorld (heap w) (py_tape w) (py_pos w)
                (np_uniform w) (S (np_upos w)) (np_normal w) (np_npos w)).
Proof.
  destruct pool as [|a pool]; [congruence|]. intros _.
  unfold np_random_choice, bind, np_random_rand, ret. do 2 f_equal.
  apply nth_indep. apply pick_index_lt. simpl. lia.
Qed.

(** With the IRS flag off, [addnoise_asl] raises the noise-length error
    exactly when the noise is not longer than the clean buffer. *)
Lemma addnoise_asl_noise_length_iff
      (asl_P56 : list Q -> Z -> Z -> Q * Q * option Q) (np_sqrt pow10 : Q -> Q)
      (clean noise : list Q) (srate nbits snr : Z) (w : world) :
  addnoise_asl asl_P56 np_sqrt pow10 clean noise srate nbits snr false w
  = Raise ValueError_NoiseLength
  <-> len noise <= len clean.
Proof.
  unfold addnoise_asl. cbv [bind lift].
  destruct (asl_P56 clean srate nbits) as [[Px asl] c0].
  destruct (len noise <=? len clean) eqn:E.
  - apply Z.leb_le in E. split; [intros _; exact E|reflexivity].
  - apply Z.leb_gt in E. cbv [np_random_rand raise ret].
    split; [|lia]. intros H.
    destruct (np_add _ _) as [noisy|e] eqn:Ea; [discriminate|].
    apply np_add_raises in Ea. congruence.
Qed.

(** With the IRS flag on, [addnoise_asl] raises on its first line. *)
Lemma addnoise_asl_IRS
      (asl_P56 : list Q -> Z -> Z -> Q * Q * option Q) (np_sqrt pow10 : Q -> Q)
      (clean noise : list Q) (srate nbits snr : Z) (w : world) :
  addnoise_asl asl_P56 np_sqrt pow10 clean noise srate nbits snr true w
  = Raise NotImplementedError_IRS.
Proof. reflexivity. Qed.

(** C8, as amended. With the IRS flag off, noises and SNR levels that
    are not empty, and a sample rate and a bit depth on which [asl_P56]
    returns (it runs before the lengths are compared, and raises for
    srate = 0 and for nbits <= 1), the call raises the noise-length
    error exactly when the noise drawn is not longer than the clean
    buffer, and then returns no buffer. *)
Theorem Additive_call_noise_length_iff
        (np_exp np_log10 : Q -> Q) (fuel_asl : nat)
        (asl_P56 : list Q -> Z -> Z -> Q * Q * option Q)
        (np_sqrt pow10 astype_float32 : Q -> Q)
        (fuel : nat) (self : Additive) (wav : list Q) (srate nbits : Z) (w : world) :
  do_IRS self = false -> noises self <> [] -> snr_levels self <> [] ->
  asl_P56_returns np_exp np_log10 pow10 fuel_asl asl_P56 wav srate nbits ->
  let noise := nth (pick_index (length (noises self)) (np_uniform w (np_upos w)))
                   (noises self) [] in
  (Additive_call asl_P56 np_sqrt pow10 astype_float32 fuel self wav srate nbits w
   = Raise ValueError_NoiseLength
   <-> len noise <= len wav) /\
  (len noise <= len wav ->
   forall r, Additive_call asl_P56 np_sqrt pow10 astype_float32 fuel self wav srate nbits w
             <> Ok r).
Proof.
  intros HIRS Hn Hs _ noise.
  assert (Hseq : seq 0 (length (noises self)) <> []).
  { destruct (noises self); [congruence|discriminate]. }
  assert (Hidx : nth (pick_index (length (seq 0 (length (noises self))))
                                 (np_uniform w (np_upos w)))
                     (seq 0 (length (noises self))) 0%nat
                 = pick_index (length (noises self)) (np_uniform w (np_upos w))).
  { rewrite length_seq, seq_nth; [reflexivity|].
    apply pick_index_lt. destruct (noises self); [congruence|simpl; lia]. }
  assert (Hcall : forall e,
             addnoise_asl asl_P56 np_sqrt pow10 wav noise srate nbits
                          (nth (pick_index (length (snr_levels self))
                                           (np_uniform w (S (np_upos w))))
                               (snr_levels self) 0)
                          false
                          (mkWorld (heap w) (py_tape w) (py_pos w) (np_uniform w)
                                   (S (S (np_upos w))) (np_normal w) (np_npos w))
             = Raise e ->
             Additive_call asl_P56 np_sqrt pow10 astype_float32 fuel self wav srate nbits w
             = Raise e).
  { intros e He. unfold Additive_call.
    rewrite (bind_Ok _ _ _ _ _ (np_random_choice_Ok _ 0%nat w Hseq)). cbv beta.
    rewrite Hidx. fold noise.
    rewrite (bind_Ok _ _ _ _ _ (np_random_choice_Ok _ 0 _ Hs)). cbv beta.
    simpl np_uniform. simpl np_upos. simpl heap. simpl py_tape. simpl py_pos.
    simpl np_normal. simpl np_npos.
    rewrite HIRS. now rewrite (bind_Raise _ _ _ _ He). }
  assert (Hiff : Additive_call asl_P56 np_sqrt pow10 astype_float32 fuel self wav srate
                               nbits w
                 = Raise ValueError_NoiseLength
                 <-> len noise <= len wav).
  { split.
    - intros H. unfold Additive_call in H.
      rewrite (bind_Ok _ _ _ _ _ (np_random_choice_Ok _ 0%nat w Hseq)) in H.
      cbv beta in H. rewrite Hidx in H. fold noise in H.
      rewrite (bind_Ok _ _ _ _ _ (np_random_choice_Ok _ 0 _ Hs)) in H.
      cbv beta in H. rewrite HIRS in H.
      match type of H with
      | bind ?m _ ?w1 = _ => destruct (m w1) as [[[noisy nb] w2]|e] eqn:Ea
      end.
      + rewrite (bind_Ok _ _ _ _ _ Ea) in H. cbv beta in H.
        unfold bind, lift, ret in H.
        destruct (declip fuel noisy) as [o|e] eqn:Ed; [discriminate|].
        apply declip_raises in Ed. destruct Ed; congruence.
      + rewrite (bind_Raise _ _ _ _ Ea) in H. injection H as ->.
        now apply addnoise_asl_noise_length_iff in Ea.
    - intros Hle. apply Hcall. now apply addnoise_asl_noise_length_iff. }
  split; [exact Hiff|].
  intros Hle r Hr. apply Hiff in Hle. congruence.
Qed.

Lemma Additive_call_noise_length_witness :
  let self := mkAdditive [[1; 2]%Q] [0; 5; 10] false in
  let w := constant_world [] (1 # 2) 0 in
  do_IRS self = false /\ noises self <> [] /\ snr_levels self <> [] /\
  asl_P56_returns (fun _ => 1 # 2) unreached unreached 0 silent_asl
                  [0; 0; 0]%Q 16000 16 /\
  len [1; 2]%Q <= len [0; 0; 0]%Q /\
  Additive_call silent_asl unreached unreached unreached 10 self [0; 0; 0]%Q 16000 16 w
  = Raise ValueError_NoiseLength.
Proof.
  assert (Hasl : asl_P56_returns (fun _ => 1 # 2) unreached unreached 0 silent_asl
                                 [0; 0; 0]%Q 16000 16).
  { exists 0%Q, 0%Q, None. split; vm_compute; reflexivity. }
  split; [reflexivity|]. split; [discriminate|]. split; [discriminate|].
  split; [exact Hasl|]. split; [vm_compute; discriminate|].
  apply (Additive_call_noise_length_iff (fun _ => 1 # 2) unreached 0
           silent_asl unreached unreached unreached 10
           (mkAdditive [[1; 2]%Q] [0; 5; 10] false) [0; 0; 0]%Q 16000 16
           (constant_world [] (1 # 2) 0)).
  - reflexivity.
  - discriminate.
  - discriminate.
  - exact Hasl.
  - vm_compute. discriminate.
Defined.

(** C8, as stated, fails: with the IRS flag on and a noise shorter than
    the clean buffer the call raises NotImplementedError, not the
    noise-length error. *)
Lemma Additive_call_IRS_hides_noise_length :
  let self := mkAdditive [[1; 2]%Q] [0; 5; 10] true in
  let w := constant_world [] (1 # 2) 0 in
  len [1; 2]%Q <= len [0; 0; 0]%Q /\
  Additive_call silent_asl unreached unreached unreached 10 self [0; 0; 0]%Q 16000 16 w
  = Raise NotImplementedError_IRS /\
  Additive_call silent_asl unreached unreached unreached 10 self [0; 0; 0]%Q 16000 16 w
  <> Raise ValueError_NoiseLength.
Proof.
  split; [vm_compute; discriminate|]. split; [reflexivity|discriminate].
Qed.

(** ** Additive.addnoise_asl: the scale factor, over the reals *)

Lemma Rdot_scale_acc (c : R) (a b : list R) :
  forall acc : R,
    fold_left Rplus (map2 Rmult (map (fun v => v * c) a) (map (fun v => v * c) b))%R
              (c * c * acc)%R
    = (c * c * fold_left Rplus (map2 Rmult a b) acc)%R.
Proof.
  revert b. induction a as [|x a IH]; intros b acc; [reflexivity|].
  destruct b as [|y b]; [reflexivity|]. simpl.
  rewrite <- IH. f_equal. ring.
Qed.

(** Scaling the segment by [sf] scales its mean-square power by [sf ^ 2]. *)
Lemma noise_power_scale (noise_segment : list R) (sf : R) (x_len : Z) :
  noise_power (scale_noise noise_segment sf) x_len
  = (sf ^ 2 * noise_power noise_segment x_len)%R.
Proof.
  unfold noise_power, scale_noise, Rdot.
  replace 0%R with (sf * sf * 0)%R at 1 by ring.
  rewrite Rdot_scale_acc. unfold Rdiv. ring.
Qed.

(** C3. For positive active energy [Px] and positive noise power [Pn],
    the scale factor satisfies Px / (sf ^ 2 * Pn) = 10 ^ (snr / 10); the
    same ratio holds between [Px] and the power of the scaled segment. *)
Theorem scale_factor_reaches_snr (Px : R) (noise_segment : list R) (x_len snr : Z) :
  (0 < Px)%R -> (0 < noise_power noise_segment x_len)%R ->
  let Pn := noise_power noise_segment x_len in
  let sf := scale_factor Px Pn snr in
  (Px / (sf ^ 2 * Pn) = Rpower 10 (IZR snr / 10))%R /\
  (Px / noise_power (scale_noise noise_segment sf) x_len = Rpower 10 (IZR snr / 10))%R.
Proof.
  intros HPx HPn Pn sf.
  set (T := Rpower 10 (IZR snr / 10)).
  assert (HT : (0 < T)%R) by (unfold T, Rpower; apply exp_pos).
  assert (Hsf : (sf ^ 2 = Px / Pn / T)%R).
  { unfold sf, scale_factor. fold T. simpl. rewrite Rmult_1_r.
    apply sqrt_sqrt. apply Rlt_le.
    apply Rdiv_lt_0_compat; [apply Rdiv_lt_0_compat|]; assumption. }
  assert (Hratio : (Px / (sf ^ 2 * Pn) = T)%R).
  { rewrite Hsf. fold Pn in HPn. field. repeat split; apply Rgt_not_eq; assumption. }
  split; [exact Hratio|].
  rewrite noise_power_scale. exact Hratio.
Qed.

Lemma scale_factor_reaches_snr_witness :
  (0 < 1)%R /\ (0 < noise_power [1%R] 1)%R /\
  (1 / (scale_factor 1 (noise_power [1%R] 1) 0 ^ 2 * noise_power [1%R] 1)
   = Rpower 10 (IZR 0 / 10))%R.
Proof.
  assert (H : (0 < noise_power [1%R] 1)%R).
  { unfold noise_power, Rdot. simpl. Lra.lra. }
  split; [Lra.lra|]. split; [exact H|].
  apply (scale_factor_reaches_snr 1 [1%R] 1 0); [Lra.lra|exact H].
Defined.

(** ** Chopper.vad_wav *)

(** The scan only depends on the start offsets and on what the test said
    at each of them. *)
Lemma vad_scan_labels (is_speech : list Z -> Z -> bool) (wav : list Z) (srate : Z) :
  forall idxs st,
    fold_left (vad_step is_speech wav srate) idxs st
    = fold_left (fun s p => vad_update s (fst p) (snd p))
                (combine idxs (map (frame_is_speech is_speech wav srate) idxs)) st.
Proof.
  induction idxs as [|i idxs IH]; intros st; [reflexivity|].
  simpl. now rewrite IH.
Qed.

(** Twelve labels mean twelve start offsets. *)
Lemma window_labels_offsets (is_speech : list Z -> Z -> bool) (wav : list Z) (srate : Z)
      (labels : list bool) :
  window_labels is_speech wav srate = labels ->
  py_range 0 (len wav) window_size
  = map (fun k => 0 + window_size * Z.of_nat k) (seq 0 (length labels)).
Proof.
  intros <-. unfold window_labels, py_range.
  now rewrite !length_map, length_seq.
Qed.

Lemma vad_wav_of_labels (is_speech : list Z -> Z -> bool) (wav : list Z)
      (labels : list bool) :
  window_labels is_speech wav 16000 = labels ->
  vad_wav is_speech wav 16000
  = Ok (regions
          (fold_left (fun s p => vad_update s (fst p) (snd p))
                     (combine (map (fun k => 0 + window_size * Z.of_nat k)
                                   (seq 0 (length labels)))
                              labels)
                     (mkVad [] 0 None))).
Proof.
  intros H. unfold vad_wav. simpl negb. cbv iota.
  rewrite vad_scan_labels.
  rewrite (window_labels_offsets _ _ _ _ H).
  unfold window_labels in H.
  rewrite (window_labels_offsets _ _ _ _ H) in H. now rewrite H.
Qed.

(** When the buffer goes on after the last run, with a full window that
    is not speech or with an undersized one, both runs are emitted. *)
Lemma vad_wav_two_regions_when_closed (is_speech : list Z -> Z -> bool) (wav : list Z) :
  window_labels is_speech wav 16000
  = [true; true; true; true; true; false; false; false; true; true; true; true; false] ->
  exists c1 c2,
    vad_wav is_speech wav 16000 = Ok [mkRegion 0 c1 800; mkRegion 1280 c2 640] /\
    (c1 == 400 # 1)%Q /\ (c2 == 1600 # 1)%Q.
Proof.
  intros H. rewrite (vad_wav_of_labels _ _ _ H).
  eexists. eexists. split; [reflexivity|]. split; reflexivity.
Qed.

(** *** Every run that a later window closes is emitted *)

Lemma speech_runs_true_true (t : list bool) (k : nat) :
  speech_runs (true :: true :: t) k
  = match speech_runs (true :: t) (S k) with
    | (_, n, closed) :: rs => (k, S n, closed) :: rs
    | [] => []
    end.
Proof. reflexivity. Qed.

Lemma speech_runs_trues (n k : nat) :
  speech_runs (repeat true (S n)) k = [(k, S n, false)].
Proof.
  revert k. induction n as [|n IH]; intros k; [reflexivity|].
  change (repeat true (S (S n))) with (true :: true :: repeat true n).
  rewrite speech_runs_true_true.
  change (true :: repeat true n) with (repeat true (S n)).
  now rewrite IH.
Qed.

Lemma speech_runs_trues_closed (n k : nat) (rest : list bool) :
  speech_runs (repeat true (S n) ++ false :: rest) k
  = (k, S n, true) :: speech_runs rest (S n + S k).
Proof.
  revert k. induction n as [|n IH]; intros k; [reflexivity|].
  change (repeat true (S (S n)) ++ false :: rest)
    with (true :: true :: (repeat true n ++ false :: rest)).
  rewrite speech_runs_true_true.
  change (true :: (repeat true n ++ false :: rest))
    with (repeat true (S n) ++ false :: rest).
  rewrite IH. do 2 f_equal. lia.
Qed.

Lemma labels_decompose (labels : list bool) :
  labels = [] \/ (exists t, labels = false :: t) \/
  (exists n, labels = repeat true (S n)) \/
  (exists n rest, labels = repeat true (S n) ++ false :: rest).
Proof.
  induction labels as [|[|] t IH]; [now left| |right; left; now exists t].
  right. right. destruct IH as [->|[[t' ->]|[[n ->]|[n [rest ->]]]]].
  - left. now exists 0%nat.
  - right. now exists 0%nat, t'.
  - left. now exists (S n).
  - right. now exists (S n), rest.
Qed.

Lemma scan_cons (l : bool) (labels : list bool) (k : nat) (st : vad_state) :
  scan (l :: labels) k st
  = scan labels (S k) (vad_update st (0 + window_size * Z.of_nat k) l).
Proof. reflexivity. Qed.

Lemma scan_app (l1 l2 : list bool) :
  forall k st, scan (l1 ++ l2) k st = scan l2 (length l1 + k) (scan l1 k st).
Proof.
  induction l1 as [|l l1 IH]; intros k st; [reflexivity|].
  change ((l :: l1) ++ l2) with (l :: (l1 ++ l2)).
  rewrite !scan_cons, IH. f_equal. simpl. lia.
Qed.

(** Speech windows only count: the open run stays open. *)
Lemma scan_trues_open (n : nat) :
  forall k rs c b,
    scan (repeat true n) k (mkVad rs c (Some b)) = mkVad rs (c + Z.of_nat n) (Some b).
Proof.
  induction n as [|n IH]; intros k rs c b.
  - unfold scan. simpl. f_equal. lia.
  - change (repeat true (S n)) with (true :: repeat true n).
    rewrite scan_cons. unfold vad_update. cbn [regions curr_region_counter init].
    rewrite IH. f_equal. lia.
Qed.

Lemma scan_trues (n k : nat) (rs : list region) :
  scan (repeat true (S n)) k (mkVad rs 0 None)
  = mkVad rs (Z.of_nat (S n)) (Some (0 + window_size * Z.of_nat k)).
Proof.
  change (repeat true (S n)) with (true :: repeat true n).
  rewrite scan_cons. unfold vad_update. cbn [regions curr_region_counter init].
  rewrite scan_trues_open. f_equal. lia.
Qed.

(** The scan emits the runs that are closed, in order, and nothing else. *)
Lemma scan_regions (m : nat) :
  forall labels k rs,
    (length labels <= m)%nat ->
    regions (scan labels k (mkVad rs 0 None))
    = rs ++ map region_of_run (filter (fun r => snd r) (speech_runs labels k)).
Proof.
  induction m as [|m IH]; intros labels k rs Hlen.
  - destruct labels; [|simpl in Hlen; lia]. unfold scan. simpl. now rewrite app_nil_r.
  - destruct (labels_decompose labels) as [->|[[t ->]|[[n ->]|[n [rest ->]]]]].
    + unfold scan. simpl. now rewrite app_nil_r.
    + rewrite scan_cons. unfold vad_update. cbn [regions curr_region_counter init].
      rewrite IH by (simpl in Hlen; lia). reflexivity.
    + rewrite scan_trues, speech_runs_trues. simpl. now rewrite app_nil_r.
    + rewrite scan_app, scan_trues, repeat_length, scan_cons.
      unfold vad_update. cbn [regions curr_region_counter init].
      rewrite speech_runs_trues_closed. cbn [filter snd map region_of_run].
      rewrite IH by (rewrite length_app, repeat_length in Hlen; simpl in Hlen; lia).
      rewrite <- app_assoc. cbn [app].
      replace (S (S n + k)) with (S n + S k)%nat by lia. reflexivity.
Qed.

(** [vad_wav] returns the regions of the runs that a later window
    closes: a window that is not speech, or an undersized trailing one.
    A run that lasts up to the end of the buffer is not among them. *)
Lemma vad_wav_emits_closed_runs (is_speech : list Z -> Z -> bool) (wav : list Z) :
  vad_wav is_speech wav 16000
  = Ok (map region_of_run (closed_runs (window_labels is_speech wav 16000))).
Proof.
  rewrite (vad_wav_of_labels _ _ _ eq_refl). f_equal.
  apply (scan_regions _ _ 0%nat [] (le_n _)).
Qed.

(** The region of a run has begin = run start offset, duration =
    windowCount * windowSize and center = begin + duration / 2. *)
Lemma region_of_run_fields (k n : nat) (closed : bool) :
  let r := region_of_run (k, n, closed) in
  reg_beg r = 160 * Z.of_nat k /\
  reg_dur r = Z.of_nat n * 160 /\
  (reg_center r == inject_Z (reg_beg r) + inject_Z (reg_dur r) / 2)%Q.
Proof.
  unfold region_of_run. cbn [reg_beg reg_dur reg_center]. unfold window_size.
  split; [lia|]. split; [reflexivity|].
  replace (0 + 160 * Z.of_nat k + Z.of_nat n * 160 - (0 + 160 * Z.of_nat k))
    with (Z.of_nat n * 160) by lia.
  reflexivity.
Qed.

(** On the labels [speech]x5, [silence]x3, [speech]x4 the runs are
    windows 0..4, closed, and windows 8..11, open. *)
Example speech_runs_5_3_4 :
  speech_runs [true; true; true; true; true; false; false; false;
               true; true; true; true] 0
  = [(0%nat, 5%nat, true); (8%nat, 4%nat, false)].
Proof. reflexivity. Qed.

(** C1. When the scan sees exactly [speech]x5, [silence]x3, [speech]x4
    (a buffer of 1920 samples, whose last window is speech), only the
    first run is emitted: nothing closes the run that is open when the
    loop ends. *)
Theorem vad_wav_drops_final_run (is_speech : list Z -> Z -> bool) (wav : list Z) :
  window_labels is_speech wav 16000
  = [true; true; true; true; true; false; false; false; true; true; true; true] ->
  exists c,
    vad_wav is_speech wav 16000 = Ok [mkRegion 0 c 800] /\ (c == 400 # 1)%Q.
Proof.
  intros H. rewrite (vad_wav_of_labels _ _ _ H).
  eexists. split; reflexivity.
Qed.

Lemma vad_wav_drops_final_run_witness :
  let wav := repeat 1 800 ++ repeat 0 480 ++ repeat 1 640 in
  length wav = 1920%nat /\
  window_labels first_sample_vad wav 16000
  = [true; true; true; true; true; false; false; false; true; true; true; true] /\
  exists c,
    vad_wav first_sample_vad wav 16000 = Ok [mkRegion 0 c 800] /\ (c == 400 # 1)%Q.
Proof.
  split; [reflexivity|]. split; [vm_compute; reflexivity|].
  apply (vad_wav_drops_final_run first_sample_vad
           (repeat 1 800 ++ repeat 0 480 ++ repeat 1 640)).
  vm_compute. reflexivity.
Defined.

(** ** Chopper.chop_wav: the regions chosen *)

Lemma remove_nth_In {A : Type} (x : A) :
  forall (l : list A) (n : nat), In x (remove_nth n l) -> In x l.
Proof.
  induction l as [|h t IH]; intros n H; [destruct n; exact H|].
  destruct n as [|n]; simpl in H; [now right|].
  destruct H as [->|H]; [now left|right; eauto].
Qed.

(** A sample without replacement is made of members of the population. *)
Lemma np_random_choice_noreplace_In {A : Type} (k : nat) :
  forall (pool : list A) (w : world) (picked : list A) (w' : world),
    np_random_choice_noreplace pool k w = Ok (picked, w') ->
    forall x, In x picked -> In x pool.
Proof.
  induction k as [|k IH]; intros pool w picked w' H x Hx.
  - simpl in H. injection H as <- _. contradiction.
  - cbn [np_random_choice_noreplace] in H. destruct pool as [|d pool]; [discriminate|].
    assert (Hlen : (0 < length (d :: pool))%nat) by (simpl; lia).
    remember (d :: pool) as l eqn:El. clear El.
    rewrite (bind_Ok np_random_rand _ w _ _ eq_refl) in H. cbv beta zeta in H.
    match type of H with
    | bind ?m _ ?w1 = _ => destruct (m w1) as [[rest w2]|e] eqn:Er
    end.
    + rewrite (bind_Ok _ _ _ _ _ Er) in H. unfold ret in H.
      assert (Hp : picked = nth (pick_index (length l) (np_uniform w (np_upos w))) l d
                            :: rest) by congruence.
      rewrite Hp in Hx. apply in_inv in Hx. destruct Hx as [Hx|Hx].
      * rewrite <- Hx. apply nth_In. now apply pick_index_lt.
      * eapply remove_nth_In. eapply IH; eassumption.
    + rewrite (bind_Raise _ _ _ _ Er) in H. discriminate.
Qed.

Lemma py_range_unit_In (start stop i : Z) :
  In i (py_range start stop 1) -> start <= i < stop.
Proof.
  unfold py_range. rewrite in_map_iff. intros [k [<- Hk]].
  apply in_seq in Hk. destruct Hk as [_ Hk]. simpl in Hk.
  replace (stop - start + 1 - 1) with (stop - start) in Hk by lia.
  rewrite Z.div_1_r in Hk. lia.
Qed.

(** [np.random.choice(pool, 1)] returns a member of the population. *)
Lemma np_random_choice_In {A : Type} (pool : list A) (w w' : world) (a : A) :
  np_random_choice pool w = Ok (a, w') -> In a pool.
Proof.
  destruct pool as [|d pool]; [discriminate|]. intros H.
  assert (Hlen : (0 < length (d :: pool))%nat) by (simpl; lia).
  rewrite (np_random_choice_Ok _ d w) in H by discriminate.
  remember (d :: pool) as l eqn:El. clear El.
  assert (Ha : a = nth (pick_index (length l) (np_uniform w (np_upos w))) l d)
    by congruence.
  rewrite Ha. apply nth_In. now apply pick_index_lt.
Qed.

(** The regions chopped are always among the first [chops] ones. *)
Lemma chop_idxs_below_chops (chops : Z) (w w' : world) (chop_idxs : list Z) :
  chop_idxs_of chops w = Ok (chop_idxs, w') ->
  forall i, In i chop_idxs -> 0 <= i < Z.max chops 1.
Proof.
  unfold chop_idxs_of. destruct (chops =? 1) eqn:E; intros H i Hi.
  - injection H as <- _. destruct Hi as [<-|[]]. lia.
  - pose proof (np_random_choice_noreplace_In _ _ _ _ _ H i Hi) as Hin.
    apply py_range_unit_In in Hin. lia.
Qed.

(** C2. The indexes of the regions to chop are a permutation of
    [range(chops)], with [chops] at most [max_chops], not a sample of the
    indexes of all the regions: whatever is drawn, every index chosen is
    below [max_chops] (and below the number of regions), so with more
    regions than [max_chops] the later regions are never selected. *)
Theorem chop_wav_picks_only_first_regions (self : Chopper) (speech_regions : list region)
        (w w1 w2 : world) (chops : Z) (chop_idxs : list Z) :
  np_random_choice (py_range 1 (max_chops self + 1) 1) w = Ok (chops, w1) ->
  chop_idxs_of (Z.min chops (len speech_regions)) w1 = Ok (chop_idxs, w2) ->
  forall i, In i chop_idxs ->
            0 <= i < Z.max 1 (Z.min (max_chops self) (len speech_regions)).
Proof.
  intros Hc Hi i Hin.
  apply np_random_choice_In, py_range_unit_In in Hc.
  apply (chop_idxs_below_chops _ _ _ _ Hi) in Hin. lia.
Qed.

Lemma chop_wav_picks_only_first_regions_witness :
  let self := mkChopper [(1 # 20, 1 # 40); (1 # 10, 1 # 20)]%Q 2 false in
  let speech_regions :=
    [mkRegion 0 (80 # 1) 160; mkRegion 320 (400 # 1) 160; mkRegion 640 (720 # 1) 160] in
  let w := constant_world [] (9 # 10) 0 in
  exists w1 w2,
    np_random_choice (py_range 1 (max_chops self + 1) 1) w = Ok (2, w1) /\
    chop_idxs_of (Z.min 2 (len speech_regions)) w1 = Ok ([1; 0], w2) /\
    (forall i, In i [1; 0] -> 0 <= i < 2) /\
    ~ In 2 [1; 0].
Proof.
  eexists. eexists. split; [vm_compute; reflexivity|].
  split; [vm_compute; reflexivity|].
  assert (H : forall i, In i [1; 0] -> 0 <= i < 2).
  { eapply (chop_wav_picks_only_first_regions
              (mkChopper [(1 # 20, 1 # 40); (1 # 10, 1 # 20)]%Q 2 false)
              [mkRegion 0 (80 # 1) 160; mkRegion 320 (400 # 1) 160;
               mkRegion 640 (720 # 1) 160]
              (constant_world [] (9 # 10) 0) _ _ 2 [1; 0]);
      vm_compute; reflexivity. }
  split; [exact H|]. intros Hin. apply H in Hin. lia.
Defined.

(** ** Chopper: the heap is only written at the private copy *)

Lemma bind_inv {A B : Type} (m : M A) (k : A -> M B) (w w' : world) (b : B) :
  bind m k w = Ok (b, w') ->
  exists a w1, m w = Ok (a, w1) /\ k a w1 = Ok (b, w').
Proof.
  unfold bind. destruct (m w) as [[a w1]|e]; [|discriminate].
  intros H. now exists a, w1.
Qed.

Lemma length_list_set {A : Type} (v : A) :
  forall (l : list A) (n : nat), length (list_set l n v) = length l.
Proof.
  induction l as [|h t IH]; intros [|n]; simpl; auto.
Qed.

Lemma nth_error_list_set_other {A : Type} (v : A) :
  forall (l : list A) (n b : nat),
    b <> n -> nth_error (list_set l n v) b = nth_error l b.
Proof.
  induction l as [|h t IH]; intros [|n] [|b] H; simpl; auto; try congruence.
Qed.

Lemma nth_error_snoc {A : Type} (l : list A) (x : A) :
  nth_error (l ++ [x]) (length l) = Some x.
Proof.
  rewrite nth_error_app2 by lia. now rewrite Nat.sub_diag.
Qed.

Lemma np_random_choice_heap {A : Type} (pool : list A) (w w' : world) (a : A) :
  np_random_choice pool w = Ok (a, w') -> heap w' = heap w.
Proof.
  destruct pool as [|d pool]; [discriminate|].
  unfold np_random_choice, bind, np_random_rand, ret. now intros [= _ <-].
Qed.

Lemma np_random_choice_noreplace_heap {A : Type} (k : nat) :
  forall (pool : list A) (w w' : world) (picked : list A),
    np_random_choice_noreplace pool k w = Ok (picked, w') -> heap w' = heap w.
Proof.
  induction k as [|k IH]; intros pool w w' picked H.
  - now injection H as _ <-.
  - cbn [np_random_choice_noreplace] in H. destruct pool as [|d pool]; [discriminate|].
    apply bind_inv in H. destruct H as [u [w1 [Hu H]]].
    apply bind_inv in H. destruct H as [rest [w2 [Hr H]]].
    injection H as _ <-. injection Hu as _ <-.
    now apply IH in Hr.
Qed.

Lemma chop_idxs_of_heap (chops : Z) (w w' : world) (chop_idxs : list Z) :
  chop_idxs_of chops w = Ok (chop_idxs, w') -> heap w' = heap w.
Proof.
  unfold chop_idxs_of. destruct (chops =? 1).
  - now intros [= _ <-].
  - apply np_random_choice_noreplace_heap.
Qed.

(** One chop writes the heap at [chopped_wav] and nowhere else. *)
Lemma chop_region_frame (self : Chopper) (chopped_wav : addr) (srate : Z)
      (speech_regions : list region) (chop_i : Z) (w w' : world) (u : unit) :
  chop_region self chopped_wav srate speech_regions chop_i w = Ok (u, w') ->
  length (heap w') = length (heap w) /\
  forall b, b <> chopped_wav -> nth_error (heap w') b = nth_error (heap w) b.
Proof.
  unfold chop_region.
  destruct (nth_error speech_regions (Z.to_nat chop_i)) as [r|]; [|discriminate].
  intros H. apply bind_inv in H. destruct H as [idx [w1 [Hc H]]].
  apply np_random_choice_heap in Hc.
  destruct (nth_error (chop_factors self) idx) as [[mean std]|]; [|discriminate].
  apply bind_inv in H. destruct H as [randn [w2 [Hn H]]].
  injection Hn as _ <-.
  destruct (chop_bounds srate r mean std randn) as [chop_beg chop_end].
  apply bind_inv in H. destruct H as [buf [w3 [Hr H]]].
  unfold heap_read in Hr. simpl in Hr.
  destruct (nth_error (heap w1) chopped_wav) eqn:E; [|discriminate].
  injection Hr as _ <-.
  unfold heap_write in H. simpl in H. rewrite E in H.
  injection H as _ <-. simpl. rewrite <- Hc. split.
  - apply length_list_set.
  - intros b Hb. now apply nth_error_list_set_other.
Qed.

Lemma for_each_chop_frame (self : Chopper) (chopped_wav : addr) (srate : Z)
      (speech_regions : list region) (chop_idxs : list Z) :
  forall (w w' : world) (u : unit),
    for_each chop_idxs (chop_region self chopped_wav srate speech_regions) w = Ok (u, w') ->
    length (heap w') = length (heap w) /\
    forall b, b <> chopped_wav -> nth_error (heap w') b = nth_error (heap w) b.
Proof.
  induction chop_idxs as [|i idxs IH]; intros w w' u H.
  - injection H as _ <-. now split.
  - cbn [for_each] in H. apply bind_inv in H. destruct H as [u1 [w1 [H1 H]]].
    apply chop_region_frame in H1. apply IH in H.
    destruct H1 as [L1 F1], H as [L2 F2]. split; [congruence|].
    intros b Hb. rewrite F2, F1; auto.
Qed.

(** [chop_wav] leaves every buffer that existed before the call as it
    was, the caller's buffer included: with regions to chop it writes to
    a fresh copy only, without any it returns the caller's own buffer. *)
Lemma chop_wav_keeps_heap (self : Chopper) (wav : addr) (srate : Z)
      (speech_regions : list region) (w w' : world) (out : addr) :
  chop_wav self wav srate speech_regions w = Ok (out, w') ->
  (forall b, (b < length (heap w))%nat -> nth_error (heap w') b = nth_error (heap w) b) /\
  (out = wav \/ out = length (heap w)).
Proof.
  unfold chop_wav. destruct (len speech_regions =? 0).
  - intros [= <- <-]. split; auto.
  - intros H. apply bind_inv in H. destruct H as [chops [w1 [Hc H]]].
    apply np_random_choice_heap in Hc.
    apply bind_inv in H. destruct H as [idxs [w2 [Hi H]]].
    apply chop_idxs_of_heap in Hi.
    apply bind_inv in H. destruct H as [src [w3 [Hr H]]].
    unfold heap_read in Hr.
    destruct (nth_error (heap w2) wav); [|discriminate]. injection Hr as _ <-.
    apply bind_inv in H. destruct H as [c [w4 [Ha H]]].
    unfold heap_alloc in Ha. injection Ha as <- <-.
    apply bind_inv in H. destruct H as [u [w5 [Hf H]]].
    injection H as <- <-.
    apply for_each_chop_frame in Hf. simpl in Hf. destruct Hf as [_ Hf].
    rewrite Hi, Hc in Hf. rewrite Hi, Hc. split; [|now right].
    intros b Hb. rewrite Hf by lia. now apply nth_error_app1.
Qed.

(** ** Chopper.chop_wav: the frame of a chop whose bounds are not negative *)

Lemma splice_outside {A : Type} (l : list A) (v : A) (b e i : nat) :
  (b <= e <= length l)%nat -> (i < b \/ e <= i)%nat ->
  nth_error (firstn b l ++ repeat v (e - b) ++ skipn e l) i = nth_error l i.
Proof.
  intros Hbe [Hi|Hi].
  - rewrite nth_error_app1 by (rewrite length_firstn; lia).
    rewrite nth_error_firstn.
    destruct (Nat.ltb_spec i b); [reflexivity|lia].
  - rewrite nth_error_app2 by (rewrite length_firstn; lia).
    rewrite nth_error_app2 by (rewrite length_firstn, repeat_length; lia).
    rewrite nth_error_skipn, length_firstn, repeat_length. f_equal. lia.
Qed.

(** A slice assignment with bounds that are not negative changes nothing
    outside [b, e). *)
Lemma py_slice_assign_outside {A : Type} (l : list A) (b e : Z) (v : A) (i : nat) :
  0 <= b -> 0 <= e -> ~ (b <= Z.of_nat i < e) ->
  nth_error (py_slice_assign l b e v) i = nth_error l i.
Proof.
  intros Hb He Hi. unfold py_slice_assign, norm_index, len.
  destruct (Z.ltb_spec b 0); [lia|]. destruct (Z.ltb_spec e 0); [lia|].
  set (n := Z.of_nat (length l)).
  destruct (Z_le_gt_dec (Z.min e n) (Z.min b n)) as [Hle|Hgt].
  - replace (Z.to_nat (Z.min e n - Z.min b n)) with 0%nat by lia.
    replace (Z.max (Z.min b n) (Z.min e n)) with (Z.min b n) by lia.
    simpl. now rewrite firstn_skipn.
  - replace (Z.max (Z.min b n) (Z.min e n)) with (Z.min e n) by lia.
    replace (Z.to_nat (Z.min e n - Z.min b n))
      with (Z.to_nat (Z.min e n) - Z.to_nat (Z.min b n))%nat by lia.
    apply splice_outside; unfold n in *; lia.
Qed.

Lemma nth_error_list_set_same {A : Type} (v x : A) :
  forall (l : list A) (n : nat),
    nth_error l n = Some x -> nth_error (list_set l n v) n = Some v.
Proof.
  induction l as [|h t IH]; intros [|n] H; simpl in *; try discriminate; auto.
Qed.

(** What one chop does to the private copy. *)
Lemma chop_region_writes (self : Chopper) (chopped_wav : addr) (srate : Z)
      (speech_regions : list region) (chop_i : Z) (w w' : world) (u : unit)
      (buf : list Z) :
  chop_region self chopped_wav srate speech_regions chop_i w = Ok (u, w') ->
  nth_error (heap w) chopped_wav = Some buf ->
  exists r mean std randn,
    nth_error speech_regions (Z.to_nat chop_i) = Some r /\
    In (mean, std) (chop_factors self) /\
    nth_error (heap w') chopped_wav
    = Some (py_slice_assign buf (fst (chop_bounds srate r mean std randn))
                            (snd (chop_bounds srate r mean std randn)) 0).
Proof.
  unfold chop_region. intros H Hbuf.
  destruct (nth_error speech_regions (Z.to_nat chop_i)) as [r|]; [|discriminate].
  apply bind_inv in H. destruct H as [idx [w1 [Hc H]]].
  apply np_random_choice_heap in Hc.
  destruct (nth_error (chop_factors self) idx) as [[mean std]|] eqn:Ef; [|discriminate].
  apply bind_inv in H. destruct H as [randn [w2 [Hn H]]].
  injection Hn as <- <-.
  exists r, mean, std, (np_normal w1 (np_npos w1)).
  split; [reflexivity|]. split; [eapply nth_error_In; eassumption|].
  destruct (chop_bounds srate r mean std (np_normal w1 (np_npos w1)))
    as [chop_beg chop_end].
  apply bind_inv in H. destruct H as [buf' [w3 [Hr H]]].
  unfold heap_read in Hr. simpl in Hr. rewrite Hc, Hbuf in Hr.
  injection Hr as <- <-.
  unfold heap_write in H. simpl in H. rewrite ?Hc, Hbuf in H.
  injection H as _ <-. simpl. rewrite ?Hc.
  eapply nth_error_list_set_same. eassumption.
Qed.

(** The window of a chop starts within the buffer's non-negative
    indexes as soon as the region does; only its end can be negative. *)
Lemma chop_bounds_beg (srate : Z) (r : region) (mean std randn : Q) :
  reg_beg r <= fst (chop_bounds srate r mean std randn).
Proof. unfold chop_bounds. simpl. lia. Qed.

(** When the end of the window is not negative, a chop changes no sample
    outside [chop_beg, chop_end). *)
Lemma chop_region_outside_window (self : Chopper) (chopped_wav : addr) (srate : Z)
      (speech_regions : list region) (chop_i : Z) (w w' : world) (u : unit)
      (buf : list Z) :
  chop_region self chopped_wav srate speech_regions chop_i w = Ok (u, w') ->
  nth_error (heap w) chopped_wav = Some buf ->
  exists r chop_beg chop_end buf',
    nth_error speech_regions (Z.to_nat chop_i) = Some r /\
    nth_error (heap w') chopped_wav = Some buf' /\
    (0 <= reg_beg r -> 0 <= chop_end ->
     forall i, ~ (chop_beg <= Z.of_nat i < chop_end) ->
               nth_error buf' i = nth_error buf i).
Proof.
  intros H Hbuf.
  destruct (chop_region_writes _ _ _ _ _ _ _ _ _ H Hbuf)
    as [r [mean [std [randn [Hr [_ Hw]]]]]].
  exists r, (fst (chop_bounds srate r mean std randn)),
    (snd (chop_bounds srate r mean std randn)).
  eexists. split; [exact Hr|]. split; [exact Hw|].
  intros Hbeg Hend i Hi. apply py_slice_assign_outside; [|exact Hend|exact Hi].
  pose proof (chop_bounds_beg srate r mean std randn). lia.
Qed.

(** ** Chopper.__call__ on a buffer without speech *)

Lemma py_int_comp (x y : Q) : (x == y)%Q -> py_int x = py_int y.
Proof.
  intros E. unfold py_int.
  rewrite (Qfloor_comp _ _ E), (Qceiling_comp _ _ E).
  destruct (Qle_bool 0 x) eqn:Ex, (Qle_bool 0 y) eqn:Ey; try reflexivity.
  - apply Qle_bool_iff in Ex. apply Qle_bool_false in Ey. Lqa.lra.
  - apply Qle_bool_iff in Ey. apply Qle_bool_false in Ex. Lqa.lra.
Qed.

Lemma py_int_Z (k : Z) : py_int (inject_Z k) = k.
Proof.
  unfold py_int. destruct (Qle_bool 0 (inject_Z k)).
  - apply Qfloor_Z.
  - apply Qceiling_Z.
Qed.

Lemma py_int_bounds (q : Q) :
  (Qabs (inject_Z (py_int q)) <= Qabs q)%Q /\ (Qabs (inject_Z (py_int q) - q) < 1)%Q.
Proof.
  unfold py_int. destruct (Qle_bool 0 q) eqn:E.
  - apply Qle_bool_iff in E. destruct (Qfloor_bounds q) as [Hlo Hhi].
    assert (H0 : (0 <= inject_Z (Qfloor q))%Q).
    { change 0%Q with (inject_Z 0). rewrite <- Zle_Qle.
      rewrite <- (Qfloor_Z 0). now apply Qfloor_resp_le. }
    split.
    + rewrite !Qabs_pos by assumption. exact Hlo.
    + apply Qabs_Qlt_condition. split; Lqa.lra.
  - apply Qle_bool_false in E.
    pose proof (Qle_ceiling q) as Hhi. pose proof (Qceiling_lt q) as Hlo.
    unfold Z.sub in Hlo. rewrite inject_Z_plus in Hlo.
    change (inject_Z (- (1))) with (- (1 # 1))%Q in Hlo.
    assert (H0 : (inject_Z (Qceiling q) <= 0)%Q).
    { change 0%Q with (inject_Z 0). rewrite <- Zle_Qle.
      rewrite <- (Qceiling_Z 0). apply Qceiling_resp_le. now apply Qlt_le_weak. }
    split.
    + rewrite !Qabs_neg by (try assumption; now apply Qlt_le_weak). Lqa.lra.
    + apply Qabs_Qlt_condition. split; Lqa.lra.
Qed.

(** The exact division is within the bounds assumed of a float32
    division. *)
Lemma float32_division_exact : float32_division Qdiv.
Proof.
  intros a b Hb _. split.
  - assert (E : (a / b - a / b == 0)%Q) by ring.
    rewrite E. change (Qabs 0) with 0%Q.
    pose proof (Qabs_nonneg (a / b)). unfold float32_eps, float32_tiny.
    set (A := Qabs (a / b)) in *. Lqa.lra.
  - intros Ha. rewrite Ha. unfold Qdiv. ring.
Qed.

(** The int16 sample of an input within [-1, 1]: the conversion does not
    wrap, and the sample is less than one step and a float32 error away
    from 32767 x. *)
Lemma denormalized_sample (tensor_div : Q -> Q -> Q) (x : Q) :
  float32_division tensor_div -> (- (1) <= x)%Q -> (x <= 1)%Q ->
  -32767 <= astype_int16 (tensor_div x denormalizer_factor) <= 32767 /\
  (Qabs (inject_Z (astype_int16 (tensor_div x denormalizer_factor)) - 32767 * x)
   < 1 + (1 # 100))%Q.
Proof.
  intros Hdiv Hlo Hhi.
  set (d := tensor_div x denormalizer_factor).
  assert (E : (x / denormalizer_factor == 32767 * x)%Q).
  { unfold denormalizer_factor. change (inject_Z (2 ^ 15 - 1)) with (32767 # 1). field. }
  assert (HA : (Qabs (32767 * x) <= 32767)%Q).
  { apply Qabs_Qle_condition. split; Lqa.lra. }
  destruct (Hdiv x denormalizer_factor) as [Hd _].
  { discriminate. }
  { rewrite E. Lqa.lra. }
  fold d in Hd. rewrite E in Hd.
  unfold float32_eps, float32_tiny in Hd.
  set (A := Qabs (32767 * x)) in *.
  apply Qabs_Qle_condition in Hd. destruct Hd as [Hd1 Hd2].
  destruct (py_int_bounds d) as [Hk1 Hk2].
  apply Qabs_Qlt_condition in Hk2. destruct Hk2 as [Hk2 Hk3].
  set (k := py_int d) in *.
  assert (HkQ : (- (32768 # 1) < inject_Z k /\ inject_Z k < 32768 # 1)%Q).
  { pose proof (Qabs_nonneg (32767 * x)).
    assert (Hdabs : (Qabs d < 32768 # 1)%Q).
    { apply Qabs_Qlt_condition. fold A in H. split; Lqa.lra. }
    apply Qabs_Qlt_condition. Lqa.lra. }
  destruct HkQ as [HkQ1 HkQ2].
  change (- (32768 # 1))%Q with (inject_Z (-32768)) in HkQ1.
  change (32768 # 1)%Q with (inject_Z 32768) in HkQ2.
  rewrite <- Zlt_Qlt in HkQ1, HkQ2.
  assert (Hk : astype_int16 d = k).
  { unfold astype_int16. fold k.
    destruct (Z.leb_spec (-2147483648) k); [|lia].
    destruct (Z.leb_spec k 2147483647); [|lia].
    cbn [andb]. unfold wrap16. rewrite Z.mod_small by lia. lia. }
  rewrite Hk. split; [lia|].
  pose proof (Qabs_nonneg (32767 * x)) as HA0. fold A in HA0.
  apply Qabs_Qlt_condition. split; Lqa.lra.
Qed.

(** The round trip of a sample within [-1, 1] through the denormalizer,
    int16 and the normalizer ends less than one step of the 16-bit grid
    and a float32 error away from the sample. *)
Lemma quantize_close (tensor_div : Q -> Q -> Q) (x : Q) :
  float32_division tensor_div -> (- (1) <= x)%Q -> (x <= 1)%Q ->
  (Qabs (quantize tensor_div x - x) < (1 # 32767) + (1 # 1048576))%Q.
Proof.
  intros Hdiv Hlo Hhi.
  destruct (denormalized_sample tensor_div x Hdiv Hlo Hhi) as [Hk Hkx].
  unfold quantize.
  set (k := astype_int16 (tensor_div x denormalizer_factor)) in *.
  assert (E : (inject_Z k / normalizer_factor == inject_Z k * (1 # 32767))%Q)
    by reflexivity.
  assert (HK : (- (32767 # 1) <= inject_Z k /\ inject_Z k <= 32767 # 1)%Q).
  { change (- (32767 # 1))%Q with (inject_Z (-32767)).
    change (32767 # 1)%Q with (inject_Z 32767).
    rewrite <- !Zle_Qle. lia. }
  assert (HA : (Qabs (inject_Z k * (1 # 32767)) <= 1)%Q).
  { apply Qabs_Qle_condition. split; Lqa.lra. }
  destruct (Hdiv (inject_Z k) normalizer_factor) as [Hd _].
  { discriminate. }
  { rewrite E. Lqa.lra. }
  rewrite E in Hd. unfold float32_eps, float32_tiny in Hd.
  pose proof (Qabs_nonneg (inject_Z k * (1 # 32767))) as HA0.
  set (A := Qabs (inject_Z k * (1 # 32767))) in *.
  apply Qabs_Qle_condition in Hd. destruct Hd as [Hd1 Hd2].
  apply Qabs_Qlt_condition in Hkx. destruct Hkx as [Hk1 Hk2].
  apply Qabs_Qlt_condition. split; Lqa.lra.
Qed.

(** Without a region the outer call returns the round trip of every
    sample. *)
Lemma Chopper_call_no_region_run (is_speech : list Z -> Z -> bool)
      (tensor_div : Q -> Q -> Q) (self : Chopper)
      (wav : list Q) (srate : Z) (w : world) :
  vad_wav is_speech (map astype_int16 (Scale_call tensor_div denormalizer_factor wav))
          srate = Ok [] ->
  exists w',
    Chopper_call is_speech tensor_div self wav srate w
    = Ok ((map (quantize tensor_div) wav, if ch_report self then Some [] else None), w').
Proof.
  intros Hvad.
  set (samples := map astype_int16 (Scale_call tensor_div denormalizer_factor wav)) in *.
  set (w1 := mkWorld (heap w ++ [samples]) (py_tape w) (py_pos w)
                     (np_uniform w) (np_upos w) (np_normal w) (np_npos w)).
  assert (Hread : heap_read (length (heap w)) w1 = Ok (samples, w1)).
  { unfold heap_read, w1. simpl. now rewrite nth_error_snoc. }
  assert (Hout : Scale_call tensor_div normalizer_factor (map inject_Z samples)
                 = map (quantize tensor_div) wav).
  { unfold samples, Scale_call, quantize. now rewrite !map_map. }
  exists w1. unfold Chopper_call. fold samples.
  rewrite (bind_Ok (heap_alloc samples) _ w w1 (length (heap w)) eq_refl). cbv beta.
  rewrite (bind_Ok _ _ _ _ _ Hread). cbv beta.
  rewrite (bind_Ok _ _ _ _ _ (lift_Ok _ _ w1 Hvad)). cbv beta.
  rewrite (bind_Ok (chop_wav self (length (heap w)) srate []) _ w1 w1 _ eq_refl).
  cbv beta. rewrite (bind_Ok _ _ _ _ _ Hread). cbv beta.
  rewrite Hout. now destruct (ch_report self).
Qed.

(** C9, as amended. When no region is found, [chop_wav] returns the very
    buffer it was given and leaves the world alone; the outer call
    returns as many samples as it was given, and a sample within
    [-1, 1] comes back less than one step of the 16-bit grid (and a
    float32 rounding) away from what it was: |y - x| < 1/32767 + 2^-20,
    whatever the rounding of the two float32 divisions. It does not in
    general come back as it was. *)
Theorem Chopper_call_without_regions (is_speech : list Z -> Z -> bool)
        (tensor_div : Q -> Q -> Q) (self : Chopper)
        (wav : list Q) (srate : Z) (w : world) :
  float32_division tensor_div ->
  vad_wav is_speech (map astype_int16 (Scale_call tensor_div denormalizer_factor wav))
          srate = Ok [] ->
  (forall a w0, chop_wav self a srate [] w0 = Ok (a, w0)) /\
  (exists out w',
      Chopper_call is_speech tensor_div self wav srate w
      = Ok ((out, if ch_report self then Some [] else None), w') /\
      length out = length wav /\
      forall i x y,
        nth_error wav i = Some x -> nth_error out i = Some y ->
        (- (1) <= x)%Q -> (x <= 1)%Q ->
        (Qabs (y - x) < (1 # 32767) + (1 # 1048576))%Q).
Proof.
  intros Hdiv Hvad. split; [reflexivity|].
  destruct (Chopper_call_no_region_run is_speech tensor_div self wav srate w Hvad)
    as [w' Hrun].
  exists (map (quantize tensor_div) wav), w'. split; [exact Hrun|]. split.
  - apply length_map.
  - intros i x y Hx Hy Hlo Hhi. rewrite nth_error_map, Hx in Hy.
    injection Hy as <-. now apply quantize_close.
Qed.

Lemma Chopper_call_without_regions_witness :
  let self := mkChopper [(1 # 20, 1 # 40); (1 # 10, 1 # 20)]%Q 2 false in
  let wav := [1 # 2; 1 # 32767]%Q in
  float32_division Qdiv /\
  vad_wav always_speech (map astype_int16 (Scale_call Qdiv denormalizer_factor wav)) 16000
  = Ok [] /\
  exists out w',
    Chopper_call always_speech Qdiv self wav 16000 (constant_world [] 0 0)
    = Ok ((out, None), w') /\
    length out = length wav.
Proof.
  split; [exact float32_division_exact|]. split; [reflexivity|].
  destruct (Chopper_call_without_regions always_speech Qdiv
              (mkChopper [(1 # 20, 1 # 40); (1 # 10, 1 # 20)]%Q 2 false)
              [1 # 2; 1 # 32767]%Q 16000 (constant_world [] 0 0)
              float32_division_exact eq_refl)
    as [_ [out [w' [Hcall [Hlen _]]]]].
  exists out, w'. split; [exact Hcall|exact Hlen].
Defined.

(** A sample of 0.5 comes back lower, whatever the rounding of the two
    divisions: 0.5 * 32767 = 16383.5 is cut to 16383. *)
Lemma quantize_half_lower (tensor_div : Q -> Q -> Q) :
  float32_division tensor_div -> (quantize tensor_div (1 # 2) < 1 # 2)%Q.
Proof.
  intros Hdiv. unfold quantize.
  set (d := tensor_div (1 # 2) denormalizer_factor).
  assert (E : ((1 # 2) / denormalizer_factor == 32767 # 2)%Q) by reflexivity.
  destruct (Hdiv (1 # 2) denormalizer_factor) as [Hd _].
  { discriminate. }
  { rewrite E. discriminate. }
  fold d in Hd. rewrite E in Hd. change (Qabs (32767 # 2)) with (32767 # 2)%Q in Hd.
  unfold float32_eps, float32_tiny in Hd.
  apply Qabs_Qle_condition in Hd. destruct Hd as [Hd1 Hd2].
  assert (Hk : astype_int16 d = 16383).
  { unfold astype_int16, py_int.
    assert (H0 : Qle_bool 0 d = true) by (apply Qle_bool_iff; Lqa.lra).
    rewrite H0. destruct (Qfloor_bounds d) as [Hf1 Hf2].
    assert (Hf : Qfloor d = 16383).
    { assert (H1 : (inject_Z (Qfloor d) < inject_Z 16384)%Q)
        by (change (inject_Z 16384) with (16384 # 1)%Q; Lqa.lra).
      assert (H2 : (inject_Z 16382 < inject_Z (Qfloor d))%Q)
        by (change (inject_Z 16382) with (16382 # 1)%Q; Lqa.lra).
      rewrite <- Zlt_Qlt in H1, H2. lia. }
    rewrite Hf. reflexivity. }
  rewrite Hk.
  assert (E2 : (inject_Z 16383 / normalizer_factor == 16383 # 32767)%Q) by reflexivity.
  destruct (Hdiv (inject_Z 16383) normalizer_factor) as [Ho _].
  { discriminate. }
  { rewrite E2. discriminate. }
  rewrite E2 in Ho. change (Qabs (16383 # 32767)) with (16383 # 32767)%Q in Ho.
  unfold float32_eps, float32_tiny in Ho.
  apply Qabs_Qle_condition in Ho. Lqa.lra.
Qed.

(** C9, as stated, fails at the outer call: a one-sample buffer holding
    0.5 has no region, and comes back as 16383/32767 when the two
    divisions are exact, and lower than 0.5 whatever their rounding. *)
Lemma Chopper_call_changes_off_grid_sample :
  let self := mkChopper [(1 # 20, 1 # 40); (1 # 10, 1 # 20)]%Q 2 false in
  (vad_wav always_speech (map astype_int16 (Scale_call Qdiv denormalizer_factor [1 # 2]%Q))
           16000
   = Ok [] /\
   exists y w',
     Chopper_call always_speech Qdiv self [1 # 2]%Q 16000 (constant_world [] 0 0)
     = Ok (([y], None), w') /\
     (y == 16383 # 32767)%Q /\ ~ (y == 1 # 2)%Q) /\
  (forall tensor_div : Q -> Q -> Q,
      float32_division tensor_div ->
      exists y w',
        Chopper_call always_speech tensor_div self [1 # 2]%Q 16000 (constant_world [] 0 0)
        = Ok (([y], None), w') /\
        (y < 1 # 2)%Q).
Proof.
  split.
  - split; [reflexivity|].
    eexists. eexists. split; [vm_compute; reflexivity|].
    split; [reflexivity|]. intros H. vm_compute in H. discriminate.
  - intros tensor_div Hdiv.
    destruct (Chopper_call_no_region_run always_speech tensor_div
                (mkChopper [(1 # 20, 1 # 40); (1 # 10, 1 # 20)]%Q 2 false)
                [1 # 2]%Q 16000 (constant_world [] 0 0)) as [w' Hrun].
    { unfold Scale_call. cbn [map].
      generalize (astype_int16 (tensor_div (1 # 2) denormalizer_factor)). intros k.
      reflexivity. }
    exists (quantize tensor_div (1 # 2)), w'.
    split; [exact Hrun|now apply quantize_half_lower].
Qed.

(** ** Chopper.chop_wav: what a chop zeroes *)

(** C10. A buffer of 400 samples whose first window is speech has the
    region (0, 80, 160). With the chop factor (0.05, 0.025) and a normal
    draw of -2.5 the duration is -200 samples, the window computed is
    chop_beg = 180, chop_end = -20, and the slice [180:-20] zeroes
    samples 180 .. 379: samples outside the window, and outside the
    region, are changed. The caller's buffer, at address 0, is not.
    (These are the numbers of exact arithmetic. In binary64 the
    duration is 0.05 - 2.5 * 0.025 = -0.012499999999999997 s, that is
    -199 samples, the window is chop_beg = 179, chop_end = -19, and the
    slice zeroes samples 179 .. 380: the same samples and two more.) *)
Theorem chop_wav_zeroes_outside_window :
  let wav := repeat 1 160 ++ [0] ++ repeat 1 239 in
  let self := mkChopper [(1 # 20, 1 # 40); (1 # 10, 1 # 20)]%Q 2 false in
  let w := constant_world [wav] 0 (- (5 # 2)) in
  exists r w',
    vad_wav first_sample_vad wav 16000 = Ok [r] /\
    reg_beg r = 0 /\ (reg_center r == 80 # 1)%Q /\ reg_dur r = 160 /\
    chop_bounds 16000 r (1 # 20) (1 # 40) (- (5 # 2)) = (180, -20) /\
    chop_wav self 0%nat 16000 [r] w = Ok (1%nat, w') /\
    nth_error (heap w') 0 = Some wav /\
    nth_error (heap w') 1
    = Some (repeat 1 160 ++ [0] ++ repeat 1 19 ++ repeat 0 200 ++ repeat 1 20) /\
    nth 200 wav 0 = 1 /\
    ~ (180 <= 200 < -20).
Proof.
  eexists. eexists. split; [vm_compute; reflexivity|].
  split; [reflexivity|]. split; [reflexivity|]. split; [reflexivity|].
  split; [reflexivity|]. split; [vm_compute; reflexivity|].
  split; [reflexivity|]. split; [reflexivity|]. split; [reflexivity|]. lia.
Qed.

(** * Further properties *)

(** ** PCompose and SwitchCompose *)

(** X1. With [probs = 1] and outcomes of [random.random()] in [0, 1),
    [PCompose] applies every transform, in list order (the transforms are
    assumed to leave the tape of [random] as it is). *)
Theorem PCompose_probs_one_applies_all (self : PCompose) (tensor : pyval) (w : world) :
  pc_probs self = 1%Q ->
  (forall t x w0 r w', In t (pc_transforms self) -> t x w0 = Ok (r, w') ->
                       py_tape w' = py_tape w0) ->
  (forall n, py_tape w n < 1)%Q ->
  PCompose_call self tensor w
  = bind (apply_in_order (pc_transforms self) tensor [])
         (fun xr => if pc_report self then ret (Tuple [fst xr; Tuple (snd xr)])
                    else ret (fst xr)) w.
Proof.
  intros Hp Hkeep Hw. unfold PCompose_call, bind. rewrite Hp.
  rewrite (PCompose_p1_applies_all _ Hkeep _ _ _ Hw).
  destruct (apply_in_order _ _ _ w) as [[[x rs] w1]|e]; reflexivity.
Qed.

Lemma PCompose_probs_one_applies_all_witness :
  let self := mkPCompose [mute; mute] 1 false in
  let w := constant_world [] (1 # 2) 0 in
  (forall n, py_tape w n < 1)%Q /\
  exists w',
    PCompose_call self (Tensor [1; 2; 3]%Q) w = Ok (Tensor [0; 0; 0]%Q, w').
Proof.
  split; [intros n; reflexivity|].
  eexists.
  rewrite (PCompose_probs_one_applies_all (mkPCompose [mute; mute] 1 false)
             (Tensor [1; 2; 3]%Q) (constant_world [] (1 # 2) 0)).
  - vm_compute. reflexivity.
  - reflexivity.
  - intros t x w0 r w' [<-|[<-|[]]] H; unfold mute, ret in H; now injection H as _ <-.
  - intros n. reflexivity.
Defined.

(** X2. With [probs = 0] and every outcome of [random.random()] strictly
    positive, [PCompose] runs no transform and returns its input (with an
    empty list of reports when reports are asked for). *)
Theorem PCompose_probs_zero_is_identity (self : PCompose) (tensor : pyval) (w : world) :
  pc_probs self = 0%Q ->
  (forall n, 0 < py_tape w n)%Q ->
  PCompose_call self tensor w
  = Ok (if pc_report self then Tuple [tensor; Tuple []] else tensor,
        skip_random (length (pc_transforms self)) w).
Proof.
  intros Hp Hw. unfold PCompose_call, bind. rewrite Hp.
  rewrite (PCompose_p0_positive_draws _ _ _ _ Hw).
  now destruct (pc_report self).
Qed.

Lemma PCompose_probs_zero_is_identity_witness :
  let self := mkPCompose [mute; mute] 0 true in
  let w := constant_world [] (1 # 2) 0 in
  (forall n, 0 < py_tape w n)%Q /\
  PCompose_call self (Tensor [1; 2; 3]%Q) w
  = Ok (Tuple [Tensor [1; 2; 3]%Q; Tuple []], skip_random 2 w).
Proof.
  split; [intros n; reflexivity|].
  apply (PCompose_probs_zero_is_identity (mkPCompose [mute; mute] 0 true)
           (Tensor [1; 2; 3]%Q) (constant_world [] (1 # 2) 0)).
  - reflexivity.
  - intros n. reflexivity.
Defined.

(** X3. A transform that returns a tensor of exactly two samples is
    taken for a pair (x, report) by the test [len(x) == 2]: the pipeline
    goes on with the first sample, a 0-d tensor, and files the second
    sample as the report. *)
Theorem PCompose_splits_two_sample_tensor (t : transform) (probs : Q) (x : pyval)
        (a b : Q) (w w1 : world) :
  (py_tape w (py_pos w) <= probs)%Q ->
  t x (skip_random 1 w) = Ok (Tensor [a; b], w1) ->
  PCompose_call (mkPCompose [t] probs false) x w = Ok (Item a, w1) /\
  PCompose_call (mkPCompose [t] probs true) x w
  = Ok (Tuple [Item a; Tuple [Item b]], w1).
Proof.
  intros Hu Ht. apply Qle_bool_iff in Hu.
  assert (Hloop : PCompose_loop [t] probs x [] w = Ok ((Item a, [Item b]), w1)).
  { simpl PCompose_loop. rewrite (bind_Ok random_random _ w _ _ eq_refl). cbv beta.
    rewrite Hu. unfold skip_random in Ht. simpl in Ht.
    rewrite (bind_Ok _ _ _ _ _ Ht). reflexivity. }
  unfold PCompose_call. simpl pc_transforms. simpl pc_probs.
  now rewrite !(bind_Ok _ _ _ _ _ Hloop).
Qed.

Lemma PCompose_splits_two_sample_tensor_witness :
  let t : transform := fun x => ret x in
  let w := constant_world [] (1 # 4) 0 in
  (py_tape w (py_pos w) <= 4 # 10)%Q /\
  PCompose_call (mkPCompose [t] (4 # 10) false) (Tensor [1 # 2; 1 # 3]) w
  = Ok (Item (1 # 2), skip_random 1 w).
Proof.
  split; [discriminate|].
  apply (PCompose_splits_two_sample_tensor (fun x => ret x) (4 # 10)
           (Tensor [1 # 2; 1 # 3]) (1 # 2) (1 # 3) (constant_world [] (1 # 4) 0)).
  - discriminate.
  - reflexivity.
Defined.

Lemma random_choice_Ok {A : Type} (pool : list A) (d : A) (w : world) :
  pool <> [] ->
  random_choice pool w
  = Ok (nth (pick_index (length pool) (py_tape w (py_pos w))) pool d, skip_random 1 w).
Proof.
  destruct pool as [|a pool]; [congruence|]. intros _.
  unfold random_choice, bind, random_random, ret, skip_random. do 2 f_equal.
  apply nth_indep. apply pick_index_lt. simpl. lia.
Qed.

(** [random.choice] over the indexes of a non-empty list draws a valid
    index. *)
Lemma random_choice_seq (n : nat) (w : world) :
  (0 < n)%nat ->
  random_choice (seq 0 n) w
  = Ok (pick_index n (py_tape w (py_pos w)), skip_random 1 w).
Proof.
  intros Hn. rewrite (random_choice_Ok _ 0%nat) by (destruct n; [lia|discriminate]).
  rewrite length_seq, seq_nth by (apply pick_index_lt; lia). reflexivity.
Qed.

(** X4. [SwitchCompose] on a non-empty list runs exactly one transform,
    a member of the list, on its input, after the draw (which leaves the
    heap as it is), and returns what that transform returns, unpacked;
    the subscript [self.transforms[idx]] never fails. On an empty list
    [random.choice] raises IndexError. *)
Theorem SwitchCompose_applies_one (ts : list transform) (report : bool) (x : pyval)
        (w : world) :
  (ts = [] /\ SwitchCompose_call (mkSwitchCompose ts report) x w = Raise IndexError) \/
  (exists t w1, In t ts /\ heap w1 = heap w /\
                SwitchCompose_call (mkSwitchCompose ts report) x w
                = (r <- t x ;; SwitchCompose_result (mkSwitchCompose ts report) r) w1).
Proof.
  destruct ts as [|t0 ts]; [left; now split|right].
  set (all := t0 :: ts).
  assert (Hlen : (0 < length all)%nat) by (simpl; lia).
  pose proof (pick_index_lt (length all) (py_tape w (py_pos w)) Hlen) as Hi.
  destruct (nth_error all (pick_index (length all) (py_tape w (py_pos w))))
    as [t|] eqn:Et; [|apply nth_error_None in Et; lia].
  exists t, (skip_random 1 w). split; [eapply nth_error_In; exact Et|].
  split; [reflexivity|].
  unfold SwitchCompose_call. cbn [sc_transforms].
  rewrite (bind_Ok _ _ _ _ _ (random_choice_seq (length all) w Hlen)). cbv beta.
  rewrite Et. reflexivity.
Qed.

(** ** Additive: noise injection *)

Lemma len_py_slice {A : Type} (l : list A) (b n : Z) :
  0 <= b -> 0 <= n -> b + n <= len l ->
  length (py_slice l b (b + n)) = Z.to_nat n.
Proof.
  intros Hb Hn Hlen. unfold py_slice, norm_index, len in *.
  destruct (Z.ltb_spec b 0); [lia|]. destruct (Z.ltb_spec (b + n) 0); [lia|].
  rewrite length_firstn, length_skipn. lia.
Qed.

Lemma length_map2 {A B C : Type} (f : A -> B -> C) (a : list A) :
  forall b : list B, length a = length b -> length (map2 f a b) = length a.
Proof.
  induction a as [|x a IH]; intros [|y b] H; simpl in *; try congruence.
  f_equal. apply IH. congruence.
Qed.

(** X5. When [addnoise_asl] returns, the bounds of the noise segment it
    reports are (start, start + x_len) with start between 1 and
    noise_len - x_len + 1: the first sample of the noise is never used. *)
Theorem addnoise_asl_noise_bounds
        (asl_P56 : list Q -> Z -> Z -> Q * Q * option Q) (np_sqrt pow10 : Q -> Q)
        (clean noise : list Q) (srate nbits snr : Z) (do_IRS : bool)
        (w w' : world) (noisy : list Q) (b e : Z) :
  (0 <= np_uniform w (np_upos w))%Q -> (np_uniform w (np_upos w) < 1)%Q ->
  addnoise_asl asl_P56 np_sqrt pow10 clean noise srate nbits snr do_IRS w
  = Ok ((noisy, (b, e)), w') ->
  1 <= b <= len noise - len clean + 1 /\ e = b + len clean.
Proof.
  intros Hu0 Hu1. unfold addnoise_asl. destruct do_IRS; [discriminate|].
  cbv [bind lift]. destruct (asl_P56 clean srate nbits) as [[Px asl] c0].
  destruct (len noise <=? len clean) eqn:E; [discriminate|].
  apply Z.leb_gt in E. cbv [np_random_rand ret].
  destruct (np_add _ _) as [out|err]; [|discriminate].
  intros [= _ <- <- _]. split; [|reflexivity].
  now apply rand_start_range.
Qed.

Lemma addnoise_asl_noise_bounds_witness :
  let w := constant_world [] (1 # 10) 0 in
  (0 <= np_uniform w (np_upos w))%Q /\ (np_uniform w (np_upos w) < 1)%Q /\
  exists noisy w',
    addnoise_asl silent_asl unreached unreached [1 # 2; - (1 # 2)]%Q [1; 1; 1; 1]%Q
                 16000 16 0 false w
    = Ok ((noisy, (1, 3)), w') /\
    1 <= 1 <= len [1; 1; 1; 1]%Q - len [1 # 2; - (1 # 2)]%Q + 1.
Proof.
  split; [discriminate|]. split; [reflexivity|].
  eexists. eexists. split; [vm_compute; reflexivity|].
  eapply (addnoise_asl_noise_bounds silent_asl unreached unreached
            [1 # 2; - (1 # 2)]%Q [1; 1; 1; 1]%Q 16000 16 0 false
            (constant_world [] (1 # 10) 0)).
  - discriminate.
  - reflexivity.
  - vm_compute. reflexivity.
Defined.

(** X6. With the IRS flag off, a sample rate and a bit depth on which
    [asl_P56] returns, a noise longer than the clean buffer and a start
    that leaves [x_len] samples (start + x_len <= noise_len),
    [addnoise_asl] returns a buffer of the length of the clean one. *)
Theorem addnoise_asl_returns_clean_length
        (np_exp np_log10 : Q -> Q) (fuel_asl : nat)
        (asl_P56 : list Q -> Z -> Z -> Q * Q * option Q) (np_sqrt pow10 : Q -> Q)
        (clean noise : list Q) (srate nbits snr : Z) (w : world) :
  asl_P56_returns np_exp np_log10 pow10 fuel_asl asl_P56 clean srate nbits ->
  len clean < len noise ->
  (0 <= np_uniform w (np_upos w))%Q -> (np_uniform w (np_upos w) < 1)%Q ->
  rand_start_of (len noise) (len clean) (np_uniform w (np_upos w)) + len clean
  <= len noise ->
  exists noisy b w',
    addnoise_asl asl_P56 np_sqrt pow10 clean noise srate nbits snr false w
    = Ok ((noisy, (b, b + len clean)), w') /\
    length noisy = length clean.
Proof.
  intros [Px [asl [c0 [_ Hasl]]]] Hlen Hu0 Hu1 Hfit.
  pose proof (rand_start_range _ _ _ Hlen Hu0 Hu1) as Hrs.
  unfold addnoise_asl. cbv [bind lift]. rewrite Hasl.
  destruct (Z.leb_spec (len noise) (len clean)); [lia|].
  cbv [np_random_rand ret].
  set (rs := rand_start_of (len noise) (len clean) (np_uniform w (np_upos w))) in *.
  assert (Hseg : length (py_slice noise rs (rs + len clean)) = length clean).
  { rewrite len_py_slice by (unfold len in *; lia). unfold len. lia. }
  set (seg := map _ (py_slice noise rs (rs + len clean))).
  assert (Hseg' : length clean = length seg).
  { unfold seg. now rewrite length_map. }
  unfold np_add. rewrite Hseg'. rewrite Nat.eqb_refl.
  eexists. exists rs. eexists. split; [reflexivity|].
  rewrite length_map2; [rewrite <- Hseg'; reflexivity|].
  now rewrite <- Hseg'.
Qed.

Lemma addnoise_asl_returns_clean_length_witness :
  let w := constant_world [] (1 # 10) 0 in
  let clean := [1 # 100000; - (1 # 100000)]%Q in
  let noise := [1; 1; 1; 1]%Q in
  asl_P56_returns (fun _ => 1 # 2) unreached unreached 0 silent_asl clean 16000 16 /\
  len clean < len noise /\
  rand_start_of (len noise) (len clean) (np_uniform w (np_upos w)) + len clean
  <= len noise /\
  exists noisy b w',
    addnoise_asl silent_asl unreached unreached clean noise 16000 16 0 false w
    = Ok ((noisy, (b, b + len clean)), w') /\
    length noisy = length clean.
Proof.
  assert (Hasl : asl_P56_returns (fun _ => 1 # 2) unreached unreached 0 silent_asl
                                 [1 # 100000; - (1 # 100000)]%Q 16000 16).
  { exists 0%Q, 0%Q, None. split; vm_compute; reflexivity. }
  split; [exact Hasl|]. split; [reflexivity|]. split; [vm_compute; discriminate|].
  apply (addnoise_asl_returns_clean_length (fun _ => 1 # 2) unreached 0
           silent_asl unreached unreached
           [1 # 100000; - (1 # 100000)]%Q [1; 1; 1; 1]%Q 16000 16 0
           (constant_world [] (1 # 10) 0)).
  - exact Hasl.
  - reflexivity.
  - discriminate.
  - reflexivity.
  - vm_compute. discriminate.
Defined.

Lemma declip_in_range (fuel : nat) (noisy out : list Q) :
  declip fuel noisy = Ok out ->
  Forall (fun v => - (1 # 1) <= v /\ v < 1)%Q out.
Proof.
  unfold declip. destruct (clips noisy) as [[|]|e] eqn:Hc; [| |discriminate].
  - destruct (declip_loop fuel noisy (1 # 10)) as [[o s]|e] eqn:Hl; [|discriminate].
    intros [= <-]. eapply declip_loop_in_range. exact Hl.
  - intros [= <-]. now apply clips_false_iff in Hc.
Qed.



(** On finite samples the loop stops: with enough fuel [declip]
    returns, and what it returns is within [-1, 1). *)
Lemma declip_terminates (noisy : list Q) :
  noisy <> [] ->
  exists fuel out,
    declip fuel noisy = Ok out /\
    Forall (fun v => - (1 # 1) <= v /\ v < 1)%Q out.
Proof.
  intros Hne. destruct (declip_loop_terminates noisy Hne) as [fuel [out [s [Hl Hr]]]].
  unfold declip. destruct (clips noisy) as [[|]|e] eqn:Hc.
  - exists fuel, out. now rewrite Hl.
  - exists fuel, noisy. split; [reflexivity|]. now apply clips_false_iff in Hc.
  - exfalso. unfold clips in Hc. destruct noisy as [|x t]; [congruence|].
    simpl in Hc. destruct (Qle_bool 1 _); discriminate.
Qed.

(** *** The loop on float64 buffers *)

Lemma fold_float_max_finite (t : list Q) :
  forall x, fold_left float_max (map Finite t) (Finite x) = Finite (fold_left Qmax t x).
Proof. induction t as [|y t IH]; intros x; [reflexivity|]. cbn. apply IH. Qed.

Lemma fold_float_min_finite (t : list Q) :
  forall x, fold_left float_min (map Finite t) (Finite x) = Finite (fold_left Qmin t x).
Proof. induction t as [|y t IH]; intros x; [reflexivity|]. cbn. apply IH. Qed.

(** On finite samples the test of the loop is the test on rationals. *)
Lemma clips_float_finite (l : list Q) : clips_float (map Finite l) = clips l.
Proof.
  destruct l as [|x t]; [reflexivity|].
  unfold clips_float, clips. cbn [map np_max_float np_min_float np_max np_min].
  rewrite fold_float_max_finite, fold_float_min_finite. reflexivity.
Qed.

Lemma declip_loop_float_finite (fuel : nat) :
  forall (l : list Q) (small : Q),
    declip_loop_float fuel (map Finite l) small
    = match declip_loop fuel l small with
      | Ok (out, s) => Ok (map Finite out, s)
      | Raise e => Raise e
      end.
Proof.
  induction fuel as [|fuel IH]; intros l small; [reflexivity|].
  cbn [declip_loop_float declip_loop]. rewrite clips_float_finite.
  destruct (clips l) as [[|]|e]; try reflexivity.
  rewrite map_map.
  rewrite <- (map_map (fun v => (v / (1 + small))%Q) Finite). apply IH.
Qed.

Lemma declip_float_finite (fuel : nat) (l : list Q) :
  declip_float fuel (map Finite l)
  = match declip fuel l with
    | Ok out => Ok (map Finite out)
    | Raise e => Raise e
    end.
Proof.
  unfold declip_float, declip. rewrite clips_float_finite.
  destruct (clips l) as [[|]|e]; try reflexivity.
  rewrite declip_loop_float_finite.
  destruct (declip_loop fuel l (1 # 10)) as [[out s]|e]; reflexivity.
Qed.

Lemma float_max_nan_l (b : float64) : float_max NaN b = NaN.
Proof. now destruct b. Qed.

Lemma float_max_nan_r (a : float64) : float_max a NaN = NaN.
Proof. now destruct a. Qed.

Lemma float_min_nan_l (b : float64) : float_min NaN b = NaN.
Proof. now destruct b. Qed.

Lemma float_min_nan_r (a : float64) : float_min a NaN = NaN.
Proof. now destruct a. Qed.

(** nan in the buffer is what [np.max] and [np.min] return. *)
Lemma fold_float_max_nan (t : list float64) :
  forall x, x = NaN \/ In NaN t -> fold_left float_max t x = NaN.
Proof.
  induction t as [|y t IH]; intros x [Hx|Ht]; cbn [fold_left].
  - exact Hx.
  - destruct Ht.
  - apply IH. left. subst x. apply float_max_nan_l.
  - destruct Ht as [->|Ht].
    + apply IH. left. apply float_max_nan_r.
    + apply IH. now right.
Qed.

Lemma fold_float_min_nan (t : list float64) :
  forall x, x = NaN \/ In NaN t -> fold_left float_min t x = NaN.
Proof.
  induction t as [|y t IH]; intros x [Hx|Ht]; cbn [fold_left].
  - exact Hx.
  - destruct Ht.
  - apply IH. left. subst x. apply float_min_nan_l.
  - destruct Ht as [->|Ht].
    + apply IH. left. apply float_min_nan_r.
    + apply IH. now right.
Qed.

Lemma clips_float_nan (noisy : list float64) :
  In NaN noisy -> clips_float noisy = Ok false.
Proof.
  intros H. destruct noisy as [|x t]; [destruct H|].
  unfold clips_float. cbn [np_max_float np_min_float].
  assert (H' : x = NaN \/ In NaN t) by (destruct H; [left; congruence|now right]).
  rewrite (fold_float_max_nan t x H'), (fold_float_min_nan t x H'). reflexivity.
Qed.

(** Without nan, an infinity in the buffer is what [np.max] (for +inf)
    or [np.min] (for -inf) returns. *)
Lemma fold_float_max_inf (t : list float64) :
  forall x, x <> NaN -> ~ In NaN t -> x = PosInf \/ In PosInf t ->
            fold_left float_max t x = PosInf.
Proof.
  induction t as [|y t IH]; intros x Hx Ht [Hp|Hp]; cbn [fold_left].
  - exact Hp.
  - destruct Hp.
  - assert (Hy : y <> NaN) by (intros ->; apply Ht; now left).
    apply IH.
    + subst x. destruct y; cbn; congruence.
    + intros Hn. apply Ht. now right.
    + left. subst x. destruct y; cbn; congruence.
  - assert (Hy : y <> NaN) by (intros ->; apply Ht; now left).
    destruct Hp as [->|Hp].
    + apply IH.
      * destruct x; cbn; congruence.
      * intros Hn. apply Ht. now right.
      * left. destruct x; cbn; congruence.
    + apply IH.
      * destruct x, y; cbn; congruence.
      * intros Hn. apply Ht. now right.
      * now right.
Qed.

Lemma fold_float_min_inf (t : list float64) :
  forall x, x <> NaN -> ~ In NaN t -> x = NegInf \/ In NegInf t ->
            fold_left float_min t x = NegInf.
Proof.
  induction t as [|y t IH]; intros x Hx Ht [Hp|Hp]; cbn [fold_left].
  - exact Hp.
  - destruct Hp.
  - assert (Hy : y <> NaN) by (intros ->; apply Ht; now left).
    apply IH.
    + subst x. destruct y; cbn; congruence.
    + intros Hn. apply Ht. now right.
    + left. subst x. destruct y; cbn; congruence.
  - assert (Hy : y <> NaN) by (intros ->; apply Ht; now left).
    destruct Hp as [->|Hp].
    + apply IH.
      * destruct x; cbn; congruence.
      * intros Hn. apply Ht. now right.
      * left. destruct x; cbn; congruence.
    + apply IH.
      * destruct x, y; cbn; congruence.
      * intros Hn. apply Ht. now right.
      * now right.
Qed.

Lemma clips_float_inf (noisy : list float64) :
  ~ In NaN noisy -> In PosInf noisy \/ In NegInf noisy -> clips_float noisy = Ok true.
Proof.
  intros Hn Hi. destruct noisy as [|x t]; [destruct Hi as [[]|[]]|].
  assert (Hx : x <> NaN) by (intros ->; apply Hn; now left).
  assert (Ht : ~ In NaN t) by (intros H; apply Hn; now right).
  unfold clips_float. cbn [np_max_float np_min_float].
  destruct Hi as [Hi|Hi].
  - rewrite (fold_float_max_inf t x Hx Ht); [reflexivity|].
    destruct Hi; [left; congruence|now right].
  - destruct (float_ge_1 (fold_left float_max t x)); [reflexivity|].
    rewrite (fold_float_min_inf t x Hx Ht); [reflexivity|].
    destruct Hi; [left; congruence|now right].
Qed.

(** The division of the loop keeps nan out and the infinities in. *)
Lemma float_div_keeps (d : Q) (noisy : list float64) :
  (~ In NaN noisy -> ~ In NaN (map (float_div d) noisy)) /\
  (In PosInf noisy \/ In NegInf noisy ->
   In PosInf (map (float_div d) noisy) \/ In NegInf (map (float_div d) noisy)).
Proof.
  split.
  - intros Hn H. apply in_map_iff in H. destruct H as [v [Hv Hin]].
    destruct v; try discriminate. now apply Hn.
  - intros [H|H]; [left|right];
      apply in_map_iff; eexists; (split; [|exact H]); reflexivity.
Qed.

Lemma declip_loop_float_inf (fuel : nat) :
  forall (noisy : list float64) (small : Q),
    ~ In NaN noisy -> In PosInf noisy \/ In NegInf noisy ->
    declip_loop_float fuel noisy small = Raise OutOfFuel.
Proof.
  induction fuel as [|fuel IH]; intros noisy small Hn Hi; [reflexivity|].
  cbn [declip_loop_float]. rewrite (clips_float_inf noisy Hn Hi).
  destruct (float_div_keeps (1 + small) noisy) as [H1 H2].
  apply IH; [now apply H1|now apply H2].
Qed.

(** X8. The loop of [Additive.__call__] against clipping, on float64
    buffers. On a non-empty buffer of finite samples it stops, and
    leaves every sample within [-1, 1). A buffer that holds a nan is
    returned as it is (both tests of the loop are false). On a buffer
    that holds an infinity and no nan the loop never stops: whatever
    the fuel, it runs out. *)
Theorem declip_float_stops :
  (forall l : list Q,
      l <> [] ->
      exists fuel out,
        declip_float fuel (map Finite l) = Ok (map Finite out) /\
        Forall (fun v => - (1 # 1) <= v /\ v < 1)%Q out) /\
  (forall noisy : list float64,
      In NaN noisy -> forall fuel, declip_float fuel noisy = Ok noisy) /\
  (forall noisy : list float64,
      ~ In NaN noisy -> In PosInf noisy \/ In NegInf noisy ->
      forall fuel, declip_float fuel noisy = Raise OutOfFuel).
Proof.
  split; [|split].
  - intros l Hne. destruct (declip_terminates l Hne) as [fuel [out [Hd Hr]]].
    exists fuel, out. split; [|exact Hr].
    rewrite declip_float_finite, Hd. reflexivity.
  - intros noisy Hn fuel. unfold declip_float.
    now rewrite (clips_float_nan noisy Hn).
  - intros noisy Hn Hi fuel. unfold declip_float.
    rewrite (clips_float_inf noisy Hn Hi).
    now rewrite (declip_loop_float_inf fuel noisy (1 # 10) Hn Hi).
Qed.

Lemma declip_float_stops_witness :
  (exists fuel out,
      declip_float fuel [Finite (7 # 2); Finite (- (9 # 1))] = Ok (map Finite out) /\
      Forall (fun v => - (1 # 1) <= v /\ v < 1)%Q out) /\
  declip_float 5 [Finite (3 # 2); NaN] = Ok [Finite (3 # 2); NaN] /\
  declip_float 5 [Finite (1 # 2); PosInf] = Raise OutOfFuel.
Proof.
  destruct declip_float_stops as [Hfin [Hnan Hinf]].
  split; [|split].
  - apply (Hfin [7 # 2; - (9 # 1)]%Q). discriminate.
  - apply Hnan. right. left. reflexivity.
  - apply Hinf.
    + intros [H|[H|[]]]; discriminate.
    + left. right. left. reflexivity.
Defined.

(** ** Additive.bin_interp: convergence *)

Lemma Qhalf (x : Q) : (x / 2 == x * (1 # 2))%Q.
Proof. reflexivity. Qed.

(** The midpoints never leave the box spanned by the bracket ends. *)
Lemma bin_iter_box (upcount lwcount upthr lwthr Margin C T : Q) (s s' : bin_state) :
  (- C <= upcount <= C)%Q -> (- C <= lwcount <= C)%Q ->
  (- T <= upthr <= T)%Q -> (- T <= lwthr <= T)%Q ->
  (- C <= midcount s <= C)%Q -> (- T <= midthr s <= T)%Q ->
  bin_iter upcount lwcount upthr lwthr Margin s = inl s' ->
  (- C <= midcount s' <= C)%Q /\ (- T <= midthr s' <= T)%Q /\
  iterno s' = iterno s + 1 /\
  tol s' = (if 20 <? iterno s + 1 then (tol s * (11 # 10))%Q else tol s).
Proof.
  intros Hu Hl Hut Hlt Hm Hmt. unfold bin_iter.
  destruct (Qle_bool _ (tol s)); [discriminate|].
  destruct (Qlt_bool _ _).
  - intros [= <-]. cbn [midcount midthr iterno tol]. rewrite !Qhalf.
    repeat split; try reflexivity; Lqa.lra.
  - destruct (Qlt_bool _ _); intros [= <-]; cbn [midcount midthr iterno tol];
      rewrite ?Qhalf; repeat split; try reflexivity; Lqa.lra.
Qed.

(** A pass stops exactly when the margin is met within the current
    tolerance, and returns the midpoints it was given. *)
Lemma bin_iter_stops (upcount lwcount upthr lwthr Margin : Q) (s : bin_state) :
  (Qabs (midcount s - midthr s - Margin) <= tol s)%Q ->
  bin_iter upcount lwcount upthr lwthr Margin s = inr (midcount s, midthr s).
Proof.
  intros H. unfold bin_iter. apply Qle_bool_iff in H. now rewrite H.
Qed.

Lemma bin_iter_returns (upcount lwcount upthr lwthr Margin : Q) (s : bin_state)
      (r : Q * Q) :
  bin_iter upcount lwcount upthr lwthr Margin s = inr r ->
  r = (midcount s, midthr s) /\
  (Qabs (midcount s - midthr s - Margin) <= tol s)%Q.
Proof.
  unfold bin_iter. destruct (Qle_bool _ (tol s)) eqn:E.
  - intros [= <-]. split; [reflexivity|]. now apply Qle_bool_iff.
  - destruct (Qlt_bool _ _); [discriminate|]. destruct (Qlt_bool _ _); discriminate.
Qed.

Lemma diff_in_box (mc mt Margin C T : Q) :
  (- C <= mc <= C)%Q -> (- T <= mt <= T)%Q ->
  (Qabs (mc - mt - Margin) <= C + T + Qabs Margin)%Q.
Proof.
  intros Hc Ht. apply Qabs_Qle_condition.
  pose proof (Qle_Qabs Margin). pose proof (Qle_Qabs (- Margin)).
  rewrite Qabs_opp in *. split; Lqa.lra.
Qed.

(** Once the tolerance is relaxed at every pass, it outgrows the box. *)
Lemma bin_loop_relaxing (upcount lwcount upthr lwthr Margin C T : Q) (n : nat) :
  (- C <= upcount <= C)%Q -> (- C <= lwcount <= C)%Q ->
  (- T <= upthr <= T)%Q -> (- T <= lwthr <= T)%Q ->
  forall s,
    (- C <= midcount s <= C)%Q -> (- T <= midthr s <= T)%Q ->
    20 <= iterno s -> (0 < tol s)%Q ->
    (C + T + Qabs Margin < tol s * (11 # 10) ^ Z.of_nat n)%Q ->
    exists r, bin_loop (S n) upcount lwcount upthr lwthr Margin s = Ok r.
Proof.
  intros Hu Hl Hut Hlt. induction n as [|n IH]; intros s Hm Hmt Hit Htol Hb.
  - change ((11 # 10) ^ Z.of_nat 0)%Q with 1%Q in Hb.
    cbn [bin_loop]. rewrite bin_iter_stops; [eexists; reflexivity|].
    pose proof (diff_in_box _ _ Margin _ _ Hm Hmt). Lqa.lra.
  - cbn [bin_loop].
    destruct (bin_iter upcount lwcount upthr lwthr Margin s) as [s'|r] eqn:E;
      [|eexists; reflexivity].
    destruct (bin_iter_box _ _ _ _ _ _ _ _ _ Hu Hl Hut Hlt Hm Hmt E)
      as [Hm' [Hmt' [Hit' Htol']]].
    destruct (Z.ltb_spec 20 (iterno s + 1)); [|lia].
    apply IH; try assumption; try lia.
    + rewrite Htol'. Lqa.lra.
    + rewrite Htol'.
      assert (Hstep : ((11 # 10) ^ Z.of_nat (S n) == (11 # 10) * (11 # 10) ^ Z.of_nat n)%Q).
      { rewrite Nat2Z.inj_succ. unfold Z.succ.
        rewrite Qpower_plus by discriminate. apply Qmult_comm. }
      rewrite Hstep in Hb. rewrite <- Qmult_assoc. exact Hb.
Qed.

(** Before that, at most [d] passes go by with the tolerance unchanged
    or relaxed. *)
Lemma bin_loop_reaches (upcount lwcount upthr lwthr Margin C T : Q) (n d : nat) :
  (- C <= upcount <= C)%Q -> (- C <= lwcount <= C)%Q ->
  (- T <= upthr <= T)%Q -> (- T <= lwthr <= T)%Q ->
  forall s,
    (- C <= midcount s <= C)%Q -> (- T <= midthr s <= T)%Q ->
    20 <= iterno s + Z.of_nat d -> (0 < tol s)%Q ->
    (C + T + Qabs Margin < tol s * (11 # 10) ^ Z.of_nat n)%Q ->
    exists r, bin_loop (d + S n) upcount lwcount upthr lwthr Margin s = Ok r.
Proof.
  intros Hu Hl Hut Hlt. induction d as [|d IH]; intros s Hm Hmt Hit Htol Hb.
  - apply (bin_loop_relaxing _ _ _ _ _ C T); try assumption. lia.
  - cbn [Nat.add bin_loop].
    destruct (bin_iter upcount lwcount upthr lwthr Margin s) as [s'|r] eqn:E;
      [|eexists; reflexivity].
    destruct (bin_iter_box _ _ _ _ _ _ _ _ _ Hu Hl Hut Hlt Hm Hmt E)
      as [Hm' [Hmt' [Hit' Htol']]].
    assert (Hge : (tol s <= tol s')%Q).
    { rewrite Htol'. destruct (20 <? iterno s + 1); Lqa.lra. }
    assert (Hp : (0 < (11 # 10) ^ Z.of_nat n)%Q) by (apply Qpower_0_lt; reflexivity).
    apply IH; try assumption; try lia; [Lqa.lra|].
    eapply Qlt_le_trans; [exact Hb|].
    apply Qmult_le_compat_r; [exact Hge|now apply Qlt_le_weak].
Qed.

Lemma Qabs_box (x : Q) : (- Qabs x <= x <= Qabs x)%Q.
Proof.
  pose proof (Qle_Qabs x). pose proof (Qle_Qabs (- x)) as H1.
  rewrite Qabs_opp in H1. split; Lqa.lra.
Qed.

(** With exact arithmetic [bin_interp] stops whenever the tolerance is
    not zero: after 20 passes the tolerance grows by 10% at each pass,
    while the midpoints stay within the bracket ends in magnitude. *)
Lemma bin_interp_exact_terminates (upcount lwcount upthr lwthr Margin tol0 : Q) :
  ~ (tol0 == 0)%Q ->
  exists fuel r, bin_interp fuel upcount lwcount upthr lwthr Margin tol0 = Ok r.
Proof.
  intros Hnz. unfold bin_interp.
  set (t := if Qlt_bool tol0 0 then (- tol0)%Q else tol0).
  assert (Ht : (0 < t)%Q).
  { unfold t. destruct (Qlt_bool tol0 0) eqn:E.
    - apply Qlt_bool_iff in E. Lqa.lra.
    - apply Qlt_bool_false in E.
      destruct (Qlt_le_dec 0 tol0) as [H|H]; [exact H|].
      exfalso. apply Hnz. Lqa.lra. }
  destruct (Qlt_bool (Qabs (upcount - upthr - Margin)) t); [exists 0%nat; eexists; reflexivity|].
  destruct (Qlt_bool (Qabs (lwcount - lwthr - Margin)) t); [exists 0%nat; eexists; reflexivity|].
  set (C := (Qabs upcount + Qabs lwcount)%Q).
  set (T := (Qabs upthr + Qabs lwthr)%Q).
  pose proof (Qabs_box upcount). pose proof (Qabs_box lwcount).
  pose proof (Qabs_box upthr). pose proof (Qabs_box lwthr).
  pose proof (Qabs_nonneg upcount). pose proof (Qabs_nonneg lwcount).
  pose proof (Qabs_nonneg upthr). pose proof (Qabs_nonneg lwthr).
  destruct (eleven_tenths_unbounded ((C + T + Qabs Margin) / t)) as [n Hn].
  assert (Hb : (C + T + Qabs Margin < t * (11 # 10) ^ Z.of_nat n)%Q).
  { assert (E : (C + T + Qabs Margin == (C + T + Qabs Margin) / t * t)%Q).
    { field. intros Hz. rewrite Hz in Ht. discriminate. }
    rewrite E, (Qmult_comm t). apply Qmult_lt_compat_r; assumption. }
  exists (20 + S n)%nat.
  apply (bin_loop_reaches _ _ _ _ _ C T n 20); cbn [midcount midthr iterno tol];
    unfold C, T; rewrite ?Qhalf; try (split; Lqa.lra); try lia; try assumption.
Qed.

(** X9. [bin_interp] stops on every input whose tolerance is, in
    magnitude, at least the smallest normal float64 (2^-1022: below it
    the product tol * 1.1 can round back to tol) and whose other
    arguments are at most 2^1000 in magnitude (so that no sum
    overflows): after 20 passes the tolerance grows by 10% at each
    pass, while the midpoints stay within the bracket ends. [asl_P56]
    calls it with a tolerance of 0.5. *)
Theorem bin_interp_terminates (upcount lwcount upthr lwthr Margin tol0 : Q) :
  (2 ^ (-1022) <= Qabs tol0)%Q ->
  (Qabs upcount <= 2 ^ 1000)%Q -> (Qabs lwcount <= 2 ^ 1000)%Q ->
  (Qabs upthr <= 2 ^ 1000)%Q -> (Qabs lwthr <= 2 ^ 1000)%Q ->
  (Qabs Margin <= 2 ^ 1000)%Q ->
  exists fuel r, bin_interp fuel upcount lwcount upthr lwthr Margin tol0 = Ok r.
Proof.
  intros Htol _ _ _ _ _. apply bin_interp_exact_terminates.
  intros Hz. rewrite Hz in Htol. change (Qabs 0) with 0%Q in Htol.
  assert (Hpos : (0 < 2 ^ (-1022))%Q) by (apply Qpower_0_lt; reflexivity).
  revert Htol Hpos. generalize (2 ^ (-1022))%Q. intros m Htol Hpos. Lqa.lra.
Qed.

Lemma bin_interp_terminates_witness :
  (2 ^ (-1022) <= Qabs (1 # 2))%Q /\
  exists fuel r,
    bin_interp fuel (- (20 # 1)) (- (21 # 1)) (- (30 # 1)) (- (36 # 1)) (159 # 10) (1 # 2)
    = Ok r.
Proof.
  split; [vm_compute; discriminate|].
  apply (bin_interp_terminates (- (20 # 1)) (- (21 # 1)) (- (30 # 1)) (- (36 # 1))
           (159 # 10) (1 # 2)); vm_compute; discriminate.
Defined.

Lemma bin_iter_counts (upcount lwcount upthr lwthr Margin : Q) (s s' : bin_state) :
  bin_iter upcount lwcount upthr lwthr Margin s = inl s' ->
  iterno s' = iterno s + 1 /\
  tol s' = (if 20 <? iterno s + 1 then (tol s * (11 # 10))%Q else tol s).
Proof.
  unfold bin_iter. destruct (Qle_bool _ (tol s)); [discriminate|].
  destruct (Qlt_bool _ _); [|destruct (Qlt_bool _ _)];
    intros [= <-]; split; reflexivity.
Qed.

(** What the loop returns within its first 20 passes meets the margin
    within the tolerance it started with. *)
Lemma bin_loop_within_tolerance (upcount lwcount upthr lwthr Margin : Q) (fuel : nat) :
  forall s mc mt,
    iterno s + Z.of_nat fuel <= 21 ->
    bin_loop fuel upcount lwcount upthr lwthr Margin s = Ok (mc, mt) ->
    (Qabs (mc - mt - Margin) <= tol s)%Q.
Proof.
  induction fuel as [|fuel IH]; intros s mc mt Hit H; [discriminate|].
  cbn [bin_loop] in H.
  destruct (bin_iter upcount lwcount upthr lwthr Margin s) as [s'|r] eqn:E.
  - destruct fuel as [|fuel']; [discriminate|].
    destruct (bin_iter_counts _ _ _ _ _ _ _ E) as [Hit' Htol'].
    destruct (Z.ltb_spec 20 (iterno s + 1)); [lia|].
    rewrite <- Htol'. apply IH; [lia|exact H].
  - destruct (bin_iter_returns _ _ _ _ _ _ _ E) as [-> Hd].
    injection H as <- <-. exact Hd.
Qed.

(** X10. When [bin_interp] answers within 20 passes, for a tolerance
    that is not negative and a bracket whose upper end does not already
    meet the margin, the pair it returns meets the margin within the
    tolerance: |count - threshold - Margin| <= tol. *)
Theorem bin_interp_within_tolerance
        (upcount lwcount upthr lwthr Margin tol0 : Q) (fuel : nat) (mc mt : Q) :
  (fuel <= 20)%nat -> (0 <= tol0)%Q ->
  (tol0 <= Qabs (upcount - upthr - Margin))%Q ->
  bin_interp fuel upcount lwcount upthr lwthr Margin tol0 = Ok (mc, mt) ->
  (Qabs (mc - mt - Margin) <= tol0)%Q.
Proof.
  intros Hfuel Htol Hup. unfold bin_interp.
  assert (E0 : Qlt_bool tol0 0 = false) by now apply Qlt_bool_false.
  rewrite E0.
  assert (E1 : Qlt_bool (Qabs (upcount - upthr - Margin)) tol0 = false)
    by now apply Qlt_bool_false.
  rewrite E1.
  destruct (Qlt_bool (Qabs (lwcount - lwthr - Margin)) tol0) eqn:E2.
  - intros [= <- <-]. apply Qlt_bool_iff in E2. now apply Qlt_le_weak.
  - intros H. apply bin_loop_within_tolerance in H; [exact H|].
    cbn [iterno]. lia.
Qed.

Lemma bin_interp_within_tolerance_witness :
  exists mc mt,
    bin_interp 20 (- (20 # 1)) (- (21 # 1)) (- (30 # 1)) (- (36 # 1)) (159 # 10) (1 # 2)
    = Ok (mc, mt) /\
    (Qabs (mc - mt - (159 # 10)) <= 1 # 2)%Q.
Proof.
  eexists. eexists. split; [vm_compute; reflexivity|].
  eapply (bin_interp_within_tolerance (- (20 # 1)) (- (21 # 1)) (- (30 # 1)) (- (36 # 1))
            (159 # 10) (1 # 2) 20).
  - lia.
  - discriminate.
  - vm_compute. discriminate.
  - vm_compute. reflexivity.
Defined.

(** ** Scale and the 16-bit conversion *)

(** X12. For a sample within [-1, 1], the conversion to int16 does not
    wrap (the integer is within -32767 .. 32767), and the sample comes
    back from the round trip less than one step of the grid and a
    float32 rounding away: |quantize x - x| < 1/32767 + 2^-20, whatever
    the rounding of the two float32 divisions. *)
Theorem quantize_error (tensor_div : Q -> Q -> Q) (x : Q) :
  float32_division tensor_div -> (- (1) <= x)%Q -> (x <= 1)%Q ->
  -32767 <= astype_int16 (tensor_div x denormalizer_factor) <= 32767 /\
  (Qabs (quantize tensor_div x - x) < (1 # 32767) + (1 # 1048576))%Q.
Proof.
  intros Hdiv Hlo Hhi. split.
  - exact (proj1 (denormalized_sample tensor_div x Hdiv Hlo Hhi)).
  - now apply quantize_close.
Qed.

Lemma quantize_error_witness :
  float32_division Qdiv /\
  (Qabs (quantize Qdiv (1 # 2) - (1 # 2)) < (1 # 32767) + (1 # 1048576))%Q.
Proof.
  split; [exact float32_division_exact|].
  apply (quantize_error Qdiv (1 # 2)); [exact float32_division_exact| |]; discriminate.
Defined.

(** ** Chopper.chop_wav: what a chop can do *)

Lemma norm_index_range (n i : Z) : 0 <= n -> 0 <= norm_index n i <= n.
Proof. intros Hn. unfold norm_index. destruct (Z.ltb_spec i 0); lia. Qed.

(** A slice assignment keeps the length of the array. *)
Lemma py_slice_assign_length {A : Type} (l : list A) (b e : Z) (v : A) :
  length (py_slice_assign l b e v) = length l.
Proof.
  unfold py_slice_assign.
  pose proof (norm_index_range (len l) b (Nat2Z.is_nonneg _)) as Hb.
  pose proof (norm_index_range (len l) e (Nat2Z.is_nonneg _)) as He.
  set (b' := norm_index (len l) b) in *. set (e' := norm_index (len l) e) in *.
  rewrite !length_app, length_firstn, repeat_length, length_skipn.
  unfold len in *. lia.
Qed.

(** Every element after a slice assignment is the value assigned or the
    element that was there. *)
Lemma py_slice_assign_elem {A : Type} (l : list A) (b e : Z) (v x : A) (i : nat) :
  nth_error (py_slice_assign l b e v) i = Some x ->
  x = v \/ nth_error l i = Some x.
Proof.
  unfold py_slice_assign.
  pose proof (norm_index_range (len l) b (Nat2Z.is_nonneg _)) as Hb.
  pose proof (norm_index_range (len l) e (Nat2Z.is_nonneg _)) as He.
  set (b' := norm_index (len l) b) in *. set (e' := norm_index (len l) e) in *.
  unfold len in *. intros H.
  destruct (Nat.lt_ge_cases i (Z.to_nat b')) as [Hi|Hi].
  - rewrite nth_error_app1 in H by (rewrite length_firstn; lia).
    rewrite nth_error_firstn in H.
    destruct (Nat.ltb_spec i (Z.to_nat b')); [now right|lia].
  - rewrite nth_error_app2 in H by (rewrite length_firstn; lia).
    rewrite length_firstn in H.
    destruct (Nat.lt_ge_cases (i - Nat.min (Z.to_nat b') (length l))
                              (Z.to_nat (e' - b'))) as [Hj|Hj].
    + rewrite nth_error_app1 in H by (rewrite repeat_length; lia).
      rewrite nth_error_repeat in H by lia. left. congruence.
    + rewrite nth_error_app2 in H by (rewrite repeat_length; lia).
      rewrite repeat_length, nth_error_skipn in H. right.
      rewrite <- H. f_equal. lia.
Qed.

(** The loop over the regions to chop keeps the length of the private
    copy and only writes zeros to it. *)
Lemma for_each_chop_zeroes (self : Chopper) (chopped_wav : addr) (srate : Z)
      (speech_regions : list region) (chop_idxs : list Z) :
  forall (w w' : world) (u : unit) (buf : list Z),
    for_each chop_idxs (chop_region self chopped_wav srate speech_regions) w = Ok (u, w') ->
    nth_error (heap w) chopped_wav = Some buf ->
    exists buf',
      nth_error (heap w') chopped_wav = Some buf' /\
      length buf' = length buf /\
      forall i x, nth_error buf' i = Some x -> x = 0 \/ nth_error buf i = Some x.
Proof.
  induction chop_idxs as [|i idxs IH]; intros w w' u buf H Hbuf.
  - injection H as _ <-. exists buf. auto.
  - cbn [for_each] in H. apply bind_inv in H. destruct H as [u1 [w1 [H1 H]]].
    destruct (chop_region_writes _ _ _ _ _ _ _ _ _ H1 Hbuf)
      as [r [mean [std [randn [_ [_ Hw]]]]]].
    destruct (IH _ _ _ _ H Hw) as [buf' [Hb' [Hlen Hel]]].
    exists buf'. split; [exact Hb'|]. split.
    + rewrite Hlen. apply py_slice_assign_length.
    + intros j x Hx. destruct (Hel j x Hx) as [->|Hx']; [now left|].
      eapply py_slice_assign_elem. exact Hx'.
Qed.

Lemma chop_wav_samples (self : Chopper) (wav : addr) (srate : Z)
      (speech_regions : list region) (w w' : world) (out : addr) (src : list Z) :
  nth_error (heap w) wav = Some src ->
  chop_wav self wav srate speech_regions w = Ok (out, w') ->
  exists dst,
    nth_error (heap w') out = Some dst /\
    length dst = length src /\
    forall i x, nth_error dst i = Some x -> x = 0 \/ nth_error src i = Some x.
Proof.
  intros Hsrc H.
  unfold chop_wav in H. destruct (len speech_regions =? 0).
  - injection H as <- <-. exists src. auto.
  - apply bind_inv in H. destruct H as [chops [w1 [Hc H]]].
    apply np_random_choice_heap in Hc.
    apply bind_inv in H. destruct H as [idxs [w2 [Hi H]]].
    apply chop_idxs_of_heap in Hi.
    apply bind_inv in H. destruct H as [src' [w3 [Hr H]]].
    unfold heap_read in Hr. rewrite Hi, Hc, Hsrc in Hr. injection Hr as <- <-.
    apply bind_inv in H. destruct H as [c [w4 [Ha H]]].
    unfold heap_alloc in Ha. injection Ha as <- <-.
    apply bind_inv in H. destruct H as [u [w5 [Hf H]]].
    injection H as <- <-.
    eapply for_each_chop_zeroes; [exact Hf|].
    simpl. apply nth_error_snoc.
Qed.

(** X13. [chop_wav] returns a buffer of the length of its input in
    which every sample is the input sample or zero; the caller's buffer
    itself is left as it was. *)
Theorem chop_wav_only_zeroes (self : Chopper) (wav : addr) (srate : Z)
        (speech_regions : list region) (w w' : world) (out : addr) (src : list Z) :
  nth_error (heap w) wav = Some src ->
  chop_wav self wav srate speech_regions w = Ok (out, w') ->
  nth_error (heap w') wav = Some src /\
  exists dst,
    nth_error (heap w') out = Some dst /\
    length dst = length src /\
    forall i x, nth_error dst i = Some x -> x = 0 \/ nth_error src i = Some x.
Proof.
  intros Hsrc H.
  assert (Hwav : (wav < length (heap w))%nat).
  { apply nth_error_Some. congruence. }
  split.
  - destruct (chop_wav_keeps_heap _ _ _ _ _ _ _ H) as [Hkeep _].
    rewrite Hkeep by exact Hwav. exact Hsrc.
  - exact (chop_wav_samples _ _ _ _ _ _ _ _ Hsrc H).
Qed.

Lemma chop_wav_only_zeroes_witness :
  let wav := repeat 1 160 ++ [0] ++ repeat 1 239 in
  let self := mkChopper [(1 # 20, 1 # 40); (1 # 10, 1 # 20)]%Q 2 false in
  let w := constant_world [wav] 0 0 in
  exists w' dst,
    chop_wav self 0%nat 16000 [mkRegion 0 (80 # 1) 160] w = Ok (1%nat, w') /\
    nth_error (heap w') 0 = Some wav /\
    nth_error (heap w') 1 = Some dst /\
    length dst = length wav.
Proof.
  eexists.
  destruct (chop_wav_only_zeroes
              (mkChopper [(1 # 20, 1 # 40); (1 # 10, 1 # 20)]%Q 2 false)
              0%nat 16000 [mkRegion 0 (80 # 1) 160]
              (constant_world [repeat 1 160 ++ [0] ++ repeat 1 239] 0 0)
              _ 1%nat (repeat 1 160 ++ [0] ++ repeat 1 239) eq_refl
              ltac:(vm_compute; reflexivity))
    as [Hin [dst [Hd [Hl _]]]].
  exists dst. split; [vm_compute; reflexivity|]. auto.
Defined.

Lemma nth_error_map_Some {A B : Type} (f : A -> B) (l : list A) (i : nat) (y : B) :
  nth_error (map f l) i = Some y -> exists x, nth_error l i = Some x /\ y = f x.
Proof.
  rewrite nth_error_map. destruct (nth_error l i) as [x|]; [|discriminate].
  intros [= <-]. now exists x.
Qed.

(** X14. [Chopper.__call__] returns as many samples as it was given, and
    it only silences: a sample within [-1, 1] comes back as zero or
    less than one step of the 16-bit grid and a float32 rounding away
    from what it was, whatever the rounding of the two float32
    divisions. *)
Theorem Chopper_call_only_zeroes (is_speech : list Z -> Z -> bool)
        (tensor_div : Q -> Q -> Q) (self : Chopper)
        (wav : list Q) (srate : Z) (w w' : world) (out : list Q)
        (report : option (list region)) :
  float32_division tensor_div ->
  Chopper_call is_speech tensor_div self wav srate w = Ok ((out, report), w') ->
  length out = length wav /\
  forall i x y,
    nth_error wav i = Some x -> nth_error out i = Some y ->
    (- (1) <= x)%Q -> (x <= 1)%Q ->
    (y == 0)%Q \/ (Qabs (y - x) < (1 # 32767) + (1 # 1048576))%Q.
Proof.
  intros Hdiv. unfold Chopper_call. intros H.
  apply bind_inv in H. destruct H as [a [w1 [Ha H]]].
  unfold heap_alloc in Ha. injection Ha as <- <-.
  apply bind_inv in H. destruct H as [samples [w2 [Hr H]]].
  unfold heap_read in Hr. cbn [heap] in Hr. rewrite nth_error_snoc in Hr.
  injection Hr as <- <-.
  apply bind_inv in H. destruct H as [regs [w3 [Hv H]]].
  unfold lift in Hv. destruct (vad_wav _ _ _) as [regs'|e]; [|discriminate].
  injection Hv as <- <-.
  apply bind_inv in H. destruct H as [o [w4 [Hc H]]].
  apply bind_inv in H. destruct H as [chopped [w5 [Hr H]]].
  eapply chop_wav_samples in Hc; [|cbn [heap]; apply nth_error_snoc].
  destruct Hc as [dst [Hdst [Hlen Hel]]].
  unfold heap_read in Hr. rewrite Hdst in Hr. injection Hr as <- <-.
  assert (Hout : out = Scale_call tensor_div normalizer_factor (map inject_Z dst)).
  { destruct (ch_report self); now injection H as <- _ _. }
  subst out. unfold Scale_call in *. rewrite !length_map in *.
  split; [exact Hlen|].
  intros i x y Hx Hy Hlo Hhi. rewrite map_map in Hy.
  apply nth_error_map_Some in Hy. destruct Hy as [z [Hz ->]].
  destruct (Hel i z Hz) as [->|Hz'].
  - left. destruct (Hdiv (inject_Z 0) normalizer_factor) as [_ H0].
    + discriminate.
    + discriminate.
    + apply H0. reflexivity.
  - right. rewrite map_map in Hz'. apply nth_error_map_Some in Hz'.
    destruct Hz' as [x' [Hx' ->]]. rewrite Hx in Hx'. injection Hx' as <-.
    exact (quantize_close tensor_div x Hdiv Hlo Hhi).
Qed.

Lemma Chopper_call_only_zeroes_witness :
  let self := mkChopper [(1 # 20, 1 # 40); (1 # 10, 1 # 20)]%Q 2 false in
  let wav := [1 # 2; 1 # 32767]%Q in
  float32_division Qdiv /\
  exists out w',
    Chopper_call always_speech Qdiv self wav 16000 (constant_world [] 0 0)
    = Ok ((out, None), w') /\
    length out = length wav.
Proof.
  split; [exact float32_division_exact|].
  eexists. eexists. split; [vm_compute; reflexivity|].
  eapply (Chopper_call_only_zeroes always_speech Qdiv
            (mkChopper [(1 # 20, 1 # 40); (1 # 10, 1 # 20)]%Q 2 false)
            [1 # 2; 1 # 32767]%Q 16000 (constant_world [] 0 0)).
  - exact float32_division_exact.
  - vm_compute. reflexivity.
Defined.

(** ** Chopper.vad_wav: the regions are ordered and within the buffer *)

Lemma runs_within_weaken (lo lo' hi : nat) (rs : list (nat * nat * bool)) :
  (lo' <= lo)%nat -> runs_within lo hi rs -> runs_within lo' hi rs.
Proof.
  destruct rs as [|[[i n] c] rs]; [auto|]. simpl. intros Hlo [H1 H2].
  split; [lia|exact H2].
Qed.

Lemma speech_runs_within (m : nat) :
  forall labels k,
    (length labels <= m)%nat ->
    runs_within k (k + length labels) (speech_runs labels k).
Proof.
  induction m as [|m IH]; intros labels k Hlen.
  - destruct labels; [exact I|simpl in Hlen; lia].
  - destruct (labels_decompose labels) as [->|[[t ->]|[[n ->]|[n [rest ->]]]]].
    + exact I.
    + cbn [speech_runs length]. apply (runs_within_weaken (S k)); [lia|].
      replace (k + S (length t))%nat with (S k + length t)%nat by lia.
      apply IH. simpl in Hlen. lia.
    + rewrite speech_runs_trues, repeat_length. simpl.
      repeat split; try lia; try discriminate.
    + rewrite speech_runs_trues_closed, length_app, repeat_length.
      cbn [length runs_within]. repeat split; try lia.
      replace (k + S n + 1)%nat with (S n + S k)%nat by lia.
      replace (k + (S n + S (length rest)))%nat
        with (S n + S k + length rest)%nat by lia.
      apply IH. rewrite length_app, repeat_length in Hlen. simpl in Hlen. lia.
Qed.

Lemma runs_within_filter (f : nat * nat * bool -> bool) (rs : list (nat * nat * bool)) :
  forall lo hi, runs_within lo hi rs -> runs_within lo hi (filter f rs).
Proof.
  induction rs as [|[[i n] c] rs IH]; intros lo hi H; [exact I|].
  simpl in H. destruct H as [H1 [H2 [H3 [H4 H5]]]]. cbn [filter].
  destruct (f (i, n, c)).
  - simpl. repeat split; try assumption. now apply IH.
  - apply (runs_within_weaken (i + n + 1)); [lia|]. now apply IH.
Qed.

Lemma regions_of_runs_within (wav_len : Z) (hi : nat) (rs : list (nat * nat * bool)) :
  (forall m, (m < hi)%nat -> window_size * Z.of_nat m <= wav_len) ->
  forall lo,
    runs_within lo hi rs -> Forall (fun r => snd r = true) rs ->
    regions_within (window_size * Z.of_nat lo) wav_len (map region_of_run rs).
Proof.
  intros Hfit. induction rs as [|[[i n] c] rs IH]; intros lo H Hc; [exact I|].
  simpl in H. destruct H as [H1 [H2 [H3 [H4 H5]]]].
  inversion Hc as [|? ? Hc1 Hc2]; subst. simpl in Hc1. subst c.
  specialize (H4 eq_refl). specialize (Hfit (i + n)%nat H4).
  cbn [map region_of_run regions_within reg_beg reg_dur]. unfold window_size in *.
  repeat split; try lia.
  specialize (IH _ H5 Hc2). destruct (map region_of_run rs) as [|r rs'] eqn:E; [exact I|].
  cbn [regions_within] in *. destruct IH as [I1 I2]. split; [lia|exact I2].
Qed.

Lemma window_count_fits (n : Z) (m : nat) :
  0 <= n -> (m < Z.to_nat ((n - 0 + window_size - 1) / window_size))%nat ->
  window_size * Z.of_nat m <= n.
Proof.
  unfold window_size. intros Hn Hm.
  pose proof (Z.mul_div_le (n - 0 + 160 - 1) 160 ltac:(lia)).
  assert (0 <= (n - 0 + 160 - 1) / 160) by (apply Z.div_pos; lia).
  lia.
Qed.

(** X15. The regions [vad_wav] returns are in time order, do not
    overlap, have a positive duration and lie within the buffer. *)
Theorem vad_wav_regions_ordered (is_speech : list Z -> Z -> bool) (wav : list Z)
        (speech_regions : list region) :
  vad_wav is_speech wav 16000 = Ok speech_regions ->
  regions_within 0 (len wav) speech_regions.
Proof.
  rewrite vad_wav_emits_closed_runs. intros [= <-].
  change 0 with (window_size * Z.of_nat 0) at 1.
  apply (regions_of_runs_within _ (length (window_labels is_speech wav 16000))).
  - intros m Hm. unfold window_labels, py_range in Hm.
    rewrite length_map, length_map, length_seq in Hm.
    apply window_count_fits; [apply Nat2Z.is_nonneg|exact Hm].
  - unfold closed_runs. apply runs_within_filter.
    apply (speech_runs_within _ _ 0%nat (le_n _)).
  - unfold closed_runs. apply Forall_forall. intros r Hr.
    apply filter_In in Hr. tauto.
Qed.

Lemma vad_wav_regions_ordered_witness :
  let wav := repeat 1 800 ++ repeat 0 480 ++ repeat 1 640 ++ [0] in
  exists speech_regions,
    vad_wav first_sample_vad wav 16000 = Ok speech_regions /\
    length speech_regions = 2%nat /\
    regions_within 0 (len wav) speech_regions.
Proof.
  eexists. split; [vm_compute; reflexivity|]. split; [reflexivity|].
  apply (vad_wav_regions_ordered first_sample_vad
           (repeat 1 800 ++ repeat 0 480 ++ repeat 1 640 ++ [0])).
  vm_compute. reflexivity.
Defined.

(** X16. [vad_wav] returns exactly the regions of the runs of speech
    windows that a later window closes, and the region of a run of [n]
    windows from window [k] on has begin 160 k, duration 160 n and
    center begin + duration / 2. *)
Theorem vad_wav_regions_are_closed_runs (is_speech : list Z -> Z -> bool) (wav : list Z) :
  vad_wav is_speech wav 16000
  = Ok (map region_of_run (closed_runs (window_labels is_speech wav 16000))) /\
  forall k n closed,
    let r := region_of_run (k, n, closed) in
    reg_beg r = 160 * Z.of_nat k /\
    reg_dur r = Z.of_nat n * 160 /\
    (reg_center r == inject_Z (reg_beg r) + inject_Z (reg_dur r) / 2)%Q.
Proof.
  split; [apply vad_wav_emits_closed_runs|]. intros k n closed.
  apply region_of_run_fields.
Qed.

(** ** Chopper.chop_wav: a chop of non-negative duration stays in its region *)

Lemma py_int_nonneg (q : Q) : (0 <= q)%Q -> 0 <= py_int q.
Proof.
  intros H. unfold py_int. apply Qle_bool_iff in H as E. rewrite E.
  rewrite <- (Qfloor_Z 0). now apply Qfloor_resp_le.
Qed.

(** The window of a chop lies within the region; its end is not negative
    as soon as the duration drawn is not. *)
Lemma chop_bounds_in_region (srate : Z) (r : region) (mean std randn : Q) :
  let '(chop_beg, chop_end) := chop_bounds srate r mean std randn in
  reg_beg r <= chop_beg /\ chop_end <= reg_beg r + reg_dur r /\
  (0 <= srate -> (0 <= mean + randn * std)%Q -> (0 <= reg_center r)%Q ->
   0 <= reg_beg r + reg_dur r -> 0 <= chop_end).
Proof.
  unfold chop_bounds. split; [lia|]. split; [lia|].
  intros Hs Hd Hc He.
  assert (H1 : 0 <= py_int ((mean + randn * std) * inject_Z srate)).
  { apply py_int_nonneg. apply Qmult_le_0_compat; [exact Hd|].
    change 0%Q with (inject_Z 0). now rewrite <- Zle_Qle. }
  assert (H2 : (0 <= inject_Z (py_int ((mean + randn * std) * inject_Z srate)))%Q).
  { change 0%Q with (inject_Z 0). now rewrite <- Zle_Qle. }
  assert (H3 : 0 <= py_int (reg_center r
                            + inject_Z (py_int ((mean + randn * std) * inject_Z srate)) / 2)).
  { apply py_int_nonneg. rewrite Qhalf. Lqa.lra. }
  lia.
Qed.

(** One chop, with the factor and the normal outcome it draws. *)
Lemma chop_region_draws (self : Chopper) (chopped_wav : addr) (srate : Z)
      (speech_regions : list region) (chop_i : Z) (w w' : world) (u : unit)
      (buf : list Z) (r : region) :
  nth_error speech_regions (Z.to_nat chop_i) = Some r ->
  chop_region self chopped_wav srate speech_regions chop_i w = Ok (u, w') ->
  nth_error (heap w) chopped_wav = Some buf ->
  exists mean std,
    In (mean, std) (chop_factors self) /\
    nth_error (heap w') chopped_wav
    = Some (py_slice_assign buf
              (fst (chop_bounds srate r mean std (np_normal w (np_npos w))))
              (snd (chop_bounds srate r mean std (np_normal w (np_npos w)))) 0).
Proof.
  unfold chop_region. intros Hr H Hbuf. rewrite Hr in H.
  apply bind_inv in H. destruct H as [idx [w1 [Hc H]]].
  assert (Hpool : seq 0 (length (chop_factors self)) <> []).
  { intros E. rewrite E in Hc. discriminate. }
  rewrite (np_random_choice_Ok _ 0%nat w Hpool) in Hc. injection Hc as <- <-.
  destruct (nth_error (chop_factors self) _) as [[mean std]|] eqn:Ef; [|discriminate].
  apply bind_inv in H. destruct H as [randn [w2 [Hn H]]].
  injection Hn as <- <-. cbn [np_normal np_npos] in H.
  exists mean, std. split; [eapply nth_error_In; eassumption|].
  destruct (chop_bounds srate r mean std (np_normal w (np_npos w)))
    as [chop_beg chop_end].
  apply bind_inv in H. destruct H as [buf' [w3 [Hrd H]]].
  unfold heap_read in Hrd. cbn [heap] in Hrd. rewrite Hbuf in Hrd.
  injection Hrd as <- <-.
  unfold heap_write in H. cbn [heap] in H. rewrite Hbuf in H.
  injection H as _ <-. cbn [heap fst snd].
  eapply nth_error_list_set_same. eassumption.
Qed.

(** X17. A chop whose drawn duration, mean + randn * std, is not
    negative changes no sample outside the region it chops (for a
    region, as [vad_wav] returns them, of non-negative begin, center and
    duration). *)
Theorem chop_region_stays_in_region (self : Chopper) (chopped_wav : addr) (srate : Z)
        (speech_regions : list region) (chop_i : Z) (w w' : world) (u : unit)
        (buf : list Z) (r : region) :
  nth_error speech_regions (Z.to_nat chop_i) = Some r ->
  0 <= reg_beg r -> 0 <= reg_dur r -> (0 <= reg_center r)%Q -> 0 <= srate ->
  (forall mean std, In (mean, std) (chop_factors self) ->
                    (0 <= mean + np_normal w (np_npos w) * std)%Q) ->
  chop_region self chopped_wav srate speech_regions chop_i w = Ok (u, w') ->
  nth_error (heap w) chopped_wav = Some buf ->
  exists buf',
    nth_error (heap w') chopped_wav = Some buf' /\
    length buf' = length buf /\
    forall i, ~ (reg_beg r <= Z.of_nat i < reg_beg r + reg_dur r) ->
              nth_error buf' i = nth_error buf i.
Proof.
  intros Hr Hbeg Hdur Hcen Hs Hpos H Hbuf.
  destruct (chop_region_draws _ _ _ _ _ _ _ _ _ _ Hr H Hbuf) as [mean [std [Hin Hw]]].
  pose proof (chop_bounds_in_region srate r mean std (np_normal w (np_npos w))) as Hb.
  destruct (chop_bounds srate r mean std (np_normal w (np_npos w)))
    as [chop_beg chop_end].
  destruct Hb as [Hb1 [Hb2 Hb3]]. cbn [fst snd] in Hw.
  specialize (Hb3 Hs (Hpos _ _ Hin) Hcen ltac:(lia)).
  eexists. split; [exact Hw|]. split; [apply py_slice_assign_length|].
  intros i Hi. apply py_slice_assign_outside; lia.
Qed.

Lemma chop_region_stays_in_region_witness :
  let wav := repeat 1 400 in
  let self := mkChopper [(1 # 20, 1 # 40); (1 # 10, 1 # 20)]%Q 2 false in
  let w := constant_world [wav] 0 (1 # 2) in
  let r := mkRegion 160 (240 # 1) 160 in
  exists w' buf',
    chop_region self 0%nat 16000 [r] 0 w = Ok (tt, w') /\
    nth_error (heap w') 0 = Some buf' /\
    length buf' = length wav /\
    nth_error buf' 100 = nth_error wav 100.
Proof.
  assert (Hrun : exists w',
             chop_region (mkChopper [(1 # 20, 1 # 40); (1 # 10, 1 # 20)]%Q 2 false)
                         0%nat 16000 [mkRegion 160 (240 # 1) 160] 0
                         (constant_world [repeat 1 400] 0 (1 # 2)) = Ok (tt, w'))
    by (eexists; vm_compute; reflexivity).
  destruct Hrun as [w' Hrun]. exists w'.
  destruct (chop_region_stays_in_region
              (mkChopper [(1 # 20, 1 # 40); (1 # 10, 1 # 20)]%Q 2 false)
              0%nat 16000 [mkRegion 160 (240 # 1) 160] 0
              (constant_world [repeat 1 400] 0 (1 # 2)) w' tt (repeat 1 400)
              (mkRegion 160 (240 # 1) 160) eq_refl)
    as [buf' [Hb [Hl Hf]]].
  - cbn [reg_beg]. lia.
  - cbn [reg_dur]. lia.
  - discriminate.
  - lia.
  - intros mean std [[= <- <-]|[[= <- <-]|[]]]; discriminate.
  - exact Hrun.
  - reflexivity.
  - exists buf'. split; [exact Hrun|]. split; [exact Hb|]. split; [exact Hl|].
    apply Hf. cbn [reg_beg reg_dur]. lia.
Defined.

(** ** Clipping *)

Lemma np_min_le_np_max (wav : list Q) (mn mx : Q) :
  np_min wav = Ok mn -> np_max wav = Ok mx -> (mn <= mx)%Q.
Proof.
  intros Hmn Hmx. destruct wav as [|x t]; [discriminate|].
  apply np_min_lower in Hmn. apply np_max_upper in Hmx.
  inversion Hmn; subst. inversion Hmx; subst. Lqa.lra.
Qed.



(** ** SingleChunkWav *)

Lemma chunk_of_length (chksz idx : Z) (w_ : list Q) :
  0 <= chksz -> 0 <= idx ->
  (len w_ <= chksz -> idx = 0) -> (chksz < len w_ -> idx + chksz <= len w_) ->
  length (chunk_of chksz idx w_) = Z.to_nat chksz.
Proof.
  intros Hc Hi Hshort Hlong. unfold chunk_of.
  destruct (Z.ltb_spec (len w_) chksz) as [Hlt|Hge].
  - rewrite (Hshort ltac:(lia)). apply len_py_slice; try lia.
    unfold len in *. rewrite length_app, repeat_length. lia.
  - apply len_py_slice; lia.
Qed.

(** X19. Called on at least one signal with a chunk size that is not
    negative, [SingleChunkWav] returns one chunk per signal, all cut at
    the same offset; the chunk of the first signal has exactly
    [chunk_size] samples (a shorter signal is padded with zeros and cut
    at offset 0), and when the signal is longer than the chunk the
    chunk always ends before the last sample of the signal. *)
Theorem SingleChunkWav_call_chunks (self : SingleChunkWav) (first : list Q)
        (others : list (list Q)) (w : world) :
  0 <= chunk_size self ->
  exists out w' idx,
    SingleChunkWav_call self first others w = Ok (out, w') /\
    chunks_of out = map (chunk_of (chunk_size self) idx) (first :: others) /\
    length (chunk_of (chunk_size self) idx first) = Z.to_nat (chunk_size self) /\
    0 <= idx /\
    (len first <= chunk_size self -> idx = 0) /\
    (chunk_size self < len first -> idx + chunk_size self < len first) /\
    (scw_report self = true ->
     out = ChunksReport (map (chunk_of (chunk_size self) idx) (first :: others))
                        idx (idx + chunk_size self)).
Proof.
  intros Hc. unfold SingleChunkWav_call.
  set (chksz := chunk_size self) in *.
  set (range := py_range 0 (len first - chksz) 1).
  set (idxs := if len range =? 0 then [0] else range).
  assert (Hne : idxs <> []).
  { unfold idxs. destruct (Z.eqb_spec (len range) 0) as [E|E]; [discriminate|].
    intros E'. rewrite E' in E. now apply E. }
  set (idx := nth (pick_index (length idxs) (py_tape w (py_pos w))) idxs 0).
  assert (Hin : In idx idxs).
  { apply nth_In. apply pick_index_lt. destruct idxs; [congruence|simpl; lia]. }
  assert (Hidx : 0 <= idx /\ (len first <= chksz -> idx = 0) /\
                 (chksz < len first -> idx + chksz < len first)).
  { unfold idxs in Hin. destruct (Z.eqb_spec (len range) 0) as [E|E].
    - destruct Hin as [<-|[]]. split; [lia|]. split; [reflexivity|].
      intros Hlt. exfalso. unfold range, py_range, len in E.
      rewrite length_map, length_seq in E.
      replace (Z.of_nat (length first) - chksz - 0 + 1 - 1)
        with (Z.of_nat (length first) - chksz) in E by lia.
      rewrite Z.div_1_r in E. unfold len in Hlt. lia.
    - apply py_range_unit_In in Hin. lia. }
  destruct Hidx as [H0 [Hshort Hlong]].
  rewrite (bind_Ok _ _ _ _ _ (random_choice_Ok idxs 0 w Hne)). cbv beta. fold idx.
  set (rets := map (chunk_of chksz idx) (first :: others)).
  assert (Hlen : length (chunk_of chksz idx first) = Z.to_nat chksz).
  { apply chunk_of_length; try assumption. intros Hlt. specialize (Hlong Hlt). lia. }
  destruct (scw_report self) eqn:Er; cbn [negb andb]; rewrite ?andb_false_r, ?andb_true_r.
  - eexists. eexists. exists idx. split; [reflexivity|]. repeat split; auto.
  - destruct (Z.eqb_spec (len rets) 1) as [E|E].
    + eexists. eexists. exists idx. split; [reflexivity|].
      repeat split; auto; try discriminate.
      unfold rets in *. destruct others; [reflexivity|].
      unfold len in E. simpl in E. lia.
    + assert (Hgt : (1 <? len rets) = true).
      { apply Z.ltb_lt. unfold rets, len in *. simpl in *. lia. }
      rewrite Hgt. eexists. eexists. exists idx. split; [reflexivity|].
      repeat split; auto; discriminate.
Qed.

Lemma SingleChunkWav_call_chunks_witness :
  let self := mkSingleChunkWav 3 true in
  0 <= chunk_size self /\
  exists w',
    SingleChunkWav_call self [1; 2; 3; 4; 5]%Q [[1; 2]%Q] (constant_world [] (9 # 10) 0)
    = Ok (ChunksReport [[2; 3; 4]%Q; [2; 0]%Q] 1 4, w') /\
    exists out w'' idx,
      SingleChunkWav_call self [1; 2; 3; 4; 5]%Q [[1; 2]%Q] (constant_world [] (9 # 10) 0)
      = Ok (out, w'') /\
      length (chunk_of (chunk_size self) idx [1; 2; 3; 4; 5]%Q) = 3%nat.
Proof.
  split; [discriminate|]. eexists. split; [vm_compute; reflexivity|].
  destruct (SingleChunkWav_call_chunks (mkSingleChunkWav 3 true) [1; 2; 3; 4; 5]%Q
              [[1; 2]%Q] (constant_world [] (9 # 10) 0))
    as [out [w'' [idx [H1 [_ [H3 _]]]]]]; [discriminate|].
  exists out, w'', idx. split; [exact H1|exact H3].
Defined.

(** ** Reverb *)

Lemma length_np_empty_like (xs : list Q) : length (np_empty_like xs) = length xs.
Proof. apply length_map. Qed.

Lemma skipn_min_length {A : Type} (m : nat) (l : list A) :
  skipn (Nat.min m (length l)) l = skipn m l.
Proof.
  destruct (Nat.le_ge_cases m (length l)) as [H|H].
  - now rewrite Nat.min_l.
  - rewrite Nat.min_r by exact H. now rewrite !skipn_all2 by lia.
Qed.

Lemma firstn_whole {A : Type} (l : list A) (k : nat) :
  (length l <= k)%nat -> firstn k l = l.
Proof. intros H. now apply firstn_all2. Qed.

(** A shift to the left: [xs] advanced by [m] samples, zeros at the end. *)
Lemma Reverb_shift_left (xs : list Q) (n : Z) :
  n < 0 ->
  Reverb_shift xs n
  = Ok (skipn (Z.to_nat (- n)) xs
        ++ repeat 0%Q (Nat.min (Z.to_nat (- n)) (length xs))).
Proof.
  intros Hn. unfold Reverb_shift.
  destruct (Z.leb_spec 0 n); [lia|].
  set (m := Z.to_nat (- n)). set (N := length xs).
  set (e0 := np_empty_like xs).
  assert (He0 : length e0 = N) by apply length_np_empty_like.
  set (e1 := py_slice_assign e0 n (len e0) 0%Q).
  assert (He1 : e1 = firstn (N - m) e0 ++ repeat 0%Q (Nat.min m N)).
  { unfold e1, py_slice_assign, norm_index, len. rewrite He0.
    destruct (Z.ltb_spec n 0); [|lia].
    destruct (Z.ltb_spec (Z.of_nat N) 0); [lia|].
    replace (Z.to_nat (Z.max (n + Z.of_nat N) 0)) with (N - m)%nat by (unfold m; lia).
    replace (Z.to_nat (Z.min (Z.of_nat N) (Z.of_nat N) - Z.max (n + Z.of_nat N) 0))
      with (Nat.min m N) by (unfold m; lia).
    replace (Z.to_nat (Z.max (Z.max (n + Z.of_nat N) 0)
                             (Z.min (Z.of_nat N) (Z.of_nat N)))) with N
      by lia.
    rewrite skipn_all2 by lia. now rewrite app_nil_r. }
  assert (Hlen1 : length e1 = N).
  { unfold e1. rewrite py_slice_assign_length. exact He0. }
  assert (Hsrc : py_slice xs (- n) (len xs) = skipn m xs).
  { unfold py_slice, norm_index, len. fold N.
    destruct (Z.ltb_spec (- n) 0); [lia|].
    destruct (Z.ltb_spec (Z.of_nat N) 0); [lia|].
    replace (Z.to_nat (Z.min (- n) (Z.of_nat N))) with (Nat.min m N) by (unfold m; lia).
    rewrite <- (skipn_min_length m xs). fold N.
    apply firstn_whole. rewrite length_skipn. fold N. unfold m. lia. }
  rewrite Hsrc. unfold py_slice_assign_array, norm_index, len. rewrite Hlen1.
  destruct (Z.ltb_spec 0 0); [lia|]. destruct (Z.ltb_spec n 0); [|lia].
  replace (Z.to_nat (Z.max (n + Z.of_nat N) 0 - Z.min 0 (Z.of_nat N)))
    with (N - m)%nat by (unfold m; lia).
  replace (Z.to_nat (Z.min 0 (Z.of_nat N))) with 0%nat by lia.
  replace (Z.to_nat (Z.max (Z.min 0 (Z.of_nat N)) (Z.max (n + Z.of_nat N) 0)))
    with (N - m)%nat by (unfold m; lia).
  assert (Hls : length (skipn m xs) = (N - m)%nat) by (rewrite length_skipn; reflexivity).
  rewrite Hls, Nat.eqb_refl. cbn [firstn app]. do 2 f_equal.
  rewrite He1. rewrite skipn_app, length_firstn, He0.
  replace (N - m - Nat.min (N - m) N)%nat with 0%nat by lia.
  rewrite skipn_all2 by (rewrite length_firstn; lia). reflexivity.
Qed.

(** A shift to the right: zeros first, then the start of [xs]. *)
Lemma Reverb_shift_right (xs : list Q) (n : Z) :
  0 < n ->
  Reverb_shift xs n
  = Ok (repeat 0%Q (Nat.min (Z.to_nat n) (length xs))
        ++ firstn (length xs - Z.to_nat n) xs).
Proof.
  intros Hn. unfold Reverb_shift.
  destruct (Z.leb_spec 0 n); [|lia].
  set (m := Z.to_nat n). set (N := length xs).
  set (e0 := np_empty_like xs).
  assert (He0 : length e0 = N) by apply length_np_empty_like.
  set (e1 := py_slice_assign e0 0 n 0%Q).
  assert (He1 : e1 = repeat 0%Q (Nat.min m N) ++ skipn (Nat.min m N) e0).
  { unfold e1, py_slice_assign, norm_index, len. rewrite He0.
    destruct (Z.ltb_spec 0 0); [lia|]. destruct (Z.ltb_spec n 0); [lia|].
    replace (Z.to_nat (Z.min 0 (Z.of_nat N))) with 0%nat by lia.
    replace (Z.to_nat (Z.min n (Z.of_nat N) - Z.min 0 (Z.of_nat N)))
      with (Nat.min m N) by (unfold m; lia).
    replace (Z.to_nat (Z.max (Z.min 0 (Z.of_nat N)) (Z.min n (Z.of_nat N))))
      with (Nat.min m N) by (unfold m; lia).
    reflexivity. }
  assert (Hlen1 : length e1 = N).
  { unfold e1. rewrite py_slice_assign_length. exact He0. }
  assert (Hsrc : py_slice xs 0 (- n) = firstn (N - m) xs).
  { unfold py_slice, norm_index, len. fold N.
    destruct (Z.ltb_spec 0 0); [lia|]. destruct (Z.ltb_spec (- n) 0); [|lia].
    replace (Z.to_nat (Z.min 0 (Z.of_nat N))) with 0%nat by lia.
    replace (Z.to_nat (Z.max (- n + Z.of_nat N) 0 - Z.min 0 (Z.of_nat N)))
      with (N - m)%nat by (unfold m; lia).
    reflexivity. }
  rewrite Hsrc. unfold py_slice_assign_array, norm_index, len. rewrite Hlen1.
  destruct (Z.ltb_spec n 0); [lia|]. destruct (Z.ltb_spec (Z.of_nat N) 0); [lia|].
  replace (Z.to_nat (Z.min (Z.of_nat N) (Z.of_nat N) - Z.min n (Z.of_nat N)))
    with (N - m)%nat by (unfold m; lia).
  replace (Z.to_nat (Z.min n (Z.of_nat N))) with (Nat.min m N) by (unfold m; lia).
  replace (Z.to_nat (Z.max (Z.min n (Z.of_nat N)) (Z.min (Z.of_nat N) (Z.of_nat N))))
    with N by lia.
  assert (Hls : length (firstn (N - m) xs) = (N - m)%nat)
    by (rewrite length_firstn; fold N; lia).
  rewrite Hls, Nat.eqb_refl. f_equal.
  rewrite (skipn_all2 e1) by lia. rewrite app_nil_r. f_equal.
  rewrite He1. rewrite firstn_app, repeat_length.
  replace (Nat.min m N - Nat.min m N)%nat with 0%nat by lia.
  cbn [firstn]. rewrite app_nil_r. apply firstn_whole. rewrite repeat_length. lia.
Qed.

(** A shift by zero cannot be done on a non-empty array: [xs[:-0]] is
    empty and cannot fill [e[0:]]. *)
Lemma Reverb_shift_zero (xs : list Q) :
  xs <> [] -> Reverb_shift xs 0 = Raise ValueError_Broadcast.
Proof.
  intros Hne. unfold Reverb_shift. cbn [Z.leb Z.compare Z.opp].
  set (e1 := py_slice_assign (np_empty_like xs) 0 0 0%Q).
  assert (Hlen1 : length e1 = length xs).
  { unfold e1. rewrite py_slice_assign_length. apply length_np_empty_like. }
  assert (Hsrc : py_slice xs 0 0 = []).
  { unfold py_slice, norm_index. cbn [Z.ltb Z.compare].
    replace (Z.to_nat (Z.min 0 (len xs) - Z.min 0 (len xs))) with 0%nat by lia.
    reflexivity. }
  rewrite Hsrc. unfold py_slice_assign_array, norm_index, len. rewrite Hlen1.
  cbn [Z.ltb Z.compare length].
  destruct (Z.ltb_spec (Z.of_nat (length xs)) 0); [lia|].
  destruct (Nat.eqb_spec 0 (Z.to_nat (Z.min (Z.of_nat (length xs)) (Z.of_nat (length xs))
                                      - Z.min 0 (Z.of_nat (length xs))))) as [E|E];
    [|reflexivity].
  exfalso. destruct xs; [congruence|]. simpl length in E. lia.
Qed.

(** X20. [Reverb.shift] by a non-zero [n] returns an array of the length
    of [xs]: [xs] advanced by |n| samples with zeros at the end when
    n < 0, delayed by [n] samples with zeros in front when n > 0. A
    shift by zero raises a ValueError on every non-empty array. *)
Theorem Reverb_shift_spec (xs : list Q) (n : Z) :
  xs <> [] ->
  match Z.compare n 0 with
  | Lt => Reverb_shift xs n
          = Ok (skipn (Z.to_nat (- n)) xs
                ++ repeat 0%Q (Nat.min (Z.to_nat (- n)) (length xs)))
  | Gt => Reverb_shift xs n
          = Ok (repeat 0%Q (Nat.min (Z.to_nat n) (length xs))
                ++ firstn (length xs - Z.to_nat n) xs)
  | Eq => Reverb_shift xs n = Raise ValueError_Broadcast
  end /\
  forall e, Reverb_shift xs n = Ok e -> length e = length xs.
Proof.
  intros Hne. destruct (Z.compare_spec n 0) as [->|Hlt|Hgt].
  - rewrite (Reverb_shift_zero _ Hne). split; [reflexivity|discriminate].
  - rewrite (Reverb_shift_left _ _ Hlt). split; [reflexivity|].
    intros e [= <-]. rewrite length_app, length_skipn, repeat_length. lia.
  - rewrite (Reverb_shift_right _ _ Hgt). split; [reflexivity|].
    intros e [= <-]. rewrite length_app, length_firstn, repeat_length. lia.
Qed.

Lemma Reverb_shift_spec_witness :
  [1; 2; 3; 4; 5]%Q <> [] /\
  Reverb_shift [1; 2; 3; 4; 5]%Q (-2) = Ok [3; 4; 5; 0; 0]%Q.
Proof.
  split; [discriminate|].
  destruct (Reverb_shift_spec [1; 2; 3; 4; 5]%Q (-2)) as [H _]; [discriminate|].
  exact H.
Defined.

Lemma length_seq_add (a b : list Q) :
  length (seq_add a b) = Nat.max (length a) (length b).
Proof.
  revert b. induction a as [|x a IH]; intros [|y b]; cbn [seq_add length]; try lia.
  rewrite IH. lia.
Qed.

Lemma length_convolve (a b : list Q) :
  a <> [] -> length (convolve a b) = (length a + length b - 1)%nat.
Proof.
  induction a as [|x a IH]; [congruence|]. intros _.
  destruct a as [|y a].
  - cbn [convolve length]. rewrite length_map. lia.
  - change (convolve (x :: y :: a) b)
      with (seq_add (map (Qmult x) b) (0%Q :: convolve (y :: a) b)).
    rewrite length_seq_add. cbn [length] in *. rewrite IH by discriminate.
    rewrite length_map. lia.
Qed.

Lemma length_fftconvolve_full (a b : list Q) :
  a <> [] -> b <> [] ->
  length (fftconvolve_full a b) = (length a + length b - 1)%nat.
Proof.
  intros Ha Hb. destruct b as [|y b]; [congruence|].
  unfold fftconvolve_full. now apply length_convolve.
Qed.

Lemma np_max_nonempty (l : list Q) :
  l <> [] -> exists m, np_max l = Ok m.
Proof. destruct l as [|x t]; [congruence|]. intros _. now eexists. Qed.

Lemma nonempty_length {A : Type} (l : list A) : (0 < length l)%nat -> l <> [].
Proof. destruct l; [cbn; lia|discriminate]. Qed.

(** The normalised reverberated signal before the delay compensation. *)
Lemma Reverb_call_steps (self : Reverb) (wav : list Q) :
  wav <> [] -> IR self <> [] ->
  exists rev,
    length rev = (length wav + length (IR self) - 1)%nat /\
    Reverb_call self wav
    = match Reverb_shift rev (- p_max self) with
      | Raise e => Raise e
      | Ok rev => Ok (py_slice rev 0 (len wav))
      end.
Proof.
  intros Hw Hir. unfold Reverb_call.
  destruct (np_max_nonempty (map Qabs wav)) as [peak ->].
  { apply nonempty_length. rewrite length_map. destruct wav; [congruence|cbn; lia]. }
  set (wav' := map (fun v => (v / peak)%Q) wav).
  assert (Hw' : length wav' = length wav) by apply length_map.
  assert (Hrev : length (fftconvolve_full wav' (IR self))
                 = (length wav + length (IR self) - 1)%nat).
  { rewrite length_fftconvolve_full, Hw'; [reflexivity| |exact Hir].
    apply nonempty_length. rewrite Hw'. destruct wav; [congruence|cbn; lia]. }
  destruct (np_max_nonempty (map Qabs (fftconvolve_full wav' (IR self)))) as [rpeak ->].
  { apply nonempty_length. rewrite length_map, Hrev.
    destruct wav; [congruence|]. destruct (IR self); [congruence|]. cbn; lia. }
  exists (map (fun v => (v / rpeak)%Q) (fftconvolve_full wav' (IR self))).
  split; [now rewrite length_map|].
  unfold len. rewrite Hw'. reflexivity.
Qed.

(** X21. An impulse response whose peak is its first sample
    ([p_max = 0]) makes [Reverb.__call__] fail on every non-empty
    signal: the delay compensation is [shift(rev, 0)], whose
    [e[0:] = xs[:-0]] assigns an empty array to a non-empty one. *)
Theorem Reverb_call_peak_first_raises (self : Reverb) (wav : list Q) :
  wav <> [] -> IR self <> [] -> p_max self = 0 ->
  Reverb_call self wav = Raise ValueError_Broadcast.
Proof.
  intros Hw Hir Hp.
  destruct (Reverb_call_steps self wav Hw Hir) as (rev & Hlen & ->).
  rewrite Hp. cbn [Z.opp]. rewrite Reverb_shift_zero; [reflexivity|].
  apply nonempty_length. rewrite Hlen.
  destruct wav; [congruence|]. destruct (IR self); [congruence|]. cbn; lia.
Qed.

Lemma Reverb_call_peak_first_raises_witness :
  Reverb_call (mkReverb [1; 1 # 2]%Q 0) [1; -1; 1]%Q = Raise ValueError_Broadcast.
Proof.
  apply Reverb_call_peak_first_raises; [discriminate|discriminate|reflexivity].
Defined.



(** ** Additive.asl_P56 *)

(** One pass over the thresholds adds one to the counters below some
    index [m] and leaves the others. *)
Lemma asl_thresholds_shape (qk I : Q) (c : list Q) :
  forall a hang,
    (exists m, fst (asl_thresholds qk I c a hang)
               = map (fun v => v + 1)%Q (firstn m a) ++ skipn m a).
Proof.
  induction c as [|cj c IH]; intros a hang.
  - exists 0%nat. destruct a; reflexivity.
  - destruct a as [|aj a]; [exists 0%nat; reflexivity|].
    destruct hang as [|hj hang]; [exists 0%nat; reflexivity|].
    cbn [asl_thresholds]. destruct (IH a hang) as [m Hm].
    destruct (asl_thresholds qk I c a hang) as [a'' hang''] eqn:E.
    cbn [fst] in Hm.
    destruct (Qle_bool cj qk); [exists (S m); cbn; now rewrite Hm|].
    destruct (Qlt_bool hj I); [exists (S m); cbn; now rewrite Hm|].
    exists 0%nat. reflexivity.
Qed.

Lemma nonincreasing_bump (a : list Q) :
  forall m, nonincreasing a ->
            nonincreasing (map (fun v => v + 1)%Q (firstn m a) ++ skipn m a).
Proof.
  induction a as [|x t IH]; intros m H.
  - destruct m; exact I.
  - destruct m as [|m]; [exact H|].
    cbn [firstn skipn map app]. destruct H as [Hh Ht].
    split; [|now apply IH].
    destruct t as [|y t']; [destruct m; exact I|].
    destruct m; cbn [firstn skipn map app]; Lqa.lra.
Qed.

Lemma bounded_bump (a : list Q) (B : Q) :
  forall m, Forall (fun v => 0 <= v /\ v <= B)%Q a ->
            Forall (fun v => 0 <= v /\ v <= B + 1)%Q
                   (map (fun v => v + 1)%Q (firstn m a) ++ skipn m a).
Proof.
  induction a as [|x t IH]; intros m H.
  - destruct m; constructor.
  - inversion H as [|? ? [Hx0 HxB] Ht]; subst.
    destruct m as [|m]; cbn [firstn skipn map app].
    + constructor; [split; Lqa.lra|].
      specialize (IH 0%nat Ht). now destruct t.
    + constructor; [split; Lqa.lra|]. now apply IH.
Qed.

Lemma length_bump (a : list Q) (m : nat) :
  length (map (fun v => v + 1)%Q (firstn m a) ++ skipn m a) = length a.
Proof. rewrite length_app, length_map, length_firstn, length_skipn. lia. Qed.

Lemma asl_activity_invariant (q : list Q) (I : Q) (c : list Q) :
  forall (a hang : list Q) (k : nat),
    nonincreasing a ->
    Forall (fun v => 0 <= v /\ v <= inject_Z (Z.of_nat k))%Q a ->
    let a' := fst (asl_activity q I c a hang) in
    length a' = length a /\ nonincreasing a' /\
    Forall (fun v => 0 <= v /\ v <= inject_Z (Z.of_nat (k + length q)))%Q a'.
Proof.
  unfold asl_activity.
  induction q as [|qk q IH]; intros a hang k Hn Hb; cbn [fold_left fst snd].
  - rewrite Nat.add_0_r. now repeat split.
  - destruct (asl_thresholds_shape qk I c a hang) as [m Hm].
    destruct (asl_thresholds qk I c a hang) as [a1 hang1] eqn:E.
    cbn [fst] in Hm. subst a1.
    specialize (IH _ hang1 (S k) (nonincreasing_bump a m Hn)).
    cbn [length]. replace (k + S (length q))%nat with (S k + length q)%nat by lia.
    rewrite <- (length_bump a m). apply IH.
    apply (bounded_bump a _ m) in Hb.
    eapply Forall_impl; [|exact Hb]. cbv beta. intros v [H0 H1]. split; [exact H0|].
    rewrite Nat2Z.inj_succ. unfold Z.succ. rewrite inject_Z_plus. exact H1.
Qed.

Lemma nonincreasing_zeros (c : list Q) : nonincreasing (map (fun _ => 0%Q) c).
Proof.
  induction c as [|x t IH]; [exact I|].
  cbn [map nonincreasing]. split; [|exact IH]. destruct t; [exact I|cbn; Lqa.lra].
Qed.

(** X23. The activity counters of [asl_P56] after the loop over the
    samples: one per threshold, each between 0 and the number of
    samples, and never larger for a higher threshold than for a lower
    one (the loop over the thresholds adds one to a prefix j < m of them
    and breaks), whatever the envelope and the hangover. *)
Theorem asl_activity_counters (q : list Q) (I : Q) (c hang : list Q) :
  let a := fst (asl_activity q I c (map (fun _ => 0%Q) c) hang) in
  length a = length c /\ nonincreasing a /\
  Forall (fun v => 0 <= v /\ v <= inject_Z (len q))%Q a.
Proof.
  pose proof (asl_activity_invariant q I c (map (fun _ => 0%Q) c) hang 0) as H.
  cbv zeta in *. rewrite length_map in H. apply H.
  - apply nonincreasing_zeros.
  - apply Forall_forall. intros v Hv. apply in_map_iff in Hv.
    destruct Hv as [? [<- _]]. split; [Lqa.lra|discriminate].
Qed.

Lemma lfilter_pole_bound (g B : Q) (x : list Q) :
  (0 <= g)%Q -> (g < 1)%Q ->
  forall prev, (0 <= prev)%Q -> (prev < B)%Q ->
               Forall (fun v => 0 <= v /\ v < B)%Q x ->
               Forall (fun v => 0 <= v /\ v < B)%Q (lfilter_pole g prev x).
Proof.
  intros Hg0 Hg1. induction x as [|v t IH]; intros prev Hp0 HpB Hx;
    cbn [lfilter_pole]; [constructor|].
  inversion Hx as [|? ? [Hv0 HvB] Ht]; subst.
  assert (Hy : (0 <= (1 - g) * v + g * prev /\ (1 - g) * v + g * prev < B)%Q).
  { assert (H1 : (0 <= (1 - g) * v)%Q) by (apply Qmult_le_0_compat; Lqa.lra).
    assert (H2 : (0 <= g * prev)%Q) by (apply Qmult_le_0_compat; Lqa.lra).
    assert (H3 : (0 < (1 - g) * (B - v))%Q) by (apply Qmult_lt_0_compat; Lqa.lra).
    assert (H4 : (0 <= g * (B - prev))%Q) by (apply Qmult_le_0_compat; Lqa.lra).
    split; [Lqa.lra|].
    assert (E : (B - ((1 - g) * v + g * prev) == (1 - g) * (B - v) + g * (B - prev))%Q)
      by ring.
    Lqa.lra. }
  constructor; [exact Hy|]. apply IH; [apply Hy|apply Hy|exact Ht].
Qed.

(** Under the first threshold, with no hangover left, nothing is counted. *)
Lemma asl_activity_quiet (q : list Q) (I c0 a0 h0 : Q) (c a hang : list Q) :
  Forall (fun v => v < c0)%Q q -> (I <= h0)%Q ->
  asl_activity q I (c0 :: c) (a0 :: a) (h0 :: hang) = (a0 :: a, h0 :: hang).
Proof.
  intros Hq Hh. unfold asl_activity.
  induction Hq as [|qk q Hqk Hq IH]; [reflexivity|].
  cbn [fold_left fst snd asl_thresholds].
  rewrite (proj2 (Qle_bool_false c0 qk) Hqk).
  rewrite (proj2 (Qlt_bool_false h0 I) Hh). exact IH.
Qed.

Lemma py_range_unit_cons (start stop : Z) :
  start < stop ->
  py_range start stop 1 = start :: py_range (start + 1) stop 1.
Proof.
  intros H. unfold py_range.
  replace (stop - start + 1 - 1) with (stop - start) by lia.
  replace (stop - (start + 1) + 1 - 1) with (stop - start - 1) by lia.
  rewrite !Z.div_1_r.
  replace (Z.to_nat (stop - start)) with (S (Z.to_nat (stop - start - 1))) by lia.
  cbn [seq map]. f_equal; [lia|].
  rewrite <- seq_shift, map_map. apply map_ext. intros k. lia.
Qed.

(** X24. A signal under the lowest threshold, |x[k]| < 2^-15 (less than
    one step of a 16-bit quantiser, silence included), has no active
    speech level: for nbits >= 2, a sample rate that is not zero and a
    smoothing factor g = exp(-1 / (srate * T)) in [0, 1), [asl_P56]
    returns (0, 0, None). *)
Theorem Additive_asl_P56_quiet (np_exp np_log10 pow10 : Q -> Q) (fuel : nat)
        (x : list Q) (srate nbits : Z) :
  srate <> 0 -> 2 <= nbits ->
  (0 <= np_exp (- (1) / (inject_Z srate * asl_T)))%Q ->
  (np_exp (- (1) / (inject_Z srate * asl_T)) < 1)%Q ->
  Forall (fun v => Qabs v < 1 # 32768)%Q x ->
  Additive_asl_P56 np_exp np_log10 pow10 fuel x srate nbits = AslOk 0 0 None.
Proof.
  intros Hs Hn Hg0 Hg1 Hx. unfold Additive_asl_P56.
  destruct (Z.eqb_spec srate 0); [contradiction|].
  set (g := np_exp _) in *.
  rewrite (py_range_unit_cons (-15) (nbits - 1 + 1 - 16)) by lia.
  cbn [map].
  assert (Hq : Forall (fun v => v < Qpower 2 (-15))%Q
                      (lfilter_pole g 0 (lfilter_pole g 0 (map Qabs x)))).
  { apply (Forall_impl (fun v => v < Qpower 2 (-15))%Q
                       (P := fun v => 0 <= v /\ v < Qpower 2 (-15))%Q);
      [intros v Hv; exact (proj2 Hv)|].
    apply lfilter_pole_bound; try assumption; [Lqa.lra|reflexivity|].
    apply lfilter_pole_bound; try assumption; [Lqa.lra|reflexivity|].
    apply Forall_forall. intros v Hv. apply in_map_iff in Hv.
    destruct Hv as [u [<- Hu]]. split; [apply Qabs_nonneg|].
    rewrite Forall_forall in Hx. exact (Hx u Hu). }
  rewrite (asl_activity_quiet _ _ _ _ _ _ _ _ Hq) by Lqa.lra.
  reflexivity.
Qed.

Lemma Additive_asl_P56_quiet_witness :
  Additive_asl_P56 (fun _ => 1 # 2) unreached unreached 0
                   [0; 1 # 100000; - (1 # 50000)]%Q 16000 16
  = AslOk 0 0 None.
Proof.
  apply Additive_asl_P56_quiet.
  - discriminate.
  - lia.
  - discriminate.
  - reflexivity.
  - repeat constructor.
Defined.

(** A sample rate of zero stops [asl_P56] at -1 / (srate * T). *)
Lemma Additive_asl_P56_srate_zero (np_exp np_log10 pow10 : Q -> Q) (fuel : nat)
      (x : list Q) (nbits : Z) :
  Additive_asl_P56 np_exp np_log10 pow10 fuel x 0 nbits = AslZeroDivisionError.
Proof. reflexivity. Qed.

Lemma asl_activity_no_threshold (q : list Q) (I : Q) :
  asl_activity q I [] [] [] = ([], []).
Proof. unfold asl_activity. induction q as [|qk q IH]; [reflexivity|exact IH]. Qed.

(** X25. With nbits <= 1 there is no threshold, the counters are an
    empty array, and [asl_P56] fails at [a[0]] with an IndexError, on
    every signal and every sample rate that is not zero. *)
Theorem Additive_asl_P56_no_threshold (np_exp np_log10 pow10 : Q -> Q) (fuel : nat)
        (x : list Q) (srate nbits : Z) :
  srate <> 0 -> nbits <= 1 ->
  Additive_asl_P56 np_exp np_log10 pow10 fuel x srate nbits = AslRaise IndexError.
Proof.
  intros Hs Hn. unfold Additive_asl_P56.
  destruct (Z.eqb_spec srate 0); [contradiction|].
  assert (Hc : py_range (-15) (nbits - 1 + 1 - 16) 1 = []).
  { unfold py_range. rewrite Z.div_1_r.
    replace (Z.to_nat (nbits - 1 + 1 - 16 - -15 + 1 - 1)) with 0%nat by lia.
    reflexivity. }
  rewrite Hc. cbn [map]. rewrite asl_activity_no_threshold. reflexivity.
Qed.

Lemma Additive_asl_P56_no_threshold_witness :
  Additive_asl_P56 (fun _ => 1 # 2) unreached unreached 0 [1 # 2; 1 # 4]%Q 16000 1
  = AslRaise IndexError.
Proof. apply Additive_asl_P56_no_threshold; [discriminate|lia]. Defined.

Lemma map2_add_zeros (a : list Q) :
  forall b, length a = length b -> Forall (fun v => v == 0)%Q b ->
            Forall2 Qeq (map2 Qplus a b) a.
Proof.
  induction a as [|x a IH]; intros [|y b] Hlen Hb; cbn in *; try congruence;
    [constructor|].
  inversion Hb as [|? ? Hy Hb']; subst. constructor; [Lqa.lra|].
  apply IH; [congruence|exact Hb'].
Qed.


